(** * The 2048 rules engine of [src/app/2048/page.tsx] (Game2048)

    A shallow embedding of the game engine: [emptyCells], [randomSpawn],
    [canAnyMove], [newGame] and [move], and of what the view computes from
    its state: the overlay, the direction of a swipe and the layout of the
    tiles; followed by the properties of the move resolution, the terminal
    detector, the spawner, the controller and the view.

    Modelling conventions.
    - JavaScript numbers are modelled as [Z]: tile coordinates, identifiers,
      values and scores are integers far below 2^53 on every reachable board.
      Sums are exact in the model; those of the code are sums of doubles,
      exact as long as they stay within 2^53, which a theorem that states
      the exact score of an arbitrary state takes as a hypothesis.
    - The [tiles] array built at the start of [move] is the object store:
      a tile object is referred to by its index in that array, the [grid]
      holds such references, and a write through one reference is seen
      through every other one, as in the source.
    - [grid] is an array of four row arrays.  Reading or writing
      [grid[r][c]] with [r] outside [0..3] raises a TypeError, modelled by
      [None]; a column index outside [0..3] just adds a property to the row.
    - The two calls to [Math.random()] of a spawn are inputs of the model,
      rationals that the caller draws from the interval [0,1).  The product
      [Math.random() * n] is exact in the model; the code rounds it to a
      double before it floors it, so that a draw within half a unit in the
      last place below [j/n] selects the [j]-th cell and not the one
      before.  The theorems quantify the cell of a spawn existentially, or
      tie it to the draw by an interval that allows for this rounding.
    - Pointer coordinates and the width of the window are whole numbers of
      pixels. *)

From Stdlib Require Import ZArith QArith Qround Lqa.
From stdpp Require Import base option list sorting relations gmap fin_maps fin_sets.

Local Open Scope Z_scope.

(** ** Data model *)

Inductive Direction := up | down | left | right.

Record Tile := mkTile {
  id : Z;
  row : Z;
  col : Z;
  value : Z;
  spawned : bool;
  merged : bool
}.

Record GameState := mkState {
  tiles : list Tile;
  score : Z;
  best : Z;
  won : bool;
  over : bool
}.

(** The module-level counter [idSeq] together with the React state. *)
Record World := mkWorld {
  idSeq : Z;
  game : GameState
}.

Definition SIZE : Z := 4.

Abbreviation Cell := (Z * Z)%type.
Abbreviation Grid := (gmap (Z * Z) nat).

#[global] Instance Tile_eq_dec : EqDecision Tile.
Proof. solve_decision. Defined.

#[global] Instance Direction_eq_dec : EqDecision Direction.
Proof. solve_decision. Defined.

Definition pos (t : Tile) : Cell := (row t, col t).

(** The 16 cells in the order of the nested [for] loops (row-major). *)
Definition allCells : list Cell :=
  r ← seqZ 0 SIZE; c ← seqZ 0 SIZE; [(r, c)].

(** ** emptyCells *)

Definition emptyCells (ts : list Tile) : list Cell :=
  let occupied : gset Cell := list_to_set (pos <$> ts) in
  filter (λ p, p ∉ occupied) allCells.

(** ** randomSpawn *)

(** [Math.floor(Math.random() * empties.length)] for the draw [u], the
    product taken exactly. *)
Definition randomIndex (u : Q) (n : nat) : Z :=
  Qfloor (u * inject_Z (Z.of_nat n)).

(** [Math.random() < 0.1 ? 4 : 2] for the draw [v]. *)
Definition randomValue (v : Q) : Z :=
  if Qlt_le_dec v (1 # 10) then 4 else 2.

(** [empties[i]]; destructuring an absent element raises. *)
Definition cellAt (empties : list Cell) (i : Z) : option Cell :=
  if i <? 0 then None else empties !! Z.to_nat i.

Definition randomSpawn (ts : list Tile) (seq : Z) (u v : Q)
  : option (list Tile * Z) :=
  let empties := emptyCells ts in
  match empties with
  | [] => Some (ts, seq)
  | _ :: _ =>
      p ← cellAt empties (randomIndex u (length empties));
      Some (ts ++ [mkTile seq p.1 p.2 (randomValue v) true false], seq + 1)
  end.

(** ** The grid of references *)

Definition rowOK (r : Z) : bool := (0 <=? r) && (r <? SIZE).

(** [grid[r][c]] *)
Definition grid_get (g : Grid) (r c : Z) : option (option nat) :=
  if rowOK r then Some (g !! (r, c)) else None.

(** [grid[r][c] = t] *)
Definition grid_set (g : Grid) (r c : Z) (k : nat) : option Grid :=
  if rowOK r then Some (<[(r, c) := k]> g) else None.

(** [grid[r][c] = undefined] *)
Definition grid_clear (g : Grid) (r c : Z) : option Grid :=
  if rowOK r then Some (delete (r, c) g) else None.

(** [tiles.forEach((t) => (grid[t.row][t.col] = t))], the tile at index
    [k + i] of the array being the [i]-th element of [ts]. *)
Fixpoint fillGrid (k : nat) (ts : list Tile) (g : Grid) : option Grid :=
  match ts with
  | [] => Some g
  | t :: ts' => g' ← grid_set g (row t) (col t) k; fillGrid (S k) ts' g'
  end.

(** ** canAnyMove *)

Definition sameValueAt (ts : list Tile) (g : Grid) (p : Cell) (t : Tile) : bool :=
  match g !! p ≫= (ts !!.) with
  | Some t' => value t' =? value t
  | None => false
  end.

(** The body of the nested loops of [canAnyMove]: the tile at [p], if any,
    has the value of the tile below it or of the tile to its right. *)
Definition mergeableAt (ts : list Tile) (g : Grid) (p : Cell) : bool :=
  match g !! p ≫= (ts !!.) with
  | None => false
  | Some t =>
      ((p.1 + 1 <? SIZE) && sameValueAt ts g (p.1 + 1, p.2) t)
      || ((p.2 + 1 <? SIZE) && sameValueAt ts g (p.1, p.2 + 1) t)
  end.

Definition canAnyMove (ts : list Tile) : option bool :=
  match emptyCells ts with
  | _ :: _ => Some true
  | [] => g ← fillGrid 0 ts ∅; Some (existsb (mergeableAt ts g) allCells)
  end.

(** ** newGame *)

Definition newGame (w : World) (u1 v1 u2 v2 : Q) : option World :=
  '(ts1, seq1) ← randomSpawn [] 1 u1 v1;
  '(ts2, seq2) ← randomSpawn ts1 seq1 u2 v2;
  Some (mkWorld seq2 (mkState ts2 0 (best (game w)) false false)).

(** The mount effect that recovers [best] from local storage. *)
Definition loadBest (w : World) (b : Z) : World :=
  mkWorld (idSeq w)
    (mkState (tiles (game w)) (score (game w)) b (won (game w)) (over (game w))).

(** ** move *)

(** The mutable variables of the resolution loop. *)
Record MS := mkMS {
  store : list Tile;
  grid : Grid;
  moved : bool;
  scoreGain : Z;
  toRemove : gset Z
}.

Definition clearFlags (t : Tile) : Tile :=
  mkTile (id t) (row t) (col t) (value t) false false.

Definition upgrade (t : Tile) : Tile :=
  mkTile (id t) (row t) (col t) (value t * 2) (spawned t) true.

Definition relocate (t : Tile) (p : Cell) : Tile :=
  mkTile (id t) p.1 p.2 (value t) (spawned t) (merged t).

Definition lines (dir : Direction) : list (list Cell) :=
  match dir with
  | left => (λ r, (λ i, (r, i)) <$> seqZ 0 SIZE) <$> seqZ 0 SIZE
  | right => (λ r, reverse ((λ i, (r, i)) <$> seqZ 0 SIZE)) <$> seqZ 0 SIZE
  | up => (λ c, (λ i, (i, c)) <$> seqZ 0 SIZE) <$> seqZ 0 SIZE
  | down => (λ c, reverse ((λ i, (i, c)) <$> seqZ 0 SIZE)) <$> seqZ 0 SIZE
  end.

(** The references found along a line, in travel order. *)
Fixpoint collect (g : Grid) (coords : list Cell) : option (list nat) :=
  match coords with
  | [] => Some []
  | p :: coords' =>
      o ← grid_get g p.1 p.2;
      rest ← collect g coords';
      Some (match o with Some k => k :: rest | None => rest end)
  end.

(** [while (grid[targetPos.r][targetPos.c]) { targetIndex++; targetPos =
    coords[targetIndex]; }] on the cells from [targetIndex] on; running off
    the end of [coords] makes [targetPos] undefined, and the test raises. *)
Fixpoint advance (g : Grid) (from : list Cell) (targetIndex : nat)
  : option (nat * Cell) :=
  match from with
  | [] => None
  | p :: from' =>
      o ← grid_get g p.1 p.2;
      match o with
      | Some _ => advance g from' (S targetIndex)
      | None => Some (targetIndex, p)
      end
  end.

(** The test of the merge branch: the reference and the position of the
    previously placed tile when it can absorb [current]. *)
Definition mergeTarget (coords : list Cell) (ms : MS) (current : Tile)
  (targetIndex : nat) : option (option (nat * Cell)) :=
  match targetIndex with
  | O => Some None
  | S i =>
      prevPos ← coords !! i;
      o ← grid_get (grid ms) prevPos.1 prevPos.2;
      match o with
      | None => Some None
      | Some j =>
          prevTile ← store ms !! j;
          if (value prevTile =? value current) && negb (merged prevTile)
          then Some (Some (j, prevPos)) else Some None
      end
  end.

(** One iteration of the inner [for] loop, for the tile referred to by [k]. *)
Definition stepTile (coords : list Cell) (k : nat) (ms : MS) (targetIndex : nat)
  : option (MS * nat) :=
  current ← store ms !! k;
  mt ← mergeTarget coords ms current targetIndex;
  match mt with
  | Some (j, prevPos) =>
      g' ← grid_clear (grid ms) (row current) (col current);
      prevTile ← store ms !! j;
      let mv := moved ms || negb (row current =? prevPos.1)
                         || negb (col current =? prevPos.2) in
      let st' := <[j := upgrade prevTile]> (store ms) in
      Some (mkMS st' g' mv (scoreGain ms + value (upgrade prevTile))
                 ({[id current]} ∪ toRemove ms), targetIndex)
  | None =>
      targetPos ← coords !! targetIndex;
      let mv := if bool_decide (pos current = targetPos) then moved ms else true in
      g1 ← grid_clear (grid ms) (row current) (col current);
      '(ti, p) ← advance g1 (drop targetIndex coords) targetIndex;
      g2 ← grid_set g1 p.1 p.2 k;
      Some (mkMS (<[k := relocate current p]> (store ms)) g2 mv
                 (scoreGain ms) (toRemove ms), S ti)
  end.

Fixpoint placeAll (coords : list Cell) (lineTiles : list nat) (ms : MS)
  (targetIndex : nat) : option MS :=
  match lineTiles with
  | [] => Some ms
  | k :: rest =>
      '(ms', ti) ← stepTile coords k ms targetIndex;
      placeAll coords rest ms' ti
  end.

(** The body of [for (const coords of lines)]. *)
Definition processLine (coords : list Cell) (ms : MS) : option MS :=
  lineTiles ← collect (grid ms) coords;
  match lineTiles with
  | [] => Some ms
  | _ :: _ => placeAll coords lineTiles ms 0
  end.

Fixpoint runLines (ls : list (list Cell)) (ms : MS) : option MS :=
  match ls with
  | [] => Some ms
  | coords :: ls' => ms' ← processLine coords ms; runLines ls' ms'
  end.

(** The state of the loop variables before the first line. *)
Definition initMS (ts : list Tile) : option MS :=
  let tiles0 := clearFlags <$> ts in
  g ← fillGrid 0 tiles0 ∅;
  Some (mkMS tiles0 g false 0 ∅).

(** Compression and merging: everything before the spawn. *)
Definition resolve (ts : list Tile) (dir : Direction) : option MS :=
  ms ← initMS ts; runLines (lines dir) ms.

(** [tiles.filter((t) => !toRemove.has(t.id))] *)
Definition filtered (ms : MS) : list Tile :=
  filter (λ t, id t ∉ toRemove ms) (store ms).

Definition TARGET : Z := 2048.

Definition move (w : World) (dir : Direction) (u v : Q) : option World :=
  let prev := game w in
  ms ← resolve (tiles prev) dir;
  let won' := won prev || existsb (λ t, TARGET <=? value t) (filtered ms) in
  '(nextTiles, seq') ←
    (if moved ms then randomSpawn (filtered ms) (idSeq w) u v
     else Some (filtered ms, idSeq w));
  over' ← (if won' then Some false
           else can ← canAnyMove nextTiles; Some (negb can));
  let score' := score prev + scoreGain ms in
  Some (mkWorld seq' (mkState nextTiles score' (Z.max (best prev) score') won' over')).

(** The state on mount, before the first [newGame]. *)
Definition initial : World := mkWorld 1 (mkState [] 0 0 false false).

(** ** The view: overlay, swipes and layout *)

(** The two texts of the overlay of [Board]: the one of the game over
    and the one of the reached 2048. *)
Inductive Banner := GameOverBanner | WinBanner.

(** [(state.over || state.won) && ... state.over ? ... : ...]: the overlay
    is rendered when one of the flags is set, with the text that [over]
    selects. *)
Definition overlay (s : GameState) : option Banner :=
  if over s || won s
  then Some (if over s then GameOverBanner else WinBanner)
  else None.

(** The variables [startX], [startY] and [active] of the swipe effect;
    pointer coordinates are whole pixels. *)
Record Swipe := mkSwipe {
  startX : Z;
  startY : Z;
  active : bool
}.

Definition swipeInit : Swipe := mkSwipe 0 0 false.

Definition threshold : Z := 24.

Definition onDown (s : Swipe) (clientX clientY : Z) : Swipe :=
  mkSwipe clientX clientY true.

(** [onUp] returns the direction it passes to [move], if it calls it. *)
Definition onUp (s : Swipe) (clientX clientY : Z) : Swipe * option Direction :=
  if negb (active s) then (s, None)
  else
    let s' := mkSwipe (startX s) (startY s) false in
    let dx := clientX - startX s in
    let dy := clientY - startY s in
    if (Z.abs dx <? threshold) && (Z.abs dy <? threshold) then (s', None)
    else if Z.abs dx >? Z.abs dy then (s', Some (if dx >? 0 then right else left))
    else (s', Some (if dy >? 0 then down else up)).

(** [useResponsiveBoardSize] and [useResponsiveGap]: the state of the hook
    is its initial value until the effect has read [window.innerWidth]. *)
Definition useResponsiveBoardSize (innerWidth : option Z) : Z :=
  match innerWidth with
  | None => 360
  | Some iw =>
      let w := Z.min iw 900 in
      if w <? 400 then 300 else if w <? 640 then 340 else 460
  end.

Definition useResponsiveGap (innerWidth : option Z) : Z :=
  match innerWidth with
  | None => 12
  | Some iw => if iw <? 640 then 12 else 16
  end.

(** [Math.floor((sizePx - gap * (SIZE - 1)) / SIZE)] *)
Definition cellSize (sizePx gap : Z) : Z := (sizePx - gap * (SIZE - 1)) / SIZE.

(** The translation of [TileView], horizontal then vertical. *)
Definition translate (tile : Tile) (cellSize gap : Z) : Z * Z :=
  (col tile * (cellSize + gap), row tile * (cellSize + gap)).

(** * Vocabulary of the properties *)

(** ** Observations on a list of tiles *)

(** The tile of a board at a cell, its value, and the values and the
    [merged] flags along a line. *)
Definition tileAt (ts : list Tile) (p : Cell) : option Tile :=
  head (filter (λ t, pos t = p) ts).

Definition valueAt (ts : list Tile) (p : Cell) : option Z :=
  value <$> tileAt ts p.

Definition lineValues (ts : list Tile) (coords : list Cell) : list (option Z) :=
  valueAt ts <$> coords.


(** ** Cells and boards *)

Definition inRange (p : Cell) : Prop := (0 ≤ p.1 < SIZE) ∧ (0 ≤ p.2 < SIZE).

#[global] Instance inRange_dec p : Decision (inRange p).
Proof. unfold inRange. apply _. Defined.

Record WfBoard (ts : list Tile) : Prop := {
  wf_range : Forall (λ t, inRange (pos t)) ts;
  wf_cells : NoDup (pos <$> ts);
  wf_ids : NoDup (id <$> ts)
}.

(** A power of two that is at least 2. *)
Definition pow2 (v : Z) : Prop := ∃ n : Z, 1 ≤ n ∧ v = 2 ^ n.

(** The same, as a test. *)
Definition pow2b (v : Z) : bool := (2 <=? v) && (v =? 2 ^ Z.log2 v).

(** Orthogonal neighbours. *)
Definition adjacent (p q : Cell) : Prop :=
  Z.abs (p.1 - q.1) + Z.abs (p.2 - q.2) = 1.

(** A cell of the 4 x 4 board holds no tile. *)
Definition hasEmptyCell (ts : list Tile) : Prop :=
  ∃ p, inRange p ∧ ∀ t, t ∈ ts → pos t ≠ p.

(** Two orthogonally adjacent tiles have the same value. *)
Definition hasEqualNeighbours (ts : list Tile) : Prop :=
  ∃ t1 t2, t1 ∈ ts ∧ t2 ∈ ts ∧ adjacent (pos t1) (pos t2) ∧ value t1 = value t2.

(** The board with the given [(row, col, value)] triples, tiles numbered
    from 1 in that order. *)
Definition board (l : list (Z * Z * Z)) : list Tile :=
  imap (λ i '(r, c, v), mkTile (Z.of_nat i + 1) r c v false false) l.

(** ** Draws *)

(** A draw of [Math.random()]: a number of the interval [0,1). *)
Definition unitDraw (u : Q) : Prop := (0 <= u)%Q ∧ (u < 1)%Q.

Definition spawnedTile (seq : Z) (p : Cell) (v : Q) : Tile :=
  mkTile seq p.1 p.2 (randomValue v) true false.

(** The draws [u] for which [randomSpawn] picks the [j]-th of [n] empty
    cells: an interval of length [1/n] of the unit interval. *)
Definition cellInterval (n : nat) (j : Z) (u : Q) : Prop :=
  (inject_Z j / inject_Z (Z.of_nat n) <= u)%Q ∧
  (u < inject_Z (j + 1) / inject_Z (Z.of_nat n))%Q.

(** The same interval with its lower end a part in [2^53 =
    9007199254740992] lower: the
    product [Math.random() * n] is rounded to a double before it is
    floored, so a draw within half a unit in the last place below [j/n]
    already selects the [j]-th cell. *)
Definition nearInterval (n : nat) (j : Z) (u : Q) : Prop :=
  (inject_Z j / inject_Z (Z.of_nat n) * (1 - (1 # 9007199254740992)) <= u)%Q ∧
  (u < inject_Z (j + 1) / inject_Z (Z.of_nat n))%Q.

(** ** The state of the resolution loop *)

(** The tile object that the grid shows at a cell. *)
Definition cellTile (ms : MS) (p : Cell) : option Tile :=
  grid ms !! p ≫= (store ms !!.).

(** The grid and the store agree: the grid refers to tiles that are still
    alive and records them at their own position, every tile that is alive
    is in the grid, and identifiers are not shared. *)
Record Consistent (ms : MS) : Prop := {
  cons_grid : ∀ p k, grid ms !! p = Some k →
    inRange p ∧ ∃ t, store ms !! k = Some t ∧ pos t = p ∧ id t ∉ toRemove ms;
  cons_live : ∀ k t, store ms !! k = Some t → id t ∉ toRemove ms →
    grid ms !! pos t = Some k;
  cons_ids : NoDup (id <$> store ms)
}.

(** The two outcomes of an iteration of the inner loop, as functions of
    the loop state: the tile [cur] is absorbed by the tile [pt], which the
    reference [j] denotes, or [cur], which [k] denotes, is put at [q]. *)
Definition absorbed (ms : MS) (cur : Tile) (j : nat) (pt : Tile) : MS :=
  mkMS (<[j := upgrade pt]> (store ms)) (delete (pos cur) (grid ms)) true
       (scoreGain ms + value pt * 2) ({[id cur]} ∪ toRemove ms).

Definition placed (ms : MS) (k : nat) (cur : Tile) (q : Cell) : MS :=
  mkMS (<[k := relocate cur q]> (store ms))
       (<[q := k]> (delete (pos cur) (grid ms)))
       (if bool_decide (pos cur = q) then moved ms else true)
       (scoreGain ms) (toRemove ms).

(** What one iteration of the inner loop does to the loop variables, for
    a tile on one of the cells [C]: it is absorbed by the tile at [q], or
    it is put at [q], a cell that is free or its own. *)
Inductive TileStep (C : list Cell) (ms : MS) : MS → Prop :=
| step_merge k cur j pt q :
    store ms !! k = Some cur → grid ms !! pos cur = Some k → pos cur ∈ C →
    q ∈ C → q ≠ pos cur → grid ms !! q = Some j → store ms !! j = Some pt →
    value pt = value cur → merged pt = false →
    TileStep C ms (absorbed ms cur j pt)
| step_place k cur q :
    store ms !! k = Some cur → grid ms !! pos cur = Some k → pos cur ∈ C →
    q ∈ C → inRange q → (q = pos cur ∨ grid ms !! q = None) →
    TileStep C ms (placed ms k cur q).

(** The previously placed tile cannot absorb [cur]. *)
Definition noMerge (L : list Cell) (ms : MS) (cur : Tile) (ti : nat) : Prop :=
  ∀ i q pt, ti = S i → L !! i = Some q → cellTile ms q = Some pt →
    (value pt =? value cur) && negb (merged pt) = false.

(** ** A line on its own *)

(** The same loop on the contents of the line alone: [lview] lists what
    the four cells of the line hold, in travel order. *)
Record LineState := mkLS {
  lview : list (option Tile);
  lti : nat;
  lgain : Z;
  lmoved : bool
}.

Definition lineTarget (a : LineState) (cur : Tile) : option (nat * Tile) :=
  match lti a with
  | O => None
  | S i =>
      match lview a !! i with
      | Some (Some pt) =>
          if (value pt =? value cur) && negb (merged pt) then Some (i, pt) else None
      | _ => None
      end
  end.

Definition lineStep (L : list Cell) (a : LineState) (n : nat) (cur : Tile)
  : LineState :=
  match lineTarget a cur with
  | Some (i, pt) =>
      mkLS (<[i := Some (upgrade pt)]> (<[n := None]> (lview a))) (lti a)
           (lgain a + value pt * 2) true
  | None =>
      match L !! lti a with
      | Some q =>
          mkLS (<[lti a := Some (relocate cur q)]> (<[n := None]> (lview a)))
               (S (lti a)) (lgain a)
               (if bool_decide (n = lti a) then lmoved a else true)
      | None => a
      end
  end.

Fixpoint lineRun (L : list Cell) (a : LineState) (ns : list nat) : LineState :=
  match ns with
  | [] => a
  | n :: ns' =>
      match lview a !! n with
      | Some (Some cur) => lineRun L (lineStep L a n cur) ns'
      | _ => lineRun L a ns'
      end
  end.

Definition viewValues (view : list (option Tile)) : list (option Z) :=
  (λ o : option Tile, value <$> o) <$> view.


(** ** States and runs of the controller *)

(** A state whose board is well formed: the tiles are on distinct cells
    of the grid, and their identifiers are distinct and below the counter.
    Nothing is assumed of the values, of the flags, of the score or of
    [best]. *)
Record WfState (w : World) : Prop := {
  ws_wf : WfBoard (tiles (game w));
  ws_fresh : Forall (λ t, id t < idSeq w) (tiles (game w))
}.

(** What every state that the game can reach satisfies: the board is
    well formed, identifiers are below the counter, values are powers of
    two, and the flags record the board. *)
Record Inv (w : World) : Prop := {
  inv_wf : WfBoard (tiles (game w));
  inv_fresh : Forall (λ t, id t < idSeq w) (tiles (game w));
  inv_pow2 : Forall (λ t, pow2 (value t)) (tiles (game w));
  inv_won : Exists (λ t, TARGET ≤ value t) (tiles (game w)) → won (game w) = true;
  inv_over : over (game w) = true ↔
             won (game w) = false ∧ canAnyMove (tiles (game w)) = Some false
}.

(** The states of the component: the state on mount, then any number of
    calls of [newGame] and [move], and the recovery of [best] from storage. *)
Inductive reachable : World → Prop :=
| reach_initial : reachable initial
| reach_loadBest w b : reachable w → reachable (loadBest w b)
| reach_newGame w u1 v1 u2 v2 w' :
    reachable w → unitDraw u1 → unitDraw u2 →
    newGame w u1 v1 u2 v2 = Some w' → reachable w'
| reach_move w dir u v w' :
    reachable w → unitDraw u → move w dir u v = Some w' → reachable w'.

(** A sequence of moves, each with its two draws. *)
Fixpoint moves (w : World) (l : list (Direction * Q * Q)) : option World :=
  match l with
  | [] => Some w
  | (dir, u, v) :: l' => w' ← move w dir u v; moves w' l'
  end.

Definition drawsOK (l : list (Direction * Q * Q)) : Prop :=
  Forall (λ m, unitDraw m.1.2) l.

(** The operations of the controller. *)
Inductive Op :=
| OpNewGame (u1 v1 u2 v2 : Q)
| OpMove (dir : Direction) (u v : Q).

Definition runOp (w : World) (op : Op) : option World :=
  match op with
  | OpNewGame u1 v1 u2 v2 => newGame w u1 v1 u2 v2
  | OpMove dir u v => move w dir u v
  end.

(** The draws that choose a cell are in the unit interval. *)
Definition opOK (op : Op) : Prop :=
  match op with
  | OpNewGame u1 _ u2 _ => unitDraw u1 ∧ unitDraw u2
  | OpMove _ u _ => unitDraw u
  end.

Fixpoint runOps (w : World) (ops : list Op) : option World :=
  match ops with
  | [] => Some w
  | op :: ops' => w' ← runOp w op; runOps w' ops'
  end.

Definition isMove (op : Op) : bool :=
  match op with OpMove _ _ _ => true | OpNewGame _ _ _ _ => false end.

(** The scores observed after the moves of a run. *)
Fixpoint observed (w : World) (ops : list Op) : list Z :=
  match ops with
  | [] => []
  | op :: ops' =>
      match runOp w op with
      | Some w' =>
          (if isMove op then [score (game w')] else []) ++ observed w' ops'
      | None => []
      end
  end.

(** ** A tile before and after a move *)

(** The cells of one line of travel: a row for the moves to the left and
    to the right, a column for the moves up and down. *)
Definition sameLine (dir : Direction) (p q : Cell) : Prop :=
  match dir with
  | left | right => p.1 = q.1
  | up | down => p.2 = q.2
  end.

#[global] Instance sameLine_dec dir p q : Decision (sameLine dir p q).
Proof. destruct dir; unfold sameLine; apply _. Defined.

(** What the loop does to a tile object between two of its iterations:
    it keeps the identifier and the [spawned] flag and stays on the line,
    and it is at most once doubled and marked [merged]. *)
Definition TileRel (dir : Direction) (t t' : Tile) : Prop :=
  id t' = id t ∧ sameLine dir (pos t) (pos t') ∧ spawned t' = spawned t ∧
  (merged t' = merged t ∧ value t' = value t ∨
   merged t = false ∧ merged t' = true ∧ value t' = value t * 2).

(** The tile [t'] after a move is the tile [t] before it. *)
Definition survivor (dir : Direction) (t t' : Tile) : Prop :=
  id t' = id t ∧ sameLine dir (pos t) (pos t') ∧ spawned t' = false ∧
  (merged t' = false ∧ value t' = value t ∨
   merged t' = true ∧ value t' = value t * 2).

(** ** Lines on which a move has an effect *)

Definition occupied (o : option Z) : bool :=
  match o with Some _ => true | None => false end.

(** A cell without a tile comes before a cell with a tile. *)
Fixpoint hasGap (vs : list (option Z)) : bool :=
  match vs with
  | [] => false
  | None :: r => existsb occupied r || hasGap r
  | Some _ :: r => hasGap r
  end.

(** Two consecutive values are equal. *)
Fixpoint hasPair (l : list Z) : bool :=
  match l with
  | a :: r => match r with b :: _ => (a =? b) || hasPair r | [] => false end
  | [] => false
  end.

(** The values of the tiles along a line, without the empty cells. *)
Definition present (vs : list (option Z)) : list Z := omap (λ o, o) vs.

(** The values along a line, in travel order, allow a tile to slide or
    two tiles to merge. *)
Definition lineMoves (vs : list (option Z)) : bool :=
  hasGap vs || hasPair (present vs).

(** The index of the line of a cell among the lines of a direction, and
    the index of the cell on its line, in travel order. *)
Definition lineIx (dir : Direction) (p : Cell) : nat :=
  Z.to_nat (match dir with left | right => p.1 | up | down => p.2 end).

Definition cellIx (dir : Direction) (p : Cell) : nat :=
  Z.to_nat (match dir with
            | left => p.2
            | right => SIZE - 1 - p.2
            | up => p.1
            | down => SIZE - 1 - p.1
            end).

#[global] Instance adjacent_dec p q : Decision (adjacent p q).
Proof. unfold adjacent. apply _. Defined.

(** ** The view *)

Definition opposite (dir : Direction) : Direction :=
  match dir with up => down | down => up | left => right | right => left end.

(** The square of side [cellSize] that [TileView] draws at the
    translation of the tile lies within the board of side [sizePx]. *)
Definition inside (sizePx cellSize gap : Z) (t : Tile) : Prop :=
  let '(x, y) := translate t cellSize gap in
  0 ≤ x ∧ x + cellSize ≤ sizePx ∧ 0 ≤ y ∧ y + cellSize ≤ sizePx.

(** The squares of two tiles are at least [gap] apart, horizontally or
    vertically. *)
Definition apart (cellSize gap : Z) (t1 t2 : Tile) : Prop :=
  let '(x1, y1) := translate t1 cellSize gap in
  let '(x2, y2) := translate t2 cellSize gap in
  x1 + cellSize + gap ≤ x2 ∨ x2 + cellSize + gap ≤ x1 ∨
  y1 + cellSize + gap ≤ y2 ∨ y2 + cellSize + gap ≤ y1.

(** ** The textbook rule for one line *)

(** Merging along a list of values, leading end first: two equal
    neighbours become one tile of twice the value, which does not merge
    again. *)
Fixpoint mergeRow (l : list Z) : list Z :=
  match l with
  | [] => []
  | a :: r =>
      match r with
      | [] => [a]
      | b :: r' => if a =? b then a * 2 :: mergeRow r' else a :: mergeRow r
      end
  end.

(** The score that these merges give. *)
Fixpoint rowGain (l : list Z) : Z :=
  match l with
  | [] => 0
  | a :: r =>
      match r with
      | [] => 0
      | b :: r' => if a =? b then a * 2 + rowGain r' else rowGain r
      end
  end.

(** A line after the move: the merged values at the leading end, then
    empty cells. *)
Definition slide (vs : list (option Z)) : list (option Z) :=
  let m := mergeRow (present vs) in
  (Some <$> m) ++ replicate (length vs - length m) None.

Definition lineGain (vs : list (option Z)) : Z := rowGain (present vs).


(** ** The sum of the values on the board *)

Fixpoint total (ts : list Tile) : Z :=
  match ts with
  | [] => 0
  | t :: ts' => value t + total ts'
  end.

(** The value of a tile object of the store if no merge has consumed it. *)
Definition liveValue (R : gset Z) (t : Tile) : Z :=
  if decide (id t ∈ R) then 0 else value t.

Fixpoint liveTotal (R : gset Z) (st : list Tile) : Z :=
  match st with
  | [] => 0
  | t :: st' => liveValue R t + liveTotal R st'
  end.

(** * Properties *)

(** ** Cells and lines *)

Lemma elem_of_allCells p : p ∈ allCells ↔ inRange p.
Proof.
  unfold allCells, inRange. destruct p as [r c]. cbn [fst snd]. split.
  - intros Hp. apply list_elem_of_bind in Hp as (r' & Hp & Hr).
    apply list_elem_of_bind in Hp as (c' & Hp & Hc).
    apply list_elem_of_singleton in Hp. injection Hp as -> ->.
    apply elem_of_seqZ in Hr, Hc. lia.
  - intros [Hr Hc]. apply list_elem_of_bind. exists r. split.
    + apply list_elem_of_bind. exists c. split; [apply list_elem_of_singleton; done|].
      apply elem_of_seqZ. lia.
    + apply elem_of_seqZ. lia.
Qed.

Lemma NoDup_allCells : NoDup allCells.
Proof. apply (bool_decide_unpack _). by vm_compute. Qed.

Lemma length_allCells : length allCells = 16%nat.
Proof. reflexivity. Qed.

Lemma lines_wf d : Forall (λ L, NoDup L ∧ Forall inRange L) (lines d).
Proof. destruct d; apply (bool_decide_unpack _); by vm_compute. Qed.

Lemma lines_disjoint d : NoDup (concat (lines d)).
Proof. destruct d; apply (bool_decide_unpack _); by vm_compute. Qed.

Lemma rowOK_inRange p : inRange p → rowOK p.1 = true.
Proof. unfold inRange, rowOK, SIZE. intros [? ?]. apply andb_true_intro. split; lia. Qed.

(** ** The invariant of the resolution loop *)

Lemma relocate_same t : relocate t (pos t) = t.
Proof. by destruct t. Qed.

Lemma pos_relocate t q : pos (relocate t q) = q.
Proof. by destruct q. Qed.

Lemma ref_inj ms p p' k :
  Consistent ms → grid ms !! p = Some k → grid ms !! p' = Some k → p = p'.
Proof.
  intros Hc H1 H2.
  destruct (cons_grid _ Hc _ _ H1) as (_ & t & Ht & <- & _).
  destruct (cons_grid _ Hc _ _ H2) as (_ & t' & Ht' & <- & _).
  congruence.
Qed.

Lemma id_inj (st : list Tile) k k' t t' :
  NoDup (id <$> st) → st !! k = Some t → st !! k' = Some t' → id t = id t' → k = k'.
Proof.
  intros Hnd Hk Hk' Hid.
  eapply NoDup_lookup; [exact Hnd | |]; rewrite list_lookup_fmap.
  - by rewrite Hk.
  - rewrite Hk'. simpl. by rewrite Hid.
Qed.

Lemma TileStep_mono C C' ms ms' : C ⊆ C' → TileStep C ms ms' → TileStep C' ms ms'.
Proof.
  intros Hsub [k cur j pt q ? ? ? ? ? ? ? ? ?|k cur q ? ? ? ? ? ?].
  - eapply step_merge; eauto.
  - eapply step_place; eauto.
Qed.

Lemma TileStep_ids C ms ms' : TileStep C ms ms' → id <$> store ms' = id <$> store ms.
Proof.
  intros [k cur j pt q Hk _ _ _ _ _ Hj _ _|k cur q Hk _ _ _ _ _]; simpl;
    rewrite list_fmap_insert; apply list_insert_id; rewrite list_lookup_fmap.
  - by rewrite Hj.
  - by rewrite Hk.
Qed.

Lemma TileStep_consistent C ms ms' :
  Consistent ms → TileStep C ms ms' → Consistent ms'.
Proof.
  intros Hc Hstep. pose proof (TileStep_ids _ _ _ Hstep) as Hids.
  destruct Hstep as [k cur j pt q Hk Hgk HpC HqC Hne Hgq Hj Hv Hm
                    |k cur q Hk Hgk HpC HqC Hrq Hfree].
  - (* merge *)
    assert (Hjk : j ≠ k).
    { intros ->. apply Hne. eapply ref_inj; eauto. }
    constructor; simpl in *.
    + intros p k' Hp. apply lookup_delete_Some in Hp as [Hpne Hp].
      destruct (cons_grid _ Hc _ _ Hp) as (Hr & t & Ht & Hpos & Hlive).
      split; [done|].
      assert (Hk'k : k' ≠ k).
      { intros ->. apply Hpne. eapply ref_inj; eauto. }
      assert (Hidne : id t ≠ id cur).
      { intros Hid. apply Hk'k. eapply id_inj; eauto using cons_ids. }
      destruct (decide (k' = j)) as [->|Hk'j].
      * exists (upgrade pt). assert (t = pt) as -> by congruence.
        rewrite list_lookup_insert_eq by (by eapply lookup_lt_Some).
        repeat split; [done|]. simpl. set_solver.
      * exists t. rewrite list_lookup_insert_ne by done.
        repeat split; [done..|]. set_solver.
    + intros k' t' Hk' Hlive.
      assert (∃ t0, store ms !! k' = Some t0 ∧ pos t0 = pos t' ∧ id t0 = id t')
        as (t0 & Ht0 & Hpos0 & Hid0).
      { destruct (decide (k' = j)) as [->|Hk'j].
        - rewrite list_lookup_insert_eq in Hk' by (by eapply lookup_lt_Some).
          injection Hk' as <-. by exists pt.
        - rewrite list_lookup_insert_ne in Hk' by done. by exists t'. }
      assert (Hlive0 : id t0 ∉ toRemove ms) by (rewrite Hid0; set_solver).
      pose proof (cons_live _ Hc _ _ Ht0 Hlive0) as Hg.
      rewrite <- Hpos0. rewrite lookup_delete_ne; [done|].
      intros Heq. rewrite <- Heq in Hg.
      assert (k' = k) as -> by congruence.
      assert (t0 = cur) as -> by congruence.
      rewrite <- Hid0 in Hlive. set_solver.
    + by rewrite Hids; apply cons_ids.
  - (* place *)
    constructor; simpl in *.
    + intros p k' Hp. destruct (decide (p = q)) as [->|Hpq].
      * rewrite lookup_insert_eq in Hp. injection Hp as <-.
        split; [done|]. exists (relocate cur q).
        rewrite list_lookup_insert_eq by (by eapply lookup_lt_Some).
        repeat split; [apply pos_relocate|].
        destruct (cons_grid _ Hc _ _ Hgk) as (_ & t & Ht & _ & Hl).
        assert (t = cur) as -> by congruence. done.
      * rewrite lookup_insert_ne in Hp by done.
        apply lookup_delete_Some in Hp as [Hpne Hp].
        destruct (cons_grid _ Hc _ _ Hp) as (Hr & t & Ht & Hpos & Hlive).
        split; [done|]. exists t.
        rewrite list_lookup_insert_ne; [done|].
        intros ->. apply Hpne. eapply ref_inj; eauto.
    + intros k' t' Hk' Hlive. destruct (decide (k' = k)) as [->|Hk'k].
      * rewrite list_lookup_insert_eq in Hk' by (by eapply lookup_lt_Some).
        injection Hk' as <-. rewrite pos_relocate. apply lookup_insert_eq.
      * rewrite list_lookup_insert_ne in Hk' by done.
        pose proof (cons_live _ Hc _ _ Hk' Hlive) as Hg.
        assert (Hne1 : pos t' ≠ pos cur).
        { intros Heq. rewrite Heq in Hg. congruence. }
        assert (Hne2 : pos t' ≠ q).
        { intros Heq. destruct Hfree as [->|Hnone]; [done|]. congruence. }
        rewrite lookup_insert_ne by done. by rewrite lookup_delete_ne.
    + by rewrite Hids; apply cons_ids.
Qed.

Lemma TileStep_frame C ms ms' p :
  Consistent ms → TileStep C ms ms' → p ∉ C → cellTile ms' p = cellTile ms p.
Proof.
  intros Hc [k cur j pt q Hk Hgk HpC HqC Hne Hgq Hj Hv Hm
            |k cur q Hk Hgk HpC HqC Hrq Hfree] Hp; unfold cellTile; simpl.
  - rewrite lookup_delete_ne by (by intros Heq; rewrite Heq in HpC).
    destruct (grid ms !! p) as [k'|] eqn:Hgp; [simpl|done].
    rewrite list_lookup_insert_ne; [done|].
    intros ->. apply Hp. by rewrite (ref_inj ms p q k').
  - rewrite lookup_insert_ne by (by intros Heq; rewrite Heq in HqC).
    rewrite lookup_delete_ne by (by intros Heq; rewrite Heq in HpC).
    destruct (grid ms !! p) as [k'|] eqn:Hgp; [simpl|done].
    rewrite list_lookup_insert_ne; [done|].
    intros ->. apply Hp. by rewrite (ref_inj ms p (pos cur) k').
Qed.

(** A step that is not the identity makes [moved] true and leaves a cell
    of the board free. *)
Lemma TileStep_effect C ms ms' :
  Consistent ms → TileStep C ms ms' →
  ms' = ms ∨ (moved ms' = true ∧ ∃ p, inRange p ∧ grid ms' !! p = None).
Proof.
  intros Hc [k cur j pt q Hk Hgk HpC HqC Hne Hgq Hj Hv Hm
            |k cur q Hk Hgk HpC HqC Hrq Hfree]; unfold absorbed, placed.
  - right. split; [done|]. exists (pos cur). simpl.
    split; [by destruct (cons_grid _ Hc _ _ Hgk)|apply lookup_delete_eq].
  - destruct (decide (pos cur = q)) as [<-|Hne].
    + left. rewrite bool_decide_eq_true_2 by done.
      rewrite relocate_same, list_insert_id by done.
      rewrite insert_delete_eq, insert_id by done. by destruct ms.
    + right. rewrite bool_decide_eq_false_2 by done. split; [done|].
      exists (pos cur). simpl.
      split; [by destruct (cons_grid _ Hc _ _ Hgk)|].
      rewrite lookup_insert_ne by done. apply lookup_delete_eq.
Qed.

Lemma TileStep_moved C ms ms' : TileStep C ms ms' → moved ms = true → moved ms' = true.
Proof.
  intros [k cur j pt q ? ? ? ? ? ? ? ? ?|k cur q ? ? ? ? ? ?] Hm; simpl; [done|].
  by destruct (bool_decide _).
Qed.

Lemma pow2_double v : pow2 v → pow2 (v * 2).
Proof.
  intros (n & Hn & ->). exists (n + 1). split; [lia|].
  rewrite Z.pow_add_r by lia. lia.
Qed.

Lemma pow2_pos v : pow2 v → 2 ≤ v.
Proof.
  intros (n & Hn & ->). change 2 with (2 ^ 1) at 1.
  apply Z.pow_le_mono_r; lia.
Qed.

Lemma TileStep_pow2 C ms ms' :
  TileStep C ms ms' → Forall (λ t, pow2 (value t)) (store ms) →
  Forall (λ t, pow2 (value t)) (store ms').
Proof.
  intros [k cur j pt q Hk _ _ _ _ _ Hj _ _|k cur q Hk _ _ _ _ _] Hall; simpl;
    apply Forall_insert; try done; simpl.
  - apply pow2_double. eapply (Forall_lookup_1 _ _ _ _ Hall Hj).
  - eapply (Forall_lookup_1 _ _ _ _ Hall Hk).
Qed.

Lemma TileStep_gain C ms ms' :
  TileStep C ms ms' → Forall (λ t, pow2 (value t)) (store ms) →
  scoreGain ms ≤ scoreGain ms'.
Proof.
  intros [k cur j pt q Hk _ _ _ _ _ Hj _ _|k cur q Hk _ _ _ _ _] Hall; simpl; [|lia].
  pose proof (pow2_pos _ (Forall_lookup_1 _ _ _ _ Hall Hj)). lia.
Qed.

Lemma Steps_consistent C ms ms' :
  rtc (TileStep C) ms ms' → Consistent ms → Consistent ms'.
Proof. induction 1; eauto using TileStep_consistent. Qed.

Lemma Steps_mono C C' ms ms' :
  C ⊆ C' → rtc (TileStep C) ms ms' → rtc (TileStep C') ms ms'.
Proof.
  intros Hsub. induction 1 as [|ms1 ms2 ms3 Hstep _ IH]; [done|].
  eapply rtc_l; [|exact IH]. by eapply TileStep_mono.
Qed.

Lemma Steps_frame C ms ms' p :
  rtc (TileStep C) ms ms' → Consistent ms → p ∉ C → cellTile ms' p = cellTile ms p.
Proof.
  induction 1 as [|ms1 ms2 ms3 Hstep _ IH]; [done|]. intros Hc Hp.
  rewrite IH by eauto using TileStep_consistent. by eapply TileStep_frame.
Qed.

Lemma Steps_moved C ms ms' :
  rtc (TileStep C) ms ms' → moved ms = true → moved ms' = true.
Proof. induction 1; eauto using TileStep_moved. Qed.

Lemma Steps_effect C ms ms' :
  rtc (TileStep C) ms ms' → Consistent ms →
  ms' = ms ∨ (moved ms' = true ∧ ∃ p, inRange p ∧ grid ms' !! p = None).
Proof.
  induction 1 as [|ms1 ms2 ms3 Hstep Hrest IH]; [by left|]. intros Hc.
  destruct (IH (TileStep_consistent _ _ _ Hc Hstep)) as [->|?]; [|by right].
  by eapply TileStep_effect.
Qed.

Lemma Steps_ids C ms ms' :
  rtc (TileStep C) ms ms' → id <$> store ms' = id <$> store ms.
Proof.
  induction 1 as [|ms1 ms2 ms3 Hstep _ IH]; [done|].
  rewrite IH. by eapply TileStep_ids.
Qed.

Lemma Steps_pow2 C ms ms' :
  rtc (TileStep C) ms ms' → Forall (λ t, pow2 (value t)) (store ms) →
  Forall (λ t, pow2 (value t)) (store ms').
Proof. induction 1; eauto using TileStep_pow2. Qed.

Lemma Steps_gain C ms ms' :
  rtc (TileStep C) ms ms' → Forall (λ t, pow2 (value t)) (store ms) →
  scoreGain ms ≤ scoreGain ms'.
Proof.
  induction 1 as [|ms1 ms2 ms3 Hstep _ IH]; [done|]. intros Hall.
  pose proof (TileStep_gain _ _ _ Hstep Hall).
  pose proof (IH (TileStep_pow2 _ _ _ Hstep Hall)). lia.
Qed.

Lemma TileStep_removed C ms ms' :
  TileStep C ms ms' → (∀ i, i ∈ toRemove ms → i ∈ id <$> store ms) →
  ∀ i, i ∈ toRemove ms' → i ∈ id <$> store ms'.
Proof.
  intros Hstep Hsub i. rewrite (TileStep_ids _ _ _ Hstep).
  destruct Hstep as [k cur j pt q Hk _ _ _ _ _ _ _ _|k cur q _ _ _ _ _ _]; simpl;
    [|by apply Hsub].
  intros [->%elem_of_singleton|Hi]%elem_of_union; [|by apply Hsub].
  apply list_elem_of_fmap. exists cur. split; [done|]. by eapply list_elem_of_lookup_2.
Qed.

Lemma Steps_removed C ms ms' :
  rtc (TileStep C) ms ms' → (∀ i, i ∈ toRemove ms → i ∈ id <$> store ms) →
  ∀ i, i ∈ toRemove ms' → i ∈ id <$> store ms'.
Proof. induction 1; eauto using TileStep_removed. Qed.

(** ** What the grid shows after a step *)

Lemma cellTile_absorbed ms k cur j pt q c :
  Consistent ms → store ms !! k = Some cur → grid ms !! pos cur = Some k →
  q ≠ pos cur → grid ms !! q = Some j → store ms !! j = Some pt →
  cellTile (absorbed ms cur j pt) c =
    if decide (c = q) then Some (upgrade pt)
    else if decide (c = pos cur) then None else cellTile ms c.
Proof.
  intros Hc Hk Hgk Hne Hgq Hj. unfold cellTile, absorbed. cbn [grid store].
  destruct (decide (c = q)) as [->|Hcq].
  - rewrite lookup_delete_ne by done. rewrite Hgq. simpl.
    apply list_lookup_insert_eq. by eapply lookup_lt_Some.
  - destruct (decide (c = pos cur)) as [->|Hcp].
    + by rewrite lookup_delete_eq.
    + rewrite lookup_delete_ne by done.
      destruct (grid ms !! c) as [k'|] eqn:Hgc; [simpl|done].
      rewrite list_lookup_insert_ne; [done|].
      intros ->. apply Hcq. eapply ref_inj; eauto.
Qed.

Lemma cellTile_placed ms k cur q c :
  Consistent ms → store ms !! k = Some cur → grid ms !! pos cur = Some k →
  cellTile (placed ms k cur q) c =
    if decide (c = q) then Some (relocate cur q)
    else if decide (c = pos cur) then None else cellTile ms c.
Proof.
  intros Hc Hk Hgk. unfold cellTile, placed. cbn [grid store].
  destruct (decide (c = q)) as [->|Hcq].
  - rewrite lookup_insert_eq. simpl.
    apply list_lookup_insert_eq. by eapply lookup_lt_Some.
  - rewrite lookup_insert_ne by done.
    destruct (decide (c = pos cur)) as [->|Hcp].
    + by rewrite lookup_delete_eq.
    + rewrite lookup_delete_ne by done.
      destruct (grid ms !! c) as [k'|] eqn:Hgc; [simpl|done].
      rewrite list_lookup_insert_ne; [done|].
      intros ->. apply Hcp. eapply ref_inj; eauto.
Qed.

Lemma view_update {A} (L : list Cell) (f f' : Cell → option A) a b x y pa pb :
  NoDup L → L !! a = Some pa → L !! b = Some pb →
  (∀ c, f' c = if decide (c = pb) then y else if decide (c = pa) then x else f c) →
  f' <$> L = <[b := y]> (<[a := x]> (f <$> L)).
Proof.
  intros Hnd Ha Hb Hf'. apply list_eq. intros m.
  rewrite list_lookup_fmap, !list_lookup_insert, length_insert, length_fmap.
  pose proof (lookup_lt_Some _ _ _ Ha). pose proof (lookup_lt_Some _ _ _ Hb).
  destruct (L !! m) as [c|] eqn:Hm; simpl.
  - rewrite Hf', list_lookup_fmap, Hm. simpl.
    assert (Hb' : c = pb ↔ b = m).
    { split; [intros ->; by eapply NoDup_lookup|intros ->; congruence]. }
    assert (Ha' : c = pa ↔ a = m).
    { split; [intros ->; by eapply NoDup_lookup|intros ->; congruence]. }
    repeat case_decide; try done; naive_solver.
  - rewrite list_lookup_fmap, Hm. simpl.
    repeat case_decide; try done; naive_solver.
Qed.

(** ** Scanning a line *)

Lemma omap_cons {A B} (f : A → option B) x l :
  omap f (x :: l) = match f x with Some y => y :: omap f l | None => omap f l end.
Proof. reflexivity. Qed.

Lemma collect_omap g L :
  Forall inRange L → collect g L = Some (omap (g !!.) L).
Proof.
  induction 1 as [|p L Hp _ IH]; [done|]. cbn [collect].
  unfold grid_get. rewrite rowOK_inRange, IH, omap_cons by done.
  destruct p as [r c]. cbn. by destruct (g !! (r, c)).
Qed.

Lemma omap_delete_notin (g : Grid) p (l : list Cell) :
  p ∉ l → omap (delete p g !!.) l = omap (g !!.) l.
Proof.
  induction l as [|c l IH]; [done|]. intros Hp.
  apply not_elem_of_cons in Hp as [Hne Hp]. rewrite !omap_cons.
  rewrite lookup_delete_ne by done. by rewrite IH.
Qed.

Lemma omap_insert_notin (g : Grid) q k (l : list Cell) :
  q ∉ l → omap (<[q := k]> g !!.) l = omap (g !!.) l.
Proof.
  induction l as [|c l IH]; [done|]. intros Hp.
  apply not_elem_of_cons in Hp as [Hne Hp]. rewrite !omap_cons.
  rewrite lookup_insert_ne by done. by rewrite IH.
Qed.

Lemma omap_delete_first ms p k rest (l : list Cell) :
  Consistent ms → NoDup l → grid ms !! p = Some k →
  omap (grid ms !!.) l = k :: rest →
  omap (delete p (grid ms) !!.) l = rest.
Proof.
  intros Hc Hnd Hp. induction Hnd as [|c l Hc' Hnd IH]; [done|].
  rewrite !omap_cons. destruct (grid ms !! c) as [k'|] eqn:Hgc.
  - intros [= -> <-]. assert (c = p) as -> by (eapply ref_inj; eauto).
    rewrite lookup_delete_eq. by apply omap_delete_notin.
  - intros Hrest. rewrite lookup_delete_ne by congruence.
    rewrite Hgc. by apply IH.
Qed.

Lemma NoDup_drop {A} (l : list A) n : NoDup l → NoDup (drop n l).
Proof. intros Hnd. eapply sublist_NoDup; [exact Hnd|apply sublist_drop]. Qed.

Lemma notin_drop (L : list Cell) i n p :
  NoDup L → L !! i = Some p → (i ≤ n)%nat → p ∉ drop (S n) L.
Proof.
  intros Hnd Hi Hle Hin. apply list_elem_of_lookup in Hin as [m Hm].
  rewrite lookup_drop in Hm.
  pose proof (NoDup_lookup _ _ _ _ Hnd Hi Hm). lia.
Qed.

Lemma omap_skip (g : Grid) (L : list Cell) n :
  ∀ ti, (ti ≤ n)%nat →
  (∀ i p, (ti ≤ i < n)%nat → L !! i = Some p → g !! p = None) →
  omap (g !!.) (drop ti L) = omap (g !!.) (drop n L).
Proof.
  intros ti Hle. induction Hle as [|n Hle IH]; [done|]. intros Hempty.
  rewrite IH by (intros i p ?; apply Hempty; lia).
  destruct (L !! n) as [p|] eqn:Hn.
  - rewrite (drop_S _ _ _ Hn), omap_cons. by rewrite (Hempty n p) by (done || lia).
  - apply lookup_ge_None in Hn. by rewrite !drop_ge by lia.
Qed.

(** ** The loop body performs such steps *)

Section Line.

(** A line of the board: distinct cells of the 4 x 4 grid, in travel order. *)
Context (L : list Cell) (Hnd : NoDup L) (Hr : Forall inRange L).

Lemma mergeTarget_cases ms cur k ti :
  Consistent ms →
  store ms !! k = Some cur → grid ms !! pos cur = Some k → pos cur ∈ drop ti L →
  (mergeTarget L ms cur ti = Some None ∧ noMerge L ms cur ti) ∨
  ∃ i j q pt, ti = S i ∧ L !! i = Some q ∧
    mergeTarget L ms cur ti = Some (Some (j, q)) ∧ q ≠ pos cur ∧
    grid ms !! q = Some j ∧ store ms !! j = Some pt ∧
    value pt = value cur ∧ merged pt = false.
Proof.
  intros Hc Hk Hgk Hin. destruct ti as [|i].
  { left. split; [done|]. by intros i q pt. }
  cbn [mergeTarget]. destruct (L !! i) as [q|] eqn:Hi.
  - pose proof (Forall_lookup_1 _ _ _ _ Hr Hi) as Hrq.
    pose proof (notin_drop _ _ _ _ Hnd Hi (Nat.le_refl i)) as Hq.
    simpl. unfold grid_get. rewrite rowOK_inRange by done. simpl.
    destruct q as [qr qc]. simpl.
    destruct (grid ms !! (qr, qc)) as [j|] eqn:Hgq.
    2:{ left. split; [done|]. intros i' q' pt [= <-] Hq' Hct.
        assert (q' = (qr, qc)) as -> by congruence.
        unfold cellTile in Hct. by rewrite Hgq in Hct. }
    destruct (cons_grid _ Hc _ _ Hgq) as (_ & pt & Hj & _ & _).
    rewrite Hj. simpl.
    destruct ((value pt =? value cur) && negb (merged pt)) eqn:Hcond.
    2:{ left. split; [done|]. intros i' q' pt' [= <-] Hq' Hct.
        assert (q' = (qr, qc)) as -> by congruence.
        unfold cellTile in Hct. rewrite Hgq in Hct. simpl in Hct.
        assert (pt' = pt) as -> by congruence. done. }
    apply andb_true_iff in Hcond as [Hv Hm].
    apply Z.eqb_eq in Hv. apply negb_true_iff in Hm.
    right. exists i, j, (qr, qc), pt. repeat split; try done.
    intros Heq. apply Hq. by rewrite Heq.
  - apply lookup_ge_None in Hi. rewrite drop_ge in Hin by lia.
    by apply elem_of_nil in Hin.
Qed.

(** What an iteration of the inner loop returns. *)
Lemma stepTile_spec k rest ms ti :
  Consistent ms →
  omap (grid ms !!.) (drop ti L) = k :: rest →
  ∃ cur, store ms !! k = Some cur ∧ grid ms !! pos cur = Some k ∧
    pos cur ∈ drop ti L ∧
    ((∃ i j q pt, ti = S i ∧ L !! i = Some q ∧ q ≠ pos cur ∧
        grid ms !! q = Some j ∧ store ms !! j = Some pt ∧
        value pt = value cur ∧ merged pt = false ∧
        stepTile L k ms ti = Some (absorbed ms cur j pt, ti) ∧
        omap (grid (absorbed ms cur j pt) !!.) (drop ti L) = rest)
     ∨ (∃ q, L !! ti = Some q ∧ (q = pos cur ∨ grid ms !! q = None) ∧
        noMerge L ms cur ti ∧
        stepTile L k ms ti = Some (placed ms k cur q, S ti) ∧
        omap (grid (placed ms k cur q) !!.) (drop (S ti) L) = rest)).
Proof.
  intros Hc Hom.
  assert (k ∈ omap (grid ms !!.) (drop ti L)) as Hin by (rewrite Hom; left).
  apply list_elem_of_omap in Hin as (p & HpL & Hgp).
  destruct (cons_grid _ Hc _ _ Hgp) as (Hrp & cur & Hk & Hpos & Hlive). subst p.
  assert (HrowOK : rowOK (row cur) = true) by (by apply (rowOK_inRange (pos cur))).
  exists cur. split; [done|]. split; [done|]. split; [done|].
  unfold stepTile. rewrite Hk. simpl.
  destruct (mergeTarget_cases ms cur k ti) as
    [[-> Hno] | (i & j & q & pt & -> & Hi & -> & Hne & Hgq & Hj & Hv & Hm)];
    try done; simpl.
  - (* the tile is put at the target cell *)
    right. destruct (L !! ti) as [q|] eqn:Hti; simpl.
    2:{ apply lookup_ge_None in Hti. rewrite drop_ge in HpL by lia.
        by apply elem_of_nil in HpL. }
    pose proof (Forall_lookup_1 _ _ _ _ Hr Hti) as Hrq.
    pose proof (notin_drop _ _ _ _ Hnd Hti (Nat.le_refl ti)) as Hq.
    rewrite (drop_S _ _ _ Hti) in Hom, HpL |- *.
    assert (Hfree : q = pos cur ∨ grid ms !! q = None).
    { destruct (grid ms !! q) as [k'|] eqn:Hgq; [left|by right].
      rewrite omap_cons, Hgq in Hom. injection Hom as -> _.
      eapply ref_inj; eauto. }
    assert (Hfree' : delete (pos cur) (grid ms) !! q = None).
    { destruct Hfree as [->|Hn]; [apply lookup_delete_eq|].
      by apply lookup_delete_None; right. }
    assert (HrowOKq : rowOK q.1 = true) by (by apply rowOK_inRange).
    exists q. split; [done|]. split; [done|]. split; [done|]. split.
    + unfold grid_clear. rewrite HrowOK. simpl. unfold grid_get.
      rewrite HrowOKq. simpl. destruct q as [qr qc]. cbn [fst snd] in *.
      change (row cur, col cur) with (pos cur). rewrite Hfree'. simpl.
      unfold grid_set. rewrite HrowOKq. done.
    + unfold placed. cbn [grid]. rewrite omap_insert_notin by done.
      destruct Hfree as [Heq|Hn].
      * rewrite omap_cons in Hom. rewrite Heq in Hom at 1.
        rewrite Hgp in Hom. injection Hom as <-.
        apply omap_delete_notin. by rewrite <- Heq.
      * rewrite omap_cons, Hn in Hom.
        apply (omap_delete_first ms (pos cur) k); try done.
        by apply NoDup_drop.
  - (* the tile is absorbed *)
    left. exists i, j, q, pt. repeat (split; [done|]).
    assert (Hmv : moved ms || negb (row cur =? q.1) || negb (col cur =? q.2) = true).
    { destruct q as [qr qc]. simpl.
      destruct (row cur =? qr) eqn:E1; destruct (col cur =? qc) eqn:E2;
        rewrite ?orb_true_r; try done.
      apply Z.eqb_eq in E1, E2. destruct Hne. unfold pos. congruence. }
    split.
    + unfold grid_clear. rewrite HrowOK, Hj. simpl. by rewrite Hmv.
    + apply (omap_delete_first ms (pos cur) k); try done. by apply NoDup_drop.
Qed.

Lemma stepTile_sound k rest ms ti :
  Consistent ms →
  omap (grid ms !!.) (drop ti L) = k :: rest →
  ∃ ms' ti', stepTile L k ms ti = Some (ms', ti') ∧ TileStep L ms ms' ∧
    omap (grid ms' !!.) (drop ti' L) = rest.
Proof.
  intros Hc Hom.
  destruct (stepTile_spec k rest ms ti Hc Hom)
    as (cur & Hk & Hgk & Hin & Hcases).
  assert (HpinL : pos cur ∈ L) by (by eapply subseteq_drop).
  destruct Hcases as [(i & j & q & pt & -> & Hi & Hne & Hgq & Hj & Hv & Hm & Hstep & Hrest)
                     |(q & Hti & Hfree & _ & Hstep & Hrest)].
  - eexists _, _. split; [exact Hstep|]. split; [|done].
    apply (step_merge L ms k cur j pt q); try done.
    by eapply list_elem_of_lookup_2.
  - eexists _, _. split; [exact Hstep|]. split; [|done].
    apply (step_place L ms k cur q); try done.
    + by eapply list_elem_of_lookup_2.
    + by eapply (Forall_lookup_1 _ _ _ _ Hr Hti).
Qed.

Lemma placeAll_sound rest :
  ∀ ms ti, Consistent ms → omap (grid ms !!.) (drop ti L) = rest →
  ∃ ms', placeAll L rest ms ti = Some ms' ∧ rtc (TileStep L) ms ms'.
Proof.
  induction rest as [|k rest IH]; intros ms ti Hc Hom.
  - by exists ms.
  - destruct (stepTile_sound k rest ms ti Hc Hom)
      as (ms1 & ti1 & Hstep & HT & Hom1).
    destruct (IH ms1 ti1 (TileStep_consistent _ _ _ Hc HT) Hom1) as (ms' & Hrun & Hsteps).
    exists ms'. cbn [placeAll]. rewrite Hstep. simpl. split; [done|].
    by eapply rtc_l.
Qed.

Lemma processLine_sound ms :
  Consistent ms →
  ∃ ms', processLine L ms = Some ms' ∧ rtc (TileStep L) ms ms'.
Proof.
  intros Hc. unfold processLine. rewrite collect_omap by done. simpl.
  destruct (placeAll_sound (omap (grid ms !!.) L) ms 0%nat Hc eq_refl)
    as (ms' & Hrun & Hsteps).
  destruct (omap (grid ms !!.) L) eqn:Hom; [|by exists ms'].
  by exists ms.
Qed.

Lemma placeAll_lineRun :
  ∀ m n ms ti, (n + m = length L)%nat → Consistent ms → (ti ≤ n)%nat →
    (∀ i p, (ti ≤ i < n)%nat → L !! i = Some p → grid ms !! p = None) →
    ∃ ms', placeAll L (omap (grid ms !!.) (drop n L)) ms ti = Some ms' ∧
      let a := lineRun L (mkLS (cellTile ms <$> L) ti (scoreGain ms) (moved ms))
                       (seq n m) in
      cellTile ms' <$> L = lview a ∧ scoreGain ms' = lgain a ∧ moved ms' = lmoved a.
Proof.
  induction m as [|m IH]; intros n ms ti Hlen Hc Hti Hempty.
  { rewrite drop_ge by lia. by exists ms. }
  destruct (lookup_lt_is_Some_2 L n) as [p Hn]; [lia|].
  rewrite (drop_S _ _ _ Hn), omap_cons. cbn [seq lineRun lview].
  rewrite list_lookup_fmap, Hn. cbn [fmap option_fmap option_map].
  destruct (grid ms !! p) as [k|] eqn:Hgp.
  2:{ assert (Hct : cellTile ms p = None) by (unfold cellTile; by rewrite Hgp).
      rewrite Hct. apply (IH (S n) ms ti); [lia|done|lia|].
      intros i p' Hi Hp'. destruct (decide (i = n)) as [->|]; [congruence|].
      apply (Hempty i); [lia|done]. }
  destruct (cons_grid _ Hc _ _ Hgp) as (Hrp & cur & Hk & Hpos & _).
  assert (Hct : cellTile ms p = Some cur) by (unfold cellTile; by rewrite Hgp).
  rewrite Hct. subst p.
  set (rest := omap (grid ms !!.) (drop (S n) L)).
  assert (Hom : omap (grid ms !!.) (drop ti L) = k :: rest).
  { rewrite (omap_skip _ _ n ti Hti Hempty), (drop_S _ _ _ Hn), omap_cons, Hgp. done. }
  assert (HpL : pos cur ∈ L) by (by eapply list_elem_of_lookup_2).
  destruct (stepTile_spec k rest ms ti Hc Hom) as (cur' & Hk' & _ & _ & Hcases).
  assert (cur' = cur) as -> by congruence.
  cbn [placeAll].
  destruct Hcases as [(i & j & q & pt & -> & Hi & Hne & Hgq & Hj & Hv & Hm & Hstep & _)
                     |(q & Hq & Hfree & Hno & Hstep & _)]; rewrite Hstep; simpl.
  - (* absorbed by the tile at index [i] *)
    set (ms1 := absorbed ms cur j pt).
    assert (Hc1 : Consistent ms1).
    { eapply TileStep_consistent; [exact Hc|].
      apply (step_merge L ms k cur j pt q); try done.
      by eapply list_elem_of_lookup_2. }
    assert (Hrest : rest = omap (grid ms1 !!.) (drop (S n) L)).
    { unfold ms1, absorbed. cbn [grid]. rewrite omap_delete_notin; [done|].
      by eapply notin_drop. }
    assert (Hview : cellTile ms1 <$> L
                    = <[i := Some (upgrade pt)]> (<[n := None]> (cellTile ms <$> L))).
    { eapply (view_update L (cellTile ms) (cellTile ms1) n i None
                (Some (upgrade pt)) (pos cur) q); try done.
      intros c. by eapply cellTile_absorbed. }
    assert (Hls : lineStep L (mkLS (cellTile ms <$> L) (S i) (scoreGain ms) (moved ms)) n cur
                  = mkLS (cellTile ms1 <$> L) (S i) (scoreGain ms1) (moved ms1)).
    { unfold lineStep, lineTarget. cbn [lti lview lgain lmoved].
      rewrite list_lookup_fmap, Hi. simpl.
      assert (cellTile ms q = Some pt) as -> by (unfold cellTile; by rewrite Hgq).
      rewrite (proj2 (Z.eqb_eq _ _) Hv), Hm. simpl. by rewrite Hview. }
    rewrite Hls, Hrest. apply (IH (S n) ms1 (S i)); [lia|done|lia|].
    intros i' p' Hi' Hp'. unfold ms1, absorbed. cbn [grid].
    apply lookup_delete_None. destruct (decide (i' = n)) as [->|].
    + left. congruence.
    + right. apply (Hempty i'); [lia|done].
  - (* put at the target cell *)
    set (ms1 := placed ms k cur q).
    pose proof (Forall_lookup_1 _ _ _ _ Hr Hq) as Hrq.
    assert (Hc1 : Consistent ms1).
    { eapply TileStep_consistent; [exact Hc|].
      apply (step_place L ms k cur q); try done.
      by eapply list_elem_of_lookup_2. }
    assert (Hrest : rest = omap (grid ms1 !!.) (drop (S n) L)).
    { unfold ms1, placed. cbn [grid].
      rewrite omap_insert_notin by (by eapply notin_drop).
      rewrite omap_delete_notin; [done|]. by eapply notin_drop. }
    assert (Hview : cellTile ms1 <$> L
                    = <[ti := Some (relocate cur q)]> (<[n := None]> (cellTile ms <$> L))).
    { eapply (view_update L (cellTile ms) (cellTile ms1) n ti None
                (Some (relocate cur q)) (pos cur) q); try done.
      intros c. by eapply cellTile_placed. }
    assert (Hls : lineStep L (mkLS (cellTile ms <$> L) ti (scoreGain ms) (moved ms)) n cur
                  = mkLS (cellTile ms1 <$> L) (S ti) (scoreGain ms1) (moved ms1)).
    { unfold lineStep.
      assert (lineTarget (mkLS (cellTile ms <$> L) ti (scoreGain ms) (moved ms)) cur = None)
        as ->.
      { unfold lineTarget. cbn [lti lview]. destruct ti as [|i]; [done|].
        rewrite list_lookup_fmap.
        destruct (L !! i) as [qi|] eqn:Hqi; [simpl|done].
        destruct (cellTile ms qi) as [pt|] eqn:Hpt; [|done].
        by rewrite (Hno i qi pt eq_refl Hqi Hpt). }
      cbn [lti lview lgain lmoved]. rewrite Hq, Hview.
      unfold ms1, placed. cbn [scoreGain moved]. f_equal.
      rewrite (bool_decide_ext (n = ti) (pos cur = q)); [done|]. split.
      - intros ->. congruence.
      - intros Heq. eapply NoDup_lookup; [exact Hnd|exact Hn|]. by rewrite Heq. }
    rewrite Hls, Hrest. apply (IH (S n) ms1 (S ti)); [lia|done|lia|].
    intros i' p' Hi' Hp'. unfold ms1, placed. cbn [grid].
    rewrite lookup_insert_ne.
    2:{ intros ->. pose proof (NoDup_lookup _ _ _ _ Hnd Hq Hp'). lia. }
    apply lookup_delete_None. destruct (decide (i' = n)) as [->|].
    + left. congruence.
    + right. apply (Hempty i'); [lia|done].
Qed.

(** The body of the loop over the lines computes what [lineRun] computes
    on the contents of the line. *)
Lemma processLine_lineRun ms :
  Consistent ms →
  ∃ ms', processLine L ms = Some ms' ∧
    let a := lineRun L (mkLS (cellTile ms <$> L) 0 (scoreGain ms) (moved ms))
                     (seq 0 (length L)) in
    cellTile ms' <$> L = lview a ∧ scoreGain ms' = lgain a ∧ moved ms' = lmoved a.
Proof.
  intros Hc.
  destruct (placeAll_lineRun (length L) 0%nat ms 0%nat) as (ms' & Hrun & Hres);
    [done|done|lia|intros; lia|].
  exists ms'. split; [|done]. unfold processLine.
  rewrite collect_omap by done. simpl. rewrite drop_0 in Hrun.
  destruct (omap (grid ms !!.) L); [|done]. done.
Qed.

End Line.

Lemma runLines_sound ls :
  Forall (λ L, NoDup L ∧ Forall inRange L) ls →
  ∀ ms, Consistent ms →
  ∃ ms', runLines ls ms = Some ms' ∧ rtc (TileStep (concat ls)) ms ms'.
Proof.
  induction 1 as [|L ls [Hnd Hr] _ IH]; intros ms Hc.
  - by exists ms.
  - destruct (processLine_sound L Hnd Hr ms Hc) as (ms1 & Hrun1 & Hsteps1).
    destruct (IH ms1 (Steps_consistent _ _ _ Hsteps1 Hc)) as (ms' & Hrun & Hsteps).
    exists ms'. cbn [runLines]. rewrite Hrun1. simpl. split; [done|].
    etrans.
    + eapply Steps_mono; [|exact Hsteps1]. simpl. set_solver.
    + eapply Steps_mono; [|exact Hsteps]. simpl. set_solver.
Qed.

(** ** Well-formed boards *)

Lemma fillGrid_spec ts :
  Forall (λ t, inRange (pos t)) ts → NoDup (pos <$> ts) →
  ∀ k0 g0, ∃ g, fillGrid k0 ts g0 = Some g ∧
    (∀ i t, ts !! i = Some t → g !! pos t = Some (k0 + i)%nat) ∧
    (∀ p, p ∉ pos <$> ts → g !! p = g0 !! p).
Proof.
  induction 1 as [|t ts Ht _ IH]; intros Hnd k0 g0.
  - exists g0. split; [done|]. split; [|done]. intros i t Hi. by destruct i.
  - rewrite fmap_cons in Hnd. apply NoDup_cons in Hnd as [Hnotin Hnd].
    destruct (IH Hnd (S k0) (<[pos t := k0]> g0)) as (g & Hfill & Hin & Hout).
    exists g. cbn [fillGrid]. unfold grid_set.
    rewrite (rowOK_inRange (pos t) Ht : rowOK (row t) = true).
    split; [done|]. split.
    + intros [|i] t' Hi; simpl in Hi.
      * injection Hi as <-. rewrite Hout by done.
        rewrite lookup_insert_eq. f_equal. lia.
      * rewrite (Hin _ _ Hi). f_equal. lia.
    + intros p Hp. rewrite fmap_cons in Hp. apply not_elem_of_cons in Hp as [Hne Hp].
      rewrite Hout by done. by rewrite lookup_insert_ne.
Qed.

Lemma pos_clearFlags (ts : list Tile) : pos <$> (clearFlags <$> ts) = pos <$> ts.
Proof. rewrite <- list_fmap_compose. by apply list_fmap_ext. Qed.

Lemma id_clearFlags (ts : list Tile) : id <$> (clearFlags <$> ts) = id <$> ts.
Proof. rewrite <- list_fmap_compose. by apply list_fmap_ext. Qed.

Lemma value_clearFlags (ts : list Tile) : value <$> (clearFlags <$> ts) = value <$> ts.
Proof. rewrite <- list_fmap_compose. by apply list_fmap_ext. Qed.

Lemma clearFlags_idemp (ts : list Tile) : clearFlags <$> (clearFlags <$> ts) = clearFlags <$> ts.
Proof. rewrite <- list_fmap_compose. by apply list_fmap_ext. Qed.

Lemma WfBoard_clearFlags ts : WfBoard ts → WfBoard (clearFlags <$> ts).
Proof.
  intros [Hr Hc Hi]. constructor.
  - apply Forall_fmap. eapply Forall_impl; [exact Hr|]. by intros [].
  - by rewrite pos_clearFlags.
  - by rewrite id_clearFlags.
Qed.

Lemma fillGrid_consistent ts g :
  WfBoard ts → fillGrid 0 ts ∅ = Some g → Consistent (mkMS ts g false 0 ∅).
Proof.
  intros [Hr Hc Hi] Hfill.
  destruct (fillGrid_spec ts Hr Hc 0%nat ∅) as (g' & Hfill' & Hin & Hout).
  assert (g' = g) as -> by congruence.
  constructor; simpl.
  - intros p k Hp.
    destruct (decide (p ∈ pos <$> ts)) as [Hel|Hnel].
    + apply list_elem_of_fmap in Hel as (t & -> & Ht).
      apply list_elem_of_lookup in Ht as [i Hi'].
      rewrite (Hin _ _ Hi') in Hp. injection Hp as <-.
      split; [by eapply (Forall_lookup_1 _ _ _ _ Hr Hi')|].
      exists t. repeat split; [done|]. set_solver.
    + rewrite Hout in Hp by done. by rewrite lookup_empty in Hp.
  - intros k t Hk _. by rewrite (Hin _ _ Hk).
  - done.
Qed.

Lemma initMS_sound ts :
  WfBoard ts → ∃ g, initMS ts = Some (mkMS (clearFlags <$> ts) g false 0 ∅) ∧
    Consistent (mkMS (clearFlags <$> ts) g false 0 ∅).
Proof.
  intros Hwf. apply WfBoard_clearFlags in Hwf.
  destruct (fillGrid_spec _ (wf_range _ Hwf) (wf_cells _ Hwf) 0%nat ∅) as (g & Hfill & _).
  exists g. unfold initMS. rewrite Hfill. simpl. split; [done|].
  by apply fillGrid_consistent.
Qed.

(** The resolution of a well-formed board raises nothing, and consists of
    tile steps from the initial loop state. *)
Lemma resolve_sound ts dir :
  WfBoard ts → ∃ g ms,
    initMS ts = Some (mkMS (clearFlags <$> ts) g false 0 ∅) ∧
    resolve ts dir = Some ms ∧
    Consistent (mkMS (clearFlags <$> ts) g false 0 ∅) ∧ Consistent ms ∧
    rtc (TileStep (concat (lines dir))) (mkMS (clearFlags <$> ts) g false 0 ∅) ms.
Proof.
  intros Hwf. destruct (initMS_sound ts Hwf) as (g & Hinit & Hc).
  destruct (runLines_sound _ (lines_wf dir) _ Hc) as (ms & Hrun & Hsteps).
  exists g, ms. unfold resolve. rewrite Hinit. simpl.
  split; [done|]. split; [done|]. split; [done|]. split; [|done].
  by eapply Steps_consistent.
Qed.

(** ** The board left by the resolution *)

Lemma head_filter_unique {A} (P : A → Prop) `{!∀ x, Decision (P x)} (l : list A) x :
  x ∈ l → P x → (∀ y, y ∈ l → P y → y = x) → head (filter P l) = Some x.
Proof.
  intros Hx HP Huniq.
  assert (Hin : x ∈ filter P l) by (by apply list_elem_of_filter).
  destruct (filter P l) as [|a F] eqn:HF; [by apply elem_of_nil in Hin|].
  simpl. f_equal.
  assert (Ha : a ∈ filter P l) by (rewrite HF; left).
  apply list_elem_of_filter in Ha as [HPa Ha]. by apply Huniq.
Qed.

Lemma head_filter_none {A} (P : A → Prop) `{!∀ x, Decision (P x)} (l : list A) :
  (∀ y, y ∈ l → ¬ P y) → head (filter P l) = None.
Proof.
  intros Hnone. destruct (filter P l) as [|a F] eqn:HF; [done|].
  assert (Ha : a ∈ filter P l) by (rewrite HF; left).
  apply list_elem_of_filter in Ha as [HPa Ha]. by destruct (Hnone a).
Qed.

Lemma tileAt_filtered ms p :
  Consistent ms → tileAt (filtered ms) p = cellTile ms p.
Proof.
  intros Hc. unfold tileAt, cellTile, filtered.
  destruct (grid ms !! p) as [k|] eqn:Hg; simpl.
  - destruct (cons_grid _ Hc _ _ Hg) as (_ & t & Hk & Hpos & Hlive).
    rewrite Hk. apply head_filter_unique; [|done|].
    + apply list_elem_of_filter. split; [done|]. by eapply list_elem_of_lookup_2.
    + intros y Hy Hposy. apply list_elem_of_filter in Hy as [Hly Hy].
      apply list_elem_of_lookup in Hy as [k' Hk'].
      pose proof (cons_live _ Hc _ _ Hk' Hly) as Hg'.
      rewrite Hposy in Hg'. congruence.
  - apply head_filter_none. intros y Hy Hposy.
    apply list_elem_of_filter in Hy as [Hly Hy].
    apply list_elem_of_lookup in Hy as [k' Hk'].
    pose proof (cons_live _ Hc _ _ Hk' Hly) as Hg'.
    rewrite Hposy in Hg'. congruence.
Qed.

Lemma valueAt_filtered ms p :
  Consistent ms → valueAt (filtered ms) p = value <$> cellTile ms p.
Proof. intros Hc. unfold valueAt. by rewrite tileAt_filtered. Qed.

Lemma valueAt_clearFlags ts p : valueAt (clearFlags <$> ts) p = valueAt ts p.
Proof.
  unfold valueAt, tileAt. induction ts as [|t ts IH]; [done|].
  rewrite fmap_cons. destruct (decide (pos t = p)) as [Heq|Hne].
  - rewrite !filter_cons_True; done.
  - rewrite !filter_cons_False; done.
Qed.

Lemma NoDup_of_ids (st : list Tile) : NoDup (id <$> st) → NoDup st.
Proof. apply NoDup_fmap_1. Qed.

Lemma NoDup_fmap_filter {A B} (f : A → B) (P : A → Prop) `{!∀ x, Decision (P x)}
    (l : list A) :
  NoDup l → (∀ x y, x ∈ l → y ∈ l → P x → P y → f x = f y → x = y) →
  NoDup (f <$> filter P l).
Proof.
  induction 1 as [|a l Ha Hnd IH]; intros Hinj; [constructor|].
  assert (IH' : NoDup (f <$> filter P l)).
  { apply IH. intros x y Hx Hy. apply Hinj; by right. }
  destruct (decide (P a)) as [HPa|HPa].
  - rewrite filter_cons_True, fmap_cons by done. apply NoDup_cons. split; [|done].
    intros Hin. apply list_elem_of_fmap in Hin as (y & Hfy & Hy).
    apply list_elem_of_filter in Hy as [HPy Hy].
    assert (a = y) as -> by (apply Hinj; [left|by right|done..]). done.
  - by rewrite filter_cons_False.
Qed.

Lemma filtered_wf ms : Consistent ms → WfBoard (filtered ms).
Proof.
  intros Hc. pose proof (NoDup_of_ids _ (cons_ids _ Hc)) as Hnd.
  constructor; unfold filtered.
  - apply Forall_forall. intros t Ht. apply list_elem_of_filter in Ht as [Hl Ht].
    apply list_elem_of_lookup in Ht as [k Hk].
    by destruct (cons_grid _ Hc _ _ (cons_live _ Hc _ _ Hk Hl)).
  - apply NoDup_fmap_filter; [done|]. intros x y Hx Hy Hlx Hly Hpos.
    apply list_elem_of_lookup in Hx as [k Hk]. apply list_elem_of_lookup in Hy as [k' Hk'].
    pose proof (cons_live _ Hc _ _ Hk Hlx) as Hg.
    pose proof (cons_live _ Hc _ _ Hk' Hly) as Hg'.
    rewrite Hpos in Hg. congruence.
  - apply NoDup_fmap_filter; [done|]. intros x y Hx Hy _ _ Hid.
    apply list_elem_of_lookup in Hx as [k Hk]. apply list_elem_of_lookup in Hy as [k' Hk'].
    pose proof (id_inj _ _ _ _ _ (cons_ids _ Hc) Hk Hk' Hid). congruence.
Qed.

(** ** Empty cells *)

Lemma elem_of_emptyCells ts p :
  p ∈ emptyCells ts ↔ inRange p ∧ ∀ t, t ∈ ts → pos t ≠ p.
Proof.
  unfold emptyCells. rewrite list_elem_of_filter, elem_of_allCells.
  rewrite elem_of_list_to_set, list_elem_of_fmap. split.
  - intros [Hn Hr]. split; [done|]. intros t Ht Heq. apply Hn. by exists t.
  - intros [Hr Hn]. split; [|done]. intros (t & Heq & Ht). by apply (Hn t).
Qed.

Lemma emptyCells_clearFlags ts : emptyCells (clearFlags <$> ts) = emptyCells ts.
Proof. unfold emptyCells. by rewrite pos_clearFlags. Qed.

(** Fewer than 16 tiles leave a cell empty. *)
Lemma emptyCells_short ts : (length ts < 16)%nat → emptyCells ts ≠ [].
Proof.
  intros Hlen Hnil.
  assert (Hsub : allCells ⊆+ pos <$> ts).
  { apply NoDup_submseteq; [apply NoDup_allCells|]. intros p Hp.
    destruct (decide (p ∈ pos <$> ts)) as [|Hn]; [done|].
    assert (Hin : p ∈ emptyCells ts).
    { apply elem_of_emptyCells. split; [by apply elem_of_allCells|].
      intros t Ht Heq. apply Hn. apply list_elem_of_fmap. by exists t. }
    rewrite Hnil in Hin. by apply elem_of_nil in Hin. }
  apply submseteq_length in Hsub. rewrite length_fmap, length_allCells in Hsub. lia.
Qed.

Lemma emptyCells_of_free ms p :
  Consistent ms → inRange p → grid ms !! p = None → p ∈ emptyCells (filtered ms).
Proof.
  intros Hc Hr Hg. apply elem_of_emptyCells. split; [done|].
  intros t Ht Heq. apply list_elem_of_filter in Ht as [Hl Ht].
  apply list_elem_of_lookup in Ht as [k Hk].
  pose proof (cons_live _ Hc _ _ Hk Hl) as Hg'. rewrite Heq in Hg'. congruence.
Qed.

(** ** canAnyMove *)

Lemma lookup_grid_Some ts g p t :
  Consistent (mkMS ts g false 0 ∅) →
  g !! p ≫= (ts !!.) = Some t ↔ t ∈ ts ∧ pos t = p.
Proof.
  intros Hc. split.
  - intros Hl. destruct (g !! p) as [k|] eqn:Hg; [simpl in Hl|done].
    destruct (cons_grid _ Hc _ _ Hg) as (_ & t' & Hk & Hpos & _). simpl in Hk.
    assert (t' = t) as -> by congruence. split; [|done].
    by eapply list_elem_of_lookup_2.
  - intros [Ht <-]. apply list_elem_of_lookup in Ht as [k Hk].
    assert (Hg : g !! pos t = Some k) by (apply (cons_live _ Hc k t Hk); set_solver).
    rewrite Hg. done.
Qed.

Lemma sameValueAt_true ts g p t :
  Consistent (mkMS ts g false 0 ∅) →
  sameValueAt ts g p t = true ↔ ∃ t', t' ∈ ts ∧ pos t' = p ∧ value t' = value t.
Proof.
  intros Hc. unfold sameValueAt. split.
  - destruct (g !! p ≫= (ts !!.)) as [t'|] eqn:Hl; [|done].
    apply (lookup_grid_Some _ _ _ _ Hc) in Hl as [Ht' Hpos].
    intros Hv%Z.eqb_eq. by exists t'.
  - intros (t' & Ht' & Hpos & Hv).
    rewrite (proj2 (lookup_grid_Some ts g p t' Hc)) by done. by apply Z.eqb_eq.
Qed.

Lemma canAnyMove_spec ts :
  WfBoard ts →
  ∃ b, canAnyMove ts = Some b ∧ (b = true ↔ hasEmptyCell ts ∨ hasEqualNeighbours ts).
Proof.
  intros Hwf. unfold canAnyMove.
  destruct (emptyCells ts) as [|p0 rest] eqn:Hempty.
  - destruct (fillGrid_spec ts (wf_range _ Hwf) (wf_cells _ Hwf) 0%nat ∅) as (g & Hfill & _).
    pose proof (fillGrid_consistent ts g Hwf Hfill) as Hc.
    exists (existsb (mergeableAt ts g) allCells). split; [by rewrite Hfill|].
    rewrite existsb_exists. split.
    + intros (p & Hp & Hm). right. unfold mergeableAt in Hm.
      destruct (g !! p ≫= (ts !!.)) as [t|] eqn:Hl; [|done].
      apply (lookup_grid_Some _ _ _ _ Hc) in Hl as [Ht Hpos].
      apply orb_true_iff in Hm as [Hm|Hm]; apply andb_true_iff in Hm as [_ Hm];
        apply (sameValueAt_true _ _ _ _ Hc) in Hm as (t' & Ht' & Hpos' & Hv);
        exists t, t'; repeat split; try done;
        unfold adjacent; rewrite Hpos, Hpos'; simpl; lia.
    + intros [(p & Hr & Hfree)|(t1 & t2 & Ht1 & Ht2 & Hadj & Hv)].
      { assert (Hin : p ∈ emptyCells ts) by (by apply elem_of_emptyCells).
        rewrite Hempty in Hin. by apply elem_of_nil in Hin. }
      pose proof (proj1 (Forall_forall _ _) (wf_range _ Hwf) _ Ht1) as Hr1.
      pose proof (proj1 (Forall_forall _ _) (wf_range _ Hwf) _ Ht2) as Hr2.
      assert (Hcases : pos t2 = ((pos t1).1 + 1, (pos t1).2)
                     ∨ pos t2 = ((pos t1).1, (pos t1).2 + 1)
                     ∨ pos t1 = ((pos t2).1 + 1, (pos t2).2)
                     ∨ pos t1 = ((pos t2).1, (pos t2).2 + 1)).
      { unfold adjacent in Hadj. destruct (pos t1) as [r1 c1], (pos t2) as [r2 c2].
        simpl in *.
        assert ((r2 = r1 + 1 ∧ c2 = c1) ∨ (r2 = r1 ∧ c2 = c1 + 1)
              ∨ (r1 = r2 + 1 ∧ c1 = c2) ∨ (r1 = r2 ∧ c1 = c2 + 1)) by lia.
        intuition congruence. }
      unfold inRange, SIZE in Hr1, Hr2.
      destruct Hcases as [Hq|[Hq|[Hq|Hq]]].
      * exists (pos t1). split; [by apply list_elem_of_In, elem_of_allCells|].
        unfold mergeableAt.
        rewrite (proj2 (lookup_grid_Some ts g (pos t1) t1 Hc)) by done.
        apply orb_true_iff. left. apply andb_true_iff. split.
        -- rewrite Hq in Hr2. unfold SIZE. apply Z.ltb_lt. simpl in *. lia.
        -- apply (sameValueAt_true _ _ _ _ Hc). by exists t2.
      * exists (pos t1). split; [by apply list_elem_of_In, elem_of_allCells|].
        unfold mergeableAt.
        rewrite (proj2 (lookup_grid_Some ts g (pos t1) t1 Hc)) by done.
        apply orb_true_iff. right. apply andb_true_iff. split.
        -- rewrite Hq in Hr2. unfold SIZE. apply Z.ltb_lt. simpl in *. lia.
        -- apply (sameValueAt_true _ _ _ _ Hc). by exists t2.
      * exists (pos t2). split; [by apply list_elem_of_In, elem_of_allCells|].
        unfold mergeableAt.
        rewrite (proj2 (lookup_grid_Some ts g (pos t2) t2 Hc)) by done.
        apply orb_true_iff. left. apply andb_true_iff. split.
        -- rewrite Hq in Hr1. unfold SIZE. apply Z.ltb_lt. simpl in *. lia.
        -- apply (sameValueAt_true _ _ _ _ Hc). by exists t1.
      * exists (pos t2). split; [by apply list_elem_of_In, elem_of_allCells|].
        unfold mergeableAt.
        rewrite (proj2 (lookup_grid_Some ts g (pos t2) t2 Hc)) by done.
        apply orb_true_iff. right. apply andb_true_iff. split.
        -- rewrite Hq in Hr1. unfold SIZE. apply Z.ltb_lt. simpl in *. lia.
        -- apply (sameValueAt_true _ _ _ _ Hc). by exists t1.
  - exists true. split; [done|]. split; [|done]. intros _. left.
    exists p0. apply elem_of_emptyCells. rewrite Hempty. left.
Qed.

(** ** The spawner *)

Lemma Qfloor_iff (x : Q) (k : Z) :
  Qfloor x = k ↔ (inject_Z k <= x)%Q ∧ (x < inject_Z (k + 1))%Q.
Proof.
  split.
  - intros <-. split; [apply Qfloor_le|apply Qlt_floor].
  - intros [Hlo Hhi].
    apply Qfloor_resp_le in Hlo. rewrite Qfloor_Z in Hlo.
    pose proof (Qle_lt_trans _ _ _ (Qfloor_le x) Hhi) as Hlt.
    rewrite <- Zlt_Qlt in Hlt. lia.
Qed.

Lemma randomIndex_range u n :
  unitDraw u → (0 < n)%nat → 0 ≤ randomIndex u n < Z.of_nat n.
Proof.
  intros [Hlo Hhi] Hn. unfold randomIndex.
  assert (HN : (0 < inject_Z (Z.of_nat n))%Q).
  { change 0%Q with (inject_Z 0). rewrite <- Zlt_Qlt. lia. }
  split.
  - change 0 with (Qfloor (inject_Z 0)) at 1. apply Qfloor_resp_le.
    apply Qmult_le_0_compat; [done|]. by apply Qlt_le_weak.
  - assert (Hlt : (u * inject_Z (Z.of_nat n) < inject_Z (Z.of_nat n))%Q).
    { rewrite <- (Qmult_1_l (inject_Z (Z.of_nat n))) at 2.
      by apply Qmult_lt_compat_r. }
    pose proof (Qle_lt_trans _ _ _ (Qfloor_le _) Hlt) as Hlt'.
    by rewrite <- Zlt_Qlt in Hlt'.
Qed.

Lemma randomValue_cases v : randomValue v = 2 ∨ randomValue v = 4.
Proof. unfold randomValue. destruct (Qlt_le_dec v (1 # 10)); auto. Qed.

Lemma randomSpawn_full ts seq u v :
  emptyCells ts = [] → randomSpawn ts seq u v = Some (ts, seq).
Proof. unfold randomSpawn. by intros ->. Qed.

Lemma randomSpawn_free ts seq u v :
  unitDraw u → emptyCells ts ≠ [] →
  ∃ p, cellAt (emptyCells ts) (randomIndex u (length (emptyCells ts))) = Some p ∧
    p ∈ emptyCells ts ∧
    randomSpawn ts seq u v =
      Some (ts ++ [mkTile seq p.1 p.2 (randomValue v) true false], seq + 1).
Proof.
  intros Hu Hne. unfold randomSpawn, cellAt.
  destruct (emptyCells ts) as [|p0 rest] eqn:He; [done|].
  pose proof (randomIndex_range u (length (p0 :: rest)) Hu) as Hidx.
  specialize (Hidx ltac:(simpl; lia)).
  set (i := randomIndex u (length (p0 :: rest))) in *.
  destruct (i <? 0) eqn:Hneg; [apply Z.ltb_lt in Hneg; lia|].
  destruct (lookup_lt_is_Some_2 (p0 :: rest) (Z.to_nat i)) as [p Hp]; [lia|].
  exists p. rewrite Hp. simpl. repeat split. by eapply list_elem_of_lookup_2.
Qed.

Lemma spawn_wf ts seq p v :
  WfBoard ts → p ∈ emptyCells ts → Forall (λ t, id t < seq) ts →
  WfBoard (ts ++ [spawnedTile seq p v]).
Proof.
  intros [Hr Hc Hi] Hp Hfresh. apply elem_of_emptyCells in Hp as [Hrp Hfree].
  constructor.
  - apply Forall_app. split; [done|]. apply Forall_singleton. by destruct p.
  - rewrite fmap_app. apply NoDup_app. split; [done|]. split; [|apply NoDup_singleton].
    intros q Hq Hq'. apply list_elem_of_fmap in Hq as (t & -> & Ht).
    apply list_elem_of_singleton in Hq'. apply (Hfree t Ht).
    rewrite Hq'. by destruct p.
  - rewrite fmap_app. apply NoDup_app. split; [done|]. split; [|apply NoDup_singleton].
    intros i Hi' Hi''. apply list_elem_of_fmap in Hi' as (t & -> & Ht).
    apply list_elem_of_singleton in Hi''. simpl in Hi''.
    pose proof (proj1 (Forall_forall _ _) Hfresh _ Ht). simpl in *. lia.
Qed.

(** ** One move, step by step *)

Lemma filtered_ids ms seq :
  Forall (λ i, i < seq) (id <$> store ms) → Forall (λ t, id t < seq) (filtered ms).
Proof.
  intros Hall. apply Forall_forall. intros t Ht.
  apply list_elem_of_filter in Ht as [_ Ht].
  apply (proj1 (Forall_forall _ _) Hall). apply list_elem_of_fmap. by exists t.
Qed.

Lemma filtered_pow2 ms :
  Forall (λ t, pow2 (value t)) (store ms) → Forall (λ t, pow2 (value t)) (filtered ms).
Proof.
  intros Hall. apply Forall_forall. intros t Ht.
  apply list_elem_of_filter in Ht as [_ Ht].
  by apply (proj1 (Forall_forall _ _) Hall).
Qed.

Lemma filtered_init st g mv gain : filtered (mkMS st g mv gain ∅) = st.
Proof.
  unfold filtered. simpl. induction st as [|t st IH]; [done|].
  rewrite filter_cons_True by set_solver. by rewrite IH.
Qed.

Lemma Inv_WfState w : Inv w → WfState w.
Proof. intros [Hwf Hfr _ _ _]. by constructor. Qed.

(** One move of a state whose board is well formed, whatever its flags. *)
Lemma move_sound_wf w dir u v :
  WfState w → unitDraw u →
  ∃ g ms nextTiles seq' can,
    let ms0 := mkMS (clearFlags <$> tiles (game w)) g false 0 ∅ in
    let won' := won (game w) || existsb (λ t, TARGET <=? value t) (filtered ms) in
    let score' := score (game w) + scoreGain ms in
    initMS (tiles (game w)) = Some ms0 ∧
    resolve (tiles (game w)) dir = Some ms ∧
    Consistent ms0 ∧ Consistent ms ∧
    rtc (TileStep (concat (lines dir))) ms0 ms ∧
    (moved ms = true → ∃ p, p ∈ emptyCells (filtered ms) ∧
       cellAt (emptyCells (filtered ms))
              (randomIndex u (length (emptyCells (filtered ms)))) = Some p ∧
       nextTiles = filtered ms ++ [spawnedTile (idSeq w) p v] ∧
       seq' = idSeq w + 1) ∧
    (moved ms = false →
       ms = ms0 ∧ nextTiles = clearFlags <$> tiles (game w) ∧ seq' = idSeq w) ∧
    WfBoard nextTiles ∧
    Forall (λ t, id t < seq') nextTiles ∧
    (Forall (λ t, pow2 (value t)) (tiles (game w)) →
     Forall (λ t, pow2 (value t)) nextTiles) ∧
    canAnyMove nextTiles = Some can ∧
    move w dir u v =
      Some (mkWorld seq' (mkState nextTiles score' (Z.max (best (game w)) score')
                                  won' (negb won' && negb can))).
Proof.
  intros HI Hu.
  destruct (resolve_sound _ dir (ws_wf _ HI)) as (g & ms & Hinit & Hres & Hc0 & Hc & Hsteps).
  pose proof (Steps_effect _ _ _ Hsteps Hc0) as Heff.
  pose proof (Steps_ids _ _ _ Hsteps) as Hids. simpl in Hids.
  rewrite id_clearFlags in Hids.
  assert (Hfresh : Forall (λ t, id t < idSeq w) (filtered ms)).
  { apply filtered_ids. rewrite Hids. apply Forall_fmap. apply (ws_fresh _ HI). }
  assert (Hp2 : Forall (λ t, pow2 (value t)) (tiles (game w)) →
                Forall (λ t, pow2 (value t)) (filtered ms)).
  { intros Hpw. apply filtered_pow2. eapply Steps_pow2; [exact Hsteps|]. simpl.
    by apply Forall_fmap. }
  assert (Hspawn : ∃ nextTiles seq',
    (if moved ms then randomSpawn (filtered ms) (idSeq w) u v
     else Some (filtered ms, idSeq w)) = Some (nextTiles, seq') ∧
    (moved ms = true → ∃ p, p ∈ emptyCells (filtered ms) ∧
       cellAt (emptyCells (filtered ms))
              (randomIndex u (length (emptyCells (filtered ms)))) = Some p ∧
       nextTiles = filtered ms ++ [spawnedTile (idSeq w) p v] ∧
       seq' = idSeq w + 1) ∧
    (moved ms = false →
       ms = mkMS (clearFlags <$> tiles (game w)) g false 0 ∅ ∧
       nextTiles = clearFlags <$> tiles (game w) ∧ seq' = idSeq w) ∧
    WfBoard nextTiles ∧ Forall (λ t, id t < seq') nextTiles ∧
    (Forall (λ t, pow2 (value t)) (tiles (game w)) →
     Forall (λ t, pow2 (value t)) nextTiles)).
  { destruct (moved ms) eqn:Hmv.
    - destruct Heff as [->|[_ (p & Hrp & Hgp)]]; [done|].
      pose proof (emptyCells_of_free _ _ Hc Hrp Hgp) as Hin.
      destruct (randomSpawn_free (filtered ms) (idSeq w) u v Hu) as (q & Hq & Hqin & Hsp).
      { intros Hnil. rewrite Hnil in Hin. by apply elem_of_nil in Hin. }
      eexists _, _. split; [exact Hsp|]. split; [|split; [done|]].
      + intros _. by exists q.
      + split; [|split].
        * apply spawn_wf; [by apply filtered_wf|done..].
        * apply Forall_app. split.
          -- eapply Forall_impl; [exact Hfresh|]. simpl. intros; lia.
          -- apply Forall_singleton. simpl. lia.
        * intros Hpw. apply Forall_app. split; [by apply Hp2|].
          apply Forall_singleton. simpl.
          destruct (randomValue_cases v) as [->| ->];
            [exists 1|exists 2]; split; done || lia.
    - destruct Heff as [->|[? _]]; [|done].
      rewrite filtered_init.
      eexists _, _. split; [done|]. split; [done|]. split; [done|].
      split; [|split].
      + apply WfBoard_clearFlags, (ws_wf _ HI).
      + apply Forall_fmap. apply (ws_fresh _ HI).
      + intros Hpw. by apply Forall_fmap. }
  destruct Hspawn as (nextTiles & seq' & Hsp & Hmt & Hmf & Hwf' & Hfr' & Hp2').
  destruct (canAnyMove_spec nextTiles Hwf') as (can & Hcan & _).
  exists g, ms, nextTiles, seq', can. cbv zeta.
  repeat (split; [done|]).
  unfold move. rewrite Hres. cbn [mbind option_bind]. rewrite Hsp. cbn [mbind option_bind].
  rewrite Hcan.
  by destruct (won (game w) || existsb (λ t, TARGET <=? value t) (filtered ms)).
Qed.

Lemma move_sound w dir u v :
  Inv w → unitDraw u →
  ∃ g ms nextTiles seq' can,
    let ms0 := mkMS (clearFlags <$> tiles (game w)) g false 0 ∅ in
    let won' := won (game w) || existsb (λ t, TARGET <=? value t) (filtered ms) in
    let score' := score (game w) + scoreGain ms in
    initMS (tiles (game w)) = Some ms0 ∧
    resolve (tiles (game w)) dir = Some ms ∧
    Consistent ms0 ∧ Consistent ms ∧
    rtc (TileStep (concat (lines dir))) ms0 ms ∧
    (moved ms = true → ∃ p, p ∈ emptyCells (filtered ms) ∧
       cellAt (emptyCells (filtered ms))
              (randomIndex u (length (emptyCells (filtered ms)))) = Some p ∧
       nextTiles = filtered ms ++ [spawnedTile (idSeq w) p v] ∧
       seq' = idSeq w + 1) ∧
    (moved ms = false →
       ms = ms0 ∧ nextTiles = clearFlags <$> tiles (game w) ∧ seq' = idSeq w) ∧
    WfBoard nextTiles ∧
    Forall (λ t, id t < seq') nextTiles ∧
    Forall (λ t, pow2 (value t)) nextTiles ∧
    canAnyMove nextTiles = Some can ∧
    move w dir u v =
      Some (mkWorld seq' (mkState nextTiles score' (Z.max (best (game w)) score')
                                  won' (negb won' && negb can))).
Proof.
  intros HI Hu.
  destruct (move_sound_wf w dir u v (Inv_WfState _ HI) Hu)
    as (g & ms & nextTiles & seq' & can & Hinit & Hres & Hc0 & Hc & Hsteps
        & Hmt & Hmf & Hwf & Hfr & Hp2 & Hcan & Hmove).
  exists g, ms, nextTiles, seq', can. cbv zeta.
  repeat (split; [done|]). split; [|done]. apply Hp2, (inv_pow2 _ HI).
Qed.

Lemma existsb_target (l : list Tile) :
  existsb (λ t, TARGET <=? value t) l = true ↔ Exists (λ t, TARGET ≤ value t) l.
Proof.
  rewrite existsb_exists, Exists_exists. split.
  - intros (t & Ht & Hv). exists t. split; [by apply list_elem_of_In|by apply Z.leb_le].
  - intros (t & Ht & Hv). exists t. split; [by apply list_elem_of_In|by apply Z.leb_le].
Qed.

Lemma spawned_below_target seq p v : ¬ TARGET ≤ value (spawnedTile seq p v).
Proof. unfold TARGET. simpl. destruct (randomValue_cases v) as [->| ->]; lia. Qed.

Lemma Exists_clearFlags (P : Z → Prop) ts :
  Exists (λ t, P (value t)) (clearFlags <$> ts) ↔ Exists (λ t, P (value t)) ts.
Proof. rewrite Exists_fmap. done. Qed.

(** Every move of a well-formed state returns a well-formed state. *)
Lemma move_Inv w dir u v :
  Inv w → unitDraw u → ∃ w', move w dir u v = Some w' ∧ Inv w'.
Proof.
  intros HI Hu.
  destruct (move_sound w dir u v HI Hu)
    as (g & ms & nextTiles & seq' & can & Hinit & Hres & Hc0 & Hc & Hsteps
        & Hmt & Hmf & Hwf & Hfr & Hp2 & Hcan & Hmove).
  eexists. split; [exact Hmove|]. constructor; simpl; try done.
  - intros Hex. apply orb_true_iff. right. apply existsb_target.
    destruct (moved ms) eqn:Hmv.
    + destruct (Hmt eq_refl) as (p & _ & _ & -> & _).
      apply Exists_app in Hex as [Hex|Hex]; [done|].
      apply Exists_cons in Hex as [Hex|Hex]; [|by apply Exists_nil in Hex].
      by apply spawned_below_target in Hex.
    + destruct (Hmf eq_refl) as (-> & -> & _). by rewrite filtered_init.
  - rewrite Hcan.
    destruct (won (game w) || existsb (λ t, TARGET <=? value t) (filtered ms)), can;
      simpl; intuition congruence.
Qed.

(** Every move of a state whose board is well formed returns such a
    state. *)
Lemma move_WfState w dir u v :
  WfState w → unitDraw u → ∃ w', move w dir u v = Some w' ∧ WfState w'.
Proof.
  intros HW Hu.
  destruct (move_sound_wf w dir u v HW Hu)
    as (g & ms & nextTiles & seq' & can & _ & _ & _ & _ & _
        & _ & _ & Hwf & Hfr & _ & _ & Hmove).
  eexists. split; [exact Hmove|]. by constructor.
Qed.

Lemma WfBoard_nil : WfBoard [].
Proof. constructor; simpl; constructor. Qed.

Lemma newGame_sound w u1 v1 u2 v2 :
  unitDraw u1 → unitDraw u2 →
  ∃ p1 p2, p1 ∈ emptyCells [] ∧ p2 ∈ emptyCells [spawnedTile 1 p1 v1] ∧
    newGame w u1 v1 u2 v2 =
      Some (mkWorld 3 (mkState [spawnedTile 1 p1 v1; spawnedTile 2 p2 v2] 0
                               (best (game w)) false false)).
Proof.
  intros Hu1 Hu2. unfold newGame.
  destruct (randomSpawn_free [] 1 u1 v1 Hu1) as (p1 & _ & Hp1 & ->).
  { apply emptyCells_short. simpl. lia. }
  destruct (randomSpawn_free [spawnedTile 1 p1 v1] 2 u2 v2 Hu2) as (p2 & _ & Hp2 & Hsp).
  { apply emptyCells_short. simpl. lia. }
  exists p1, p2. split; [done|]. split; [done|].
  cbn [mbind option_bind app]. change (1 + 1) with 2.
  unfold spawnedTile in Hsp. rewrite Hsp. done.
Qed.

Lemma canAnyMove_free ts : emptyCells ts ≠ [] → canAnyMove ts = Some true.
Proof. unfold canAnyMove. by destruct (emptyCells ts). Qed.

Lemma newGame_Inv w u1 v1 u2 v2 :
  unitDraw u1 → unitDraw u2 → ∃ w', newGame w u1 v1 u2 v2 = Some w' ∧ Inv w'.
Proof.
  intros Hu1 Hu2.
  destruct (newGame_sound w u1 v1 u2 v2 Hu1 Hu2) as (p1 & p2 & Hp1 & Hp2 & Hnew).
  eexists. split; [exact Hnew|].
  assert (Hwf : WfBoard [spawnedTile 1 p1 v1; spawnedTile 2 p2 v2]).
  { apply (spawn_wf [spawnedTile 1 p1 v1] 2 p2 v2); [|done|].
    - by apply (spawn_wf [] 1 p1 v1); [apply WfBoard_nil| |constructor].
    - repeat constructor. }
  assert (Hp2' : ∀ seq p v, pow2 (value (spawnedTile seq p v))).
  { intros seq p v. simpl. destruct (randomValue_cases v) as [->| ->];
      [exists 1|exists 2]; split; done || lia. }
  constructor; cbn [game tiles won over idSeq]; try done.
  - repeat constructor; simpl; lia.
  - repeat constructor; apply Hp2'.
  - intros Hex. apply Exists_cons in Hex as [Hex|Hex];
      [by apply spawned_below_target in Hex|].
    apply Exists_cons in Hex as [Hex|Hex];
      [by apply spawned_below_target in Hex|by apply Exists_nil in Hex].
  - split; [done|]. intros [_ Hcan].
    rewrite canAnyMove_free in Hcan; [done|]. apply emptyCells_short. simpl. lia.
Qed.

Lemma loadBest_Inv w b : Inv w → Inv (loadBest w b).
Proof. intros [? ? ? ? ?]. by constructor. Qed.

Lemma initial_Inv : Inv initial.
Proof.
  constructor; simpl; try by constructor.
  - apply WfBoard_nil.
  - intros Hex. by apply Exists_nil in Hex.
  - split; [done|]. by intros [_ ?].
Qed.

(** ** Reachable states *)

Lemma reachable_Inv w : reachable w → Inv w.
Proof.
  induction 1 as [|w b _ IH|w u1 v1 u2 v2 w' _ _ Hu1 Hu2 Hnew|w dir u v w' _ IH Hu Hmove].
  - apply initial_Inv.
  - by apply loadBest_Inv.
  - destruct (newGame_Inv w u1 v1 u2 v2 Hu1 Hu2) as (w'' & Hnew' & HI). congruence.
  - destruct (move_Inv w dir u v IH Hu) as (w'' & Hmove' & HI). congruence.
Qed.

Lemma moves_Inv l : ∀ w, Inv w → drawsOK l → ∃ w', moves w l = Some w' ∧ Inv w'.
Proof.
  induction l as [|[[dir u] v] l IH]; intros w HI Hl.
  - by exists w.
  - apply Forall_cons in Hl as [Hu Hl]. simpl in Hu.
    destruct (move_Inv w dir u v HI Hu) as (w1 & Hmove & HI1).
    destruct (IH w1 HI1 Hl) as (w' & Hmoves & HI').
    exists w'. simpl. rewrite Hmove. done.
Qed.

Lemma moves_WfState l :
  ∀ w, WfState w → drawsOK l → ∃ w', moves w l = Some w' ∧ WfState w'.
Proof.
  induction l as [|[[dir u] v] l IH]; intros w HW Hl.
  - by exists w.
  - apply Forall_cons in Hl as [Hu Hl]. simpl in Hu.
    destruct (move_WfState w dir u v HW Hu) as (w1 & Hmove & HW1).
    destruct (IH w1 HW1 Hl) as (w' & Hmoves & HW').
    exists w'. simpl. rewrite Hmove. done.
Qed.

(** ** One line within the whole resolution *)

Lemma runLines_app l1 l2 ms :
  runLines (l1 ++ l2) ms = runLines l1 ms ≫= runLines l2.
Proof.
  revert ms. induction l1 as [|L l1 IH]; intros ms; [done|]. simpl.
  destruct (processLine L ms) as [ms1|]; [simpl|done]. apply IH.
Qed.

Lemma view_frame C ms ms' (L : list Cell) :
  rtc (TileStep C) ms ms' → Consistent ms → (∀ c, c ∈ L → c ∉ C) →
  cellTile ms' <$> L = cellTile ms <$> L.
Proof.
  intros Hsteps Hc Hdisj. apply list_eq. intros i. rewrite !list_lookup_fmap.
  destruct (L !! i) as [c|] eqn:Hi; [simpl|done]. f_equal.
  eapply Steps_frame; eauto. apply Hdisj. by eapply list_elem_of_lookup_2.
Qed.

Lemma lineValues_view ts (L : list Cell) :
  lineValues ts L = viewValues (tileAt ts <$> L).
Proof. unfold lineValues, viewValues. by rewrite <- list_fmap_compose. Qed.


Lemma view_filtered ms (L : list Cell) :
  Consistent ms → tileAt (filtered ms) <$> L = cellTile ms <$> L.
Proof.
  intros Hc. apply list_fmap_ext. intros i c _. by apply tileAt_filtered.
Qed.

Lemma lineValues_filtered ms (L : list Cell) :
  Consistent ms → lineValues (filtered ms) L = viewValues (cellTile ms <$> L).
Proof. intros Hc. by rewrite lineValues_view, view_filtered. Qed.

Lemma lineValues_init ts g (L : list Cell) :
  Consistent (mkMS (clearFlags <$> ts) g false 0 ∅) →
  viewValues (cellTile (mkMS (clearFlags <$> ts) g false 0 ∅) <$> L)
  = lineValues ts L.
Proof.
  intros Hc. rewrite <- (lineValues_filtered _ L Hc), filtered_init.
  unfold lineValues. apply list_fmap_ext. intros i c _. apply valueAt_clearFlags.
Qed.

Lemma view_init_unmerged ts g (L : list Cell) :
  Forall (λ o : option Tile, ∀ t, o = Some t → merged t = false)
         (cellTile (mkMS (clearFlags <$> ts) g false 0 ∅) <$> L).
Proof.
  apply Forall_fmap, Forall_forall. intros c _ t Ht. unfold cellTile in Ht. simpl in Ht.
  destruct (g !! c) as [k|]; [simpl in Ht|done].
  rewrite list_lookup_fmap in Ht. by destruct (ts !! k); simplify_eq/=.
Qed.

(** The resolution of a well-formed board, seen from one of its lines [L]:
    the lines before [L] and after [L] leave the cells of [L] alone, and
    the loop body turns the contents of [L] into what [lineRun] computes. *)
Lemma resolve_line ts dir pre L post :
  WfBoard ts → lines dir = pre ++ L :: post →
  ∃ ms0 ms1 ms2 ms view0,
    initMS ts = Some ms0 ∧ runLines pre ms0 = Some ms1 ∧
    processLine L ms1 = Some ms2 ∧ runLines post ms2 = Some ms ∧
    resolve ts dir = Some ms ∧
    viewValues view0 = lineValues ts L ∧
    Forall (λ o : option Tile, ∀ t, o = Some t → merged t = false) view0 ∧
    let a := lineRun L (mkLS view0 0 (scoreGain ms1) (moved ms1)) (seq 0 (length L)) in
    tileAt (filtered ms) <$> L = lview a ∧
    scoreGain ms2 = lgain a ∧
    (lmoved a = true → moved ms = true).
Proof.
  intros Hwf Hlines.
  pose proof (lines_wf dir) as Hall. pose proof (lines_disjoint dir) as Hdisj.
  rewrite Hlines in Hall, Hdisj.
  apply Forall_app in Hall as [Hpre Hall]. apply Forall_cons in Hall as [[Hnd Hr] Hpost].
  rewrite concat_app, concat_cons in Hdisj.
  apply NoDup_app in Hdisj as (_ & Hd1 & Hdisj). apply NoDup_app in Hdisj as (_ & Hd2 & _).
  destruct (initMS_sound ts Hwf) as (g & Hinit & Hc0).
  set (ms0 := mkMS (clearFlags <$> ts) g false 0 ∅) in *.
  destruct (runLines_sound pre Hpre ms0 Hc0) as (ms1 & Hrun1 & Hsteps1).
  pose proof (Steps_consistent _ _ _ Hsteps1 Hc0) as Hc1.
  destruct (processLine_lineRun L Hnd Hr ms1 Hc1) as (ms2 & Hrun2 & Hview & Hgain & Hmoved).
  destruct (processLine_sound L Hnd Hr ms1 Hc1) as (ms2' & Hrun2' & Hsteps2).
  assert (ms2' = ms2) as -> by congruence.
  pose proof (Steps_consistent _ _ _ Hsteps2 Hc1) as Hc2.
  destruct (runLines_sound post Hpost ms2 Hc2) as (ms & Hrun3 & Hsteps3).
  pose proof (Steps_consistent _ _ _ Hsteps3 Hc2) as Hc.
  assert (Hv1 : cellTile ms1 <$> L = cellTile ms0 <$> L).
  { eapply view_frame; eauto. intros c Hc' Hin. apply (Hd1 c); set_solver. }
  assert (Hv3 : cellTile ms <$> L = cellTile ms2 <$> L).
  { eapply view_frame; eauto. }
  exists ms0, ms1, ms2, ms, (cellTile ms0 <$> L).
  split; [done|]. split; [done|]. split; [done|]. split; [done|]. split.
  { unfold resolve. rewrite Hinit, Hlines. cbn [mbind option_bind].
    rewrite runLines_app, Hrun1. cbn [mbind option_bind runLines].
    by rewrite Hrun2. }
  split; [by apply lineValues_init|]. split; [apply view_init_unmerged|].
  cbv zeta. rewrite <- Hv1. split; [|split; [done|]].
  - by rewrite view_filtered, Hv3, Hview.
  - intros Hm. eapply Steps_moved; [exact Hsteps3|]. by rewrite Hmoved.
Qed.

(** ** Concrete boards and states *)

Lemma WfBoard_decide ts :
  bool_decide (Forall (λ t, inRange (pos t)) ts) = true →
  bool_decide (NoDup (pos <$> ts)) = true →
  bool_decide (NoDup (id <$> ts)) = true → WfBoard ts.
Proof.
  intros H1%bool_decide_eq_true H2%bool_decide_eq_true H3%bool_decide_eq_true.
  by constructor.
Qed.

Lemma pow2b_pow2 v : pow2b v = true → pow2 v.
Proof.
  unfold pow2b. intros [Hle Heq]%andb_true_iff.
  apply Z.leb_le in Hle. apply Z.eqb_eq in Heq.
  exists (Z.log2 v). split; [|done].
  change 1 with (Z.log2 2). by apply Z.log2_le_mono.
Qed.

Lemma Inv_check w can :
  bool_decide (Forall (λ t, inRange (pos t)) (tiles (game w))) = true →
  bool_decide (NoDup (pos <$> tiles (game w))) = true →
  bool_decide (NoDup (id <$> tiles (game w))) = true →
  forallb (λ t, id t <? idSeq w) (tiles (game w)) = true →
  forallb (λ t, pow2b (value t)) (tiles (game w)) = true →
  (existsb (λ t, TARGET <=? value t) (tiles (game w)) = true → won (game w) = true) →
  canAnyMove (tiles (game w)) = Some can →
  over (game w) = negb (won (game w)) && negb can →
  Inv w.
Proof.
  intros H1 H2 H3 H4 H5 H6 H7 H8. constructor.
  - by apply WfBoard_decide.
  - apply Forall_forall. intros t Ht.
    apply Z.ltb_lt. apply (proj1 (forallb_forall _ _) H4). by apply list_elem_of_In.
  - apply Forall_forall. intros t Ht. apply pow2b_pow2.
    apply (proj1 (forallb_forall _ _) H5). by apply list_elem_of_In.
  - intros Hex. apply H6. by apply existsb_target.
  - rewrite H8, H7. destruct (won (game w)), can; simpl; intuition congruence.
Qed.

Lemma WfState_check w :
  bool_decide (Forall (λ t, inRange (pos t)) (tiles (game w))) = true →
  bool_decide (NoDup (pos <$> tiles (game w))) = true →
  bool_decide (NoDup (id <$> tiles (game w))) = true →
  forallb (λ t, id t <? idSeq w) (tiles (game w)) = true →
  WfState w.
Proof.
  intros H1 H2 H3 H4. constructor.
  - by apply WfBoard_decide.
  - apply Forall_forall. intros t Ht.
    apply Z.ltb_lt. apply (proj1 (forallb_forall _ _) H4). by apply list_elem_of_In.
Qed.

(** Proof steps for concrete boards and states: the conditions of a
    well-formed board, those of a well-formed state whose board has an
    empty cell, and the outcome of a resolution, all by evaluation. *)
Ltac check_board := apply WfBoard_decide; reflexivity.
Ltac check_state := apply (Inv_check _ true); done.
Ltac check_wf_state := apply WfState_check; reflexivity.
Ltac by_running := vm_compute; eexists; split; reflexivity.

(** ** Merging along a line *)







Example resolve_2222_left :
  (λ ms, (lineValues (filtered ms) [(0, 0); (0, 1); (0, 2); (0, 3)],
          scoreGain ms, moved ms, length (filtered ms)))
    <$> resolve (board [(0, 0, 2); (0, 1, 2); (0, 2, 2); (0, 3, 2)]) left
  = Some ([Some 4; Some 4; None; None], 8, true, 2%nat).
Proof. reflexivity. Qed.

Example resolve_2244_left :
  (λ ms, (lineValues (filtered ms) [(0, 0); (0, 1); (0, 2); (0, 3)],
          scoreGain ms, moved ms, length (filtered ms)))
    <$> resolve (board [(0, 0, 2); (0, 1, 2); (0, 2, 4); (0, 3, 4)]) left
  = Some ([Some 4; Some 8; None; None], 12, true, 2%nat).
Proof. reflexivity. Qed.

(** ** The terminal detector *)

(** C3 (loss detection).  After every move of a state whose board is well
    formed, whatever its flags were before the move, [over] is true
    exactly when [won] is false, no cell of the board is empty and no two
    orthogonally adjacent tiles have the same value; an empty cell or a
    pair of equal neighbours makes [over] false. *)
Theorem loss_detection w dir u v :
  WfState w → unitDraw u →
  ∃ w', move w dir u v = Some w' ∧
    (over (game w') = true ↔
       won (game w') = false ∧ ¬ hasEmptyCell (tiles (game w')) ∧
       ¬ hasEqualNeighbours (tiles (game w'))) ∧
    (hasEmptyCell (tiles (game w')) ∨ hasEqualNeighbours (tiles (game w')) →
       over (game w') = false).
Proof.
  intros HI Hu.
  destruct (move_sound_wf w dir u v HI Hu)
    as (g & ms & nextTiles & seq' & can & _ & _ & _ & _ & _
        & _ & _ & Hwf & _ & _ & Hcan & Hmove).
  destruct (canAnyMove_spec nextTiles Hwf) as (can' & Hcan' & Hspec).
  assert (can' = can) as -> by congruence.
  eexists. split; [exact Hmove|]. cbn [game over won tiles]. split.
  - rewrite andb_true_iff, !negb_true_iff. split.
    + intros [Hw Hc]. split; [done|].
      assert (Hno : ¬ (hasEmptyCell nextTiles ∨ hasEqualNeighbours nextTiles))
        by (rewrite <- Hspec; congruence).
      tauto.
    + intros (Hw & Hne & Hnn). split; [done|].
      destruct can; [|done]. destruct (proj1 Hspec eq_refl); tauto.
  - intros Hor. apply Hspec in Hor as ->. apply andb_false_r.
Qed.

Lemma loss_detection_witness :
  let w := mkWorld 17 (mkState
     (board [(0, 1, 2); (0, 2, 4); (0, 3, 2);
             (1, 0, 4); (1, 1, 2); (1, 2, 4); (1, 3, 2);
             (2, 0, 2); (2, 1, 4); (2, 2, 2); (2, 3, 4);
             (3, 0, 4); (3, 1, 2); (3, 2, 4); (3, 3, 8)]) 40 40 false false) in
  WfState w ∧ unitDraw 0 ∧
  ∃ w', move w left 0 0 = Some w' ∧
    (over (game w') = true ↔
       won (game w') = false ∧ ¬ hasEmptyCell (tiles (game w')) ∧
       ¬ hasEqualNeighbours (tiles (game w'))) ∧
    (hasEmptyCell (tiles (game w')) ∨ hasEqualNeighbours (tiles (game w')) →
       over (game w') = false).
Proof.
  intros w.
  assert (HI : WfState w) by check_wf_state.
  assert (Hu : unitDraw 0) by done.
  split; [exact HI|]. split; [exact Hu|].
  exact (loss_detection w left 0 0 HI Hu).
Defined.

(** The move of that state fills the board and ends the game. *)
Example move_to_loss :
  let w := mkWorld 17 (mkState
     (board [(0, 1, 2); (0, 2, 4); (0, 3, 2);
             (1, 0, 4); (1, 1, 2); (1, 2, 4); (1, 3, 2);
             (2, 0, 2); (2, 1, 4); (2, 2, 2); (2, 3, 4);
             (3, 0, 4); (3, 1, 2); (3, 2, 4); (3, 3, 8)]) 40 40 false false) in
  (λ w', (over (game w'), length (tiles (game w')), lineValues (tiles (game w'))
            [(0, 0); (0, 1); (0, 2); (0, 3)])) <$> move w left 0 0
  = Some (true, 16%nat, [Some 2; Some 4; Some 2; Some 4]).
Proof. reflexivity. Qed.

(** The flag is computed from the board that the move leaves, not carried
    over: a state that wrongly has [over] set, with room on its board,
    comes back with [over] cleared, even from a move without effect. *)
Example move_recomputes_over :
  let w := mkWorld 3 (mkState (board [(0, 0, 2); (1, 0, 4)]) 0 0 false true) in
  (λ w', (over (game w'), length (tiles (game w')))) <$> move w left 0 0
  = Some (false, 2%nat).
Proof. reflexivity. Qed.

(** ** Moves without effect *)

Lemma fillGrid_clearFlags ts : ∀ k g, fillGrid k (clearFlags <$> ts) g = fillGrid k ts g.
Proof.
  induction ts as [|t ts IH]; intros k g; [done|]. simpl.
  destruct (grid_set g (row t) (col t) k); [simpl|done]. apply IH.
Qed.

Lemma resolve_clearFlags ts dir : resolve (clearFlags <$> ts) dir = resolve ts dir.
Proof. unfold resolve, initMS. by rewrite clearFlags_idemp. Qed.

Lemma existsb_ext' {A} (f g : A → bool) l :
  (∀ x, f x = g x) → existsb f l = existsb g l.
Proof. intros Hfg. induction l as [|x l IH]; [done|]. simpl. by rewrite Hfg, IH. Qed.

Lemma sameValueAt_clearFlags ts g p t :
  sameValueAt (clearFlags <$> ts) g p (clearFlags t) = sameValueAt ts g p t.
Proof.
  unfold sameValueAt. destruct (g !! p) as [k|]; [simpl|done].
  rewrite list_lookup_fmap. by destruct (ts !! k).
Qed.

Lemma canAnyMove_clearFlags ts : canAnyMove (clearFlags <$> ts) = canAnyMove ts.
Proof.
  unfold canAnyMove. rewrite emptyCells_clearFlags, fillGrid_clearFlags.
  destruct (emptyCells ts); [|done].
  destruct (fillGrid 0 ts ∅) as [g|]; [cbn [mbind option_bind]|done]. f_equal.
  apply existsb_ext'. intros p. unfold mergeableAt.
  destruct (g !! p) as [k|]; [simpl|done]. rewrite list_lookup_fmap.
  destruct (ts !! k) as [t|]; [simpl|done].
  by rewrite !sameValueAt_clearFlags.
Qed.

(** What a move returns when the resolution reports [moved = false];
    the draws are not used. *)
Lemma move_noop w dir u v ms :
  Inv w → resolve (tiles (game w)) dir = Some ms → moved ms = false →
  ∃ can, canAnyMove (tiles (game w)) = Some can ∧
    filtered ms = clearFlags <$> tiles (game w) ∧ scoreGain ms = 0 ∧
    move w dir u v =
      Some (mkWorld (idSeq w)
              (mkState (clearFlags <$> tiles (game w)) (score (game w))
                       (Z.max (best (game w)) (score (game w))) (won (game w))
                       (negb (won (game w)) && negb can))).
Proof.
  intros HI Hres Hmv.
  destruct (resolve_sound _ dir (inv_wf _ HI)) as (g & ms' & _ & Hres' & Hc0 & _ & Hsteps).
  assert (ms' = ms) as -> by congruence.
  destruct (Steps_effect _ _ _ Hsteps Hc0) as [->|[Hmv' _]]; [|congruence].
  destruct (canAnyMove_spec _ (inv_wf _ HI)) as (can & Hcan & _).
  exists can. rewrite filtered_init. repeat (split; [done|]).
  unfold move. rewrite Hres. cbn [mbind option_bind moved scoreGain].
  rewrite filtered_init, canAnyMove_clearFlags, Hcan, Z.add_0_r.
  assert (Hwon : won (game w) || existsb (λ t, TARGET <=? value t)
                                   (clearFlags <$> tiles (game w)) = won (game w)).
  { destruct (won (game w)) eqn:Hw; [done|]. simpl.
    destruct (existsb _ _) eqn:Hex; [|done].
    apply existsb_target in Hex.
    apply (proj1 (Exists_clearFlags (λ x, TARGET ≤ x) _)) in Hex.
    pose proof (inv_won _ HI Hex). congruence. }
  rewrite Hwon. by destruct (won (game w)).
Qed.

(** C5 (no-op detection).  When the resolution of a move of a well-formed
    state reports [moved = false], the move returns a state with the same
    tiles at the same positions with the same values (only the animation
    flags are cleared), no tile is spawned and the identifier counter is
    not advanced, the score is unchanged, and [over] keeps its value: such
    a move cannot end the game. *)
Theorem noop_detection w dir u v ms :
  Inv w → resolve (tiles (game w)) dir = Some ms → moved ms = false →
  ∃ w', move w dir u v = Some w' ∧
    tiles (game w') = clearFlags <$> tiles (game w) ∧
    Forall2 (λ t t', id t' = id t ∧ pos t' = pos t ∧ value t' = value t)
            (tiles (game w)) (tiles (game w')) ∧
    idSeq w' = idSeq w ∧ score (game w') = score (game w) ∧
    over (game w') = over (game w).
Proof.
  intros HI Hres Hmv.
  destruct (move_noop w dir u v ms HI Hres Hmv) as (can & Hcan & _ & _ & Hmove).
  eexists. split; [exact Hmove|]. simpl. repeat split.
  - apply Forall2_fmap_r, Forall_Forall2_diag, Forall_forall. by intros [].
  - pose proof (inv_over _ HI) as Hover. rewrite Hcan in Hover.
    destruct (over (game w)), (won (game w)), can; simpl; intuition congruence.
Qed.

Lemma noop_detection_witness :
  let w := mkWorld 9 (mkState
     (board [(0, 0, 2); (0, 1, 4); (0, 2, 8); (0, 3, 16);
             (1, 0, 4); (1, 1, 2); (2, 0, 2); (3, 0, 4)]) 52 60 false false) in
  Inv w ∧
  (∃ ms, resolve (tiles (game w)) left = Some ms ∧ moved ms = false ∧
   ∃ w', move w left (1 # 2) (1 # 2) = Some w' ∧
    tiles (game w') = clearFlags <$> tiles (game w) ∧
    Forall2 (λ t t', id t' = id t ∧ pos t' = pos t ∧ value t' = value t)
            (tiles (game w)) (tiles (game w')) ∧
    idSeq w' = idSeq w ∧ score (game w') = score (game w) ∧
    over (game w') = over (game w)).
Proof.
  intros w.
  assert (HI : Inv w) by check_state.
  split; [exact HI|].
  assert (Hex : ∃ ms, resolve (tiles (game w)) left = Some ms ∧ moved ms = false).
  { by_running. }
  destruct Hex as (ms & Hres & Hmv).
  exists ms. split; [exact Hres|]. split; [exact Hmv|].
  exact (noop_detection w left (1 # 2) (1 # 2) ms HI Hres Hmv).
Defined.

(** C8 (idempotent no-op).  When the resolution of [move(d)] of a
    well-formed state reports [moved = false], [move(d)] returns a state,
    and [move(d)] of that state returns the very same state, counter
    included, whatever the draws are. *)
Theorem noop_idempotent w dir u v u' v' ms :
  Inv w → resolve (tiles (game w)) dir = Some ms → moved ms = false →
  ∃ w1, move w dir u v = Some w1 ∧ move w1 dir u' v' = Some w1.
Proof.
  intros HI Hres Hmv.
  destruct (move_noop w dir u v ms HI Hres Hmv) as (can & Hcan & _ & _ & Hmove).
  destruct (move_noop w dir 0 v ms HI Hres Hmv) as (can0 & Hcan0 & _ & _ & Hmove0).
  assert (can0 = can) as -> by congruence.
  destruct (move_Inv w dir 0 v HI) as (w1 & Hmove1 & HI1); [done|].
  rewrite Hmove0 in Hmove1. injection Hmove1 as <-.
  eexists. split; [exact Hmove|].
  assert (Hres1 : resolve (clearFlags <$> tiles (game w)) dir = Some ms)
    by (by rewrite resolve_clearFlags).
  destruct (move_noop _ dir u' v' ms HI1 Hres1 Hmv) as (can1 & Hcan1 & _ & _ & Hmove2).
  simpl in Hcan1, Hmove2. rewrite canAnyMove_clearFlags in Hcan1.
  assert (can1 = can) as -> by congruence.
  rewrite Hmove2, clearFlags_idemp. do 3 f_equal. lia.
Qed.

Lemma noop_idempotent_witness :
  let w := mkWorld 9 (mkState
     (board [(0, 0, 2); (0, 1, 4); (0, 2, 8); (0, 3, 16);
             (1, 0, 4); (1, 1, 2); (2, 0, 2); (3, 0, 4)]) 52 40 false false) in
  Inv w ∧
  (∃ ms, resolve (tiles (game w)) left = Some ms ∧ moved ms = false ∧
   ∃ w1, move w left (1 # 2) (1 # 2) = Some w1 ∧ move w1 left (1 # 3) 0 = Some w1).
Proof.
  intros w.
  assert (HI : Inv w) by check_state.
  split; [exact HI|].
  assert (Hex : ∃ ms, resolve (tiles (game w)) left = Some ms ∧ moved ms = false).
  { by_running. }
  destruct Hex as (ms & Hres & Hmv).
  exists ms. split; [exact Hres|]. split; [exact Hmv|].
  exact (noop_idempotent w left (1 # 2) (1 # 2) (1 # 3) 0 ms HI Hres Hmv).
Defined.


(** ** The spawner after an effective move *)

Lemma resolve_free_cell ts dir ms :
  WfBoard ts → resolve ts dir = Some ms → moved ms = true →
  Consistent ms ∧ ∃ p, p ∈ emptyCells (filtered ms).
Proof.
  intros Hwf Hres Hmv.
  destruct (resolve_sound ts dir Hwf) as (g & ms' & _ & Hres' & Hc0 & Hc & Hsteps).
  assert (ms' = ms) as -> by congruence. split; [done|].
  destruct (Steps_effect _ _ _ Hsteps Hc0) as [->|[_ (p & Hrp & Hgp)]]; [done|].
  exists p. by apply emptyCells_of_free.
Qed.

(** C10 (the guard of the spawner).  When the resolution of a move of a
    well-formed board reports [moved = true], the board it leaves (before
    the spawn) has an empty cell, and [randomSpawn] on that board, with any
    draw of the unit interval, does not take its no-empty-cell branch: it
    returns the board with one more tile, on a cell that was empty. *)
Theorem spawn_guard_unreachable ts dir ms seq u v :
  WfBoard ts → resolve ts dir = Some ms → moved ms = true → unitDraw u →
  emptyCells (filtered ms) ≠ [] ∧
  ∃ p, p ∈ emptyCells (filtered ms) ∧
    randomSpawn (filtered ms) seq u v
    = Some (filtered ms ++ [spawnedTile seq p v], seq + 1).
Proof.
  intros Hwf Hres Hmv Hu.
  destruct (resolve_free_cell ts dir ms Hwf Hres Hmv) as (Hc & p & Hp).
  assert (Hne : emptyCells (filtered ms) ≠ []).
  { intros Hnil. rewrite Hnil in Hp. by apply elem_of_nil in Hp. }
  split; [done|].
  destruct (randomSpawn_free (filtered ms) seq u v Hu Hne) as (q & _ & Hq & Hsp).
  by exists q.
Qed.

Lemma spawn_guard_unreachable_witness :
  let ts := board [(0, 0, 2); (0, 1, 4); (0, 2, 4); (0, 3, 8);
                   (1, 0, 4); (1, 1, 2); (1, 2, 8); (1, 3, 16);
                   (2, 0, 2); (2, 1, 4); (2, 2, 16); (2, 3, 32);
                   (3, 0, 4); (3, 1, 2); (3, 2, 32); (3, 3, 64)] in
  WfBoard ts ∧
  ∃ ms, resolve ts left = Some ms ∧ moved ms = true ∧ unitDraw (3 # 4) ∧
    emptyCells (filtered ms) ≠ [] ∧
    ∃ p, p ∈ emptyCells (filtered ms) ∧
      randomSpawn (filtered ms) 17 (3 # 4) (1 # 20)
      = Some (filtered ms ++ [spawnedTile 17 p (1 # 20)], 17 + 1).
Proof.
  intros ts.
  assert (Hwf : WfBoard ts) by check_board.
  split; [exact Hwf|].
  assert (Hu : unitDraw (3 # 4)) by done.
  assert (Hex : ∃ ms, resolve ts left = Some ms ∧ moved ms = true).
  { by_running. }
  destruct Hex as (ms & Hres & Hmv).
  exists ms. split; [exact Hres|]. split; [exact Hmv|]. split; [exact Hu|].
  exact (spawn_guard_unreachable ts left ms 17 (3 # 4) (1 # 20) Hwf Hres Hmv Hu).
Defined.

(** A full board on which only a merge moves anything: one cell is freed. *)
Example full_board_merge :
  (λ ms, (moved ms, length (filtered ms), emptyCells (filtered ms)))
    <$> resolve (board [(0, 0, 2); (0, 1, 4); (0, 2, 4); (0, 3, 8);
                        (1, 0, 4); (1, 1, 2); (1, 2, 8); (1, 3, 16);
                        (2, 0, 2); (2, 1, 4); (2, 2, 16); (2, 3, 32);
                        (3, 0, 4); (3, 1, 2); (3, 2, 32); (3, 3, 64)]) left
  = Some (true, 15%nat, [(0, 3)]).
Proof. reflexivity. Qed.

(** ** The board invariants *)

Lemma runOp_Inv w op : Inv w → opOK op → ∃ w', runOp w op = Some w' ∧ Inv w'.
Proof.
  intros HI Hop. destruct op as [u1 v1 u2 v2|dir u v]; simpl in *.
  - destruct Hop. by apply newGame_Inv.
  - by apply move_Inv.
Qed.

(** C9 (board invariants).  From every reachable state, [newGame] and
    [move] in every direction return a state in which no two tiles are on
    the same cell, every tile is on a cell of the 4 x 4 board, and every
    value is a power of two that is at least 2. *)
Theorem board_invariants w op :
  reachable w → opOK op →
  ∃ w', runOp w op = Some w' ∧
    NoDup (pos <$> tiles (game w')) ∧
    Forall (λ t, inRange (pos t)) (tiles (game w')) ∧
    Forall (λ t, pow2 (value t) ∧ 2 ≤ value t) (tiles (game w')).
Proof.
  intros Hreach Hop.
  destruct (runOp_Inv w op (reachable_Inv w Hreach) Hop) as (w' & Hrun & HI).
  exists w'. split; [done|].
  split; [apply (wf_cells _ (inv_wf _ HI))|].
  split; [apply (wf_range _ (inv_wf _ HI))|].
  eapply Forall_impl; [apply (inv_pow2 _ HI)|]. simpl.
  intros t Ht. split; [done|]. by apply pow2_pos.
Qed.

Lemma board_invariants_witness :
  let w := mkWorld 3 (mkState [mkTile 1 0 0 4 true false; mkTile 2 2 0 4 true false]
                              0 0 false false) in
  let op := OpMove down (1 # 4) (1 # 2) in
  reachable w ∧ opOK op ∧
  ∃ w', runOp w op = Some w' ∧
    NoDup (pos <$> tiles (game w')) ∧
    Forall (λ t, inRange (pos t)) (tiles (game w')) ∧
    Forall (λ t, pow2 (value t) ∧ 2 ≤ value t) (tiles (game w')).
Proof.
  intros w op.
  assert (Hreach : reachable w).
  { apply (reach_newGame initial 0 0 (1 # 2) 0); [apply reach_initial|done|done|].
    reflexivity. }
  assert (Hop : opOK op) by done.
  split; [exact Hreach|]. split; [exact Hop|].
  exact (board_invariants w op Hreach Hop).
Defined.

(** ** Winning *)

Lemma move_won w dir u v w' :
  move w dir u v = Some w' → won (game w) = true → won (game w') = true.
Proof.
  unfold move. intros Hmove Hwon. rewrite Hwon in Hmove. simpl in Hmove.
  destruct (resolve (tiles (game w)) dir) as [ms|]; [simpl in Hmove|done].
  destruct (if moved ms then _ else _) as [[nextTiles seq']|]; [simpl in Hmove|done].
  by injection Hmove as <-.
Qed.

Lemma moves_won l : ∀ w w', moves w l = Some w' → won (game w) = true → won (game w') = true.
Proof.
  induction l as [|[[dir u] v] l IH]; intros w w' Hmoves Hwon; simpl in Hmoves.
  - by injection Hmoves as <-.
  - destruct (move w dir u v) as [w1|] eqn:Hmove; [simpl in Hmoves|done].
    eapply IH; [exact Hmoves|]. by eapply move_won.
Qed.

Lemma existsb_snoc {A} (f : A → bool) l x : existsb f (l ++ [x]) = existsb f l || f x.
Proof. rewrite existsb_app. simpl. by rewrite orb_false_r. Qed.

(** C4 (win stickiness).  A move of a state whose board is well formed,
    whatever its flags were before the move, returns a state whose [won]
    flag is the previous flag OR-ed with "some tile is worth 2048 or
    more"; so [won] is true as soon as such a tile is on the board, and
    once true it is true after every further sequence of moves, all of
    which return, whatever becomes of the tiles. *)
Theorem win_stickiness w dir u v l :
  WfState w → unitDraw u → drawsOK l →
  ∃ w1 w2, move w dir u v = Some w1 ∧ moves w1 l = Some w2 ∧
    won (game w1)
    = won (game w) || existsb (λ t, TARGET <=? value t) (tiles (game w1)) ∧
    (Exists (λ t, TARGET ≤ value t) (tiles (game w1)) → won (game w1) = true) ∧
    (won (game w1) = true → won (game w2) = true).
Proof.
  intros HI Hu Hl.
  destruct (move_WfState w dir u v HI Hu) as (w1 & Hmove & HI1).
  destruct (moves_WfState l w1 HI1 Hl) as (w2 & Hmoves & _).
  assert (Hwon1 : won (game w1)
            = won (game w) || existsb (λ t, TARGET <=? value t) (tiles (game w1))).
  { destruct (move_sound_wf w dir u v HI Hu)
      as (g & ms & nextTiles & seq' & can & _ & _ & _ & _ & _
          & Hmt & Hmf & _ & _ & _ & _ & Hmove').
    rewrite Hmove in Hmove'. injection Hmove' as ->. simpl. f_equal.
    destruct (moved ms) eqn:Hmv.
    + destruct (Hmt eq_refl) as (p & _ & _ & -> & _). rewrite existsb_snoc.
      assert ((TARGET <=? value (spawnedTile (idSeq w) p v)) = false) as ->.
      { apply Z.leb_gt. pose proof (spawned_below_target (idSeq w) p v). lia. }
      by rewrite orb_false_r.
    + destruct (Hmf eq_refl) as (-> & -> & _). by rewrite filtered_init. }
  exists w1, w2. split; [done|]. split; [done|]. split; [done|]. split.
  - intros Hex. rewrite Hwon1. apply orb_true_iff. right. by apply existsb_target.
  - intros Hwon. by eapply moves_won.
Qed.

Lemma win_stickiness_witness :
  let w := mkWorld 4 (mkState (board [(0, 0, 1024); (0, 1, 1024); (1, 0, 2)])
                              9000 9000 false false) in
  let l := [(up, 1 # 2, 0%Q); (right, 0%Q, 1 # 2); (down, 1 # 3, 1 # 3)] in
  WfState w ∧ unitDraw (1 # 5) ∧ drawsOK l ∧
  ∃ w1 w2, move w left (1 # 5) (1 # 2) = Some w1 ∧ moves w1 l = Some w2 ∧
    won (game w1)
    = won (game w) || existsb (λ t, TARGET <=? value t) (tiles (game w1)) ∧
    (Exists (λ t, TARGET ≤ value t) (tiles (game w1)) → won (game w1) = true) ∧
    (won (game w1) = true → won (game w2) = true).
Proof.
  intros w l.
  assert (HI : WfState w) by check_wf_state.
  assert (Hu : unitDraw (1 # 5)) by done.
  assert (Hl : drawsOK l) by (repeat (apply Forall_cons_2; [done|]); apply Forall_nil_2).
  split; [exact HI|]. split; [exact Hu|]. split; [exact Hl|].
  exact (win_stickiness w left (1 # 5) (1 # 2) l HI Hu Hl).
Defined.

(** Two tiles of 1024 merge: the flag is set, the game is not over, and the
    flag is still set three moves later. *)
Example win_then_play :
  let w := mkWorld 4 (mkState (board [(0, 0, 1024); (0, 1, 1024); (1, 0, 2)])
                              9000 9000 false false) in
  (λ w2, (won (game w2), over (game w2), score (game w2)))
    <$> (move w left (1 # 5) (1 # 2)
           ≫= λ w1, moves w1 [(up, 1 # 2, 0%Q); (right, 0%Q, 1 # 2); (down, 1 # 3, 1 # 3)])
  = Some (true, false, 11052).
Proof. vm_compute. reflexivity. Qed.

(** The flag is set from the tiles that the move leaves: a state that
    holds a tile of 2048 with [won] not set comes back with [won] set,
    even from a move without effect. *)
Example move_sets_won :
  let w := mkWorld 3 (mkState (board [(0, 0, 2048); (1, 0, 2)]) 0 0 false false) in
  (λ w', (won (game w'), length (tiles (game w')))) <$> move w left 0 0
  = Some (true, 2%nat).
Proof. vm_compute. reflexivity. Qed.

(** ** The spawn after an effective move *)

Lemma randomIndex_interval u n j :
  (0 < n)%nat → randomIndex u n = j ↔ cellInterval n j u.
Proof.
  intros Hn. unfold randomIndex, cellInterval. rewrite Qfloor_iff.
  set (N := inject_Z (Z.of_nat n)).
  assert (HN : (0 < N)%Q).
  { unfold N. change 0%Q with (inject_Z 0). rewrite <- Zlt_Qlt. lia. }
  assert (HN0 : ¬ (N == 0)%Q).
  { intros Heq. rewrite Heq in HN. by apply Qlt_irrefl in HN. }
  assert (Hcancel : ∀ x : Q, (x / N * N == x)%Q) by (intros x; by field).
  split; intros [Hlo Hhi]; split.
  - by apply Qle_shift_div_r.
  - by apply Qlt_shift_div_l.
  - rewrite <- (Hcancel (inject_Z j)). apply Qmult_le_compat_r; [done|].
    by apply Qlt_le_weak.
  - rewrite <- (Hcancel (inject_Z (j + 1))). by apply Qmult_lt_compat_r.
Qed.

Lemma randomValue_4 v : randomValue v = 4 ↔ (v < 1 # 10)%Q.
Proof.
  unfold randomValue. destruct (Qlt_le_dec v (1 # 10)) as [Hlt|Hle].
  - done.
  - split; [done|]. intros Hlt. by apply Qle_not_lt in Hle.
Qed.

Lemma randomValue_2 v : randomValue v = 2 ↔ (1 # 10 <= v)%Q.
Proof.
  unfold randomValue. destruct (Qlt_le_dec v (1 # 10)) as [Hlt|Hle].
  - split; [done|]. intros Hle. by apply Qle_not_lt in Hle.
  - done.
Qed.

Lemma filter_ext_in {A} (P Q : A → Prop) `{!∀ x, Decision (P x)} `{!∀ x, Decision (Q x)}
    (l : list A) :
  (∀ x, x ∈ l → P x ↔ Q x) → filter P l = filter Q l.
Proof.
  induction l as [|a l IH]; intros Hext; [done|].
  rewrite !filter_cons. rewrite IH by (intros x Hx; apply Hext; by right).
  destruct (decide (P a)) as [HP|HP], (decide (Q a)) as [HQ|HQ]; try done.
  - destruct HQ. apply Hext; [left|done].
  - destruct HP. apply Hext; [left|done].
Qed.

(** The tiles that stay are all the tiles but the removed ones. *)
Lemma filter_count (st : list Tile) :
  ∀ R : gset Z, NoDup (id <$> st) → (∀ i, i ∈ R → i ∈ id <$> st) →
  (length (filter (λ t, id t ∉ R) st) + size R = length st)%nat.
Proof.
  induction st as [|t st IH]; intros R Hnd Hsub.
  - assert (R = ∅) as ->.
    { apply set_eq. intros i. split; [|set_solver]. intros Hi.
      apply Hsub in Hi. by apply elem_of_nil in Hi. }
    by rewrite size_empty.
  - rewrite fmap_cons in Hnd. apply NoDup_cons in Hnd as [Hfresh Hnd].
    destruct (decide (id t ∈ R)) as [Hin|Hnin].
    + rewrite filter_cons_False by (intros Hn; by apply Hn).
      assert (HR : R = {[id t]} ∪ R ∖ {[id t]}).
      { apply set_eq. intros i. destruct (decide (i = id t)); set_solver. }
      rewrite (filter_ext_in _ (λ x, id x ∉ R ∖ {[id t]})).
      2:{ intros x Hx. assert (id x ≠ id t).
          { intros Heq. apply Hfresh. rewrite <- Heq. apply list_elem_of_fmap. by exists x. }
          set_solver. }
      assert (Hsize : size R = S (size (R ∖ {[id t]}))).
      { transitivity (size ({[id t]} ∪ R ∖ {[id t]})); [by f_equal|].
        rewrite size_union by set_solver. by rewrite size_singleton. }
      rewrite Hsize.
      specialize (IH (R ∖ {[id t]}) Hnd). simpl. rewrite <- IH; [lia|].
      intros i Hi. apply elem_of_difference in Hi as [Hi Hne].
      apply Hsub in Hi. rewrite fmap_cons in Hi. apply elem_of_cons in Hi as [->|Hi]; [|done].
      set_solver.
    + rewrite filter_cons_True by done. simpl. rewrite (IH R Hnd); [done|].
      intros i Hi. pose proof (Hsub i Hi) as Hi'. rewrite fmap_cons in Hi'.
      apply elem_of_cons in Hi' as [->|Hi']; [done|done].
Qed.

Lemma resolve_count ts dir ms :
  WfBoard ts → resolve ts dir = Some ms →
  (length (filtered ms) + size (toRemove ms) = length ts)%nat.
Proof.
  intros Hwf Hres.
  destruct (resolve_sound ts dir Hwf) as (g & ms' & _ & Hres' & Hc0 & Hc & Hsteps).
  assert (ms' = ms) as -> by congruence.
  unfold filtered. rewrite filter_count.
  - rewrite <- (length_fmap id), (Steps_ids _ _ _ Hsteps). simpl.
    by rewrite !length_fmap.
  - apply (cons_ids _ Hc).
  - eapply Steps_removed; [exact Hsteps|]. simpl. set_solver.
Qed.

Lemma cellInterval_near n j u :
  (0 < n)%nat → 0 ≤ j → cellInterval n j u → nearInterval n j u.
Proof.
  intros Hn Hj [Hlo Hhi]. split; [|done].
  assert (HN : (0 < inject_Z (Z.of_nat n))%Q).
  { change 0%Q with (inject_Z 0). rewrite <- Zlt_Qlt. lia. }
  assert (Hx : (0 <= inject_Z j / inject_Z (Z.of_nat n))%Q).
  { apply Qle_shift_div_l; [done|]. rewrite Qmult_0_l.
    change 0%Q with (inject_Z 0). rewrite <- Zle_Qle. lia. }
  set (x := (inject_Z j / inject_Z (Z.of_nat n))%Q) in *. lra.
Qed.

(** C6 (spawn invariant), as amended.  After a move of a well-formed state
    whose resolution reports [moved = true], the board is the board left by
    the resolution with exactly one more tile: the tile count is the count
    before the move, minus the tiles consumed by merges, plus 1.  The new
    tile is on a cell that the resolution left empty, the [j]-th of the
    [n] empty cells in row-major order for a [j] such that the draw [u]
    lies in [[j/n, (j+1)/n)], the lower end taken up to the rounding of the
    double product; its value is 4 when the draw [v] is below 1/10 and 2
    otherwise. *)
Theorem spawn_invariant w dir u v ms :
  Inv w → unitDraw u → resolve (tiles (game w)) dir = Some ms → moved ms = true →
  let empties := emptyCells (filtered ms) in
  ∃ j p w',
    0 ≤ j < Z.of_nat (length empties) ∧
    cellAt empties j = Some p ∧
    nearInterval (length empties) j u ∧
    move w dir u v = Some w' ∧
    tiles (game w') = filtered ms ++ [spawnedTile (idSeq w) p v] ∧
    length (tiles (game w')) = S (length (filtered ms)) ∧
    (length (tiles (game w')) + size (toRemove ms)
     = S (length (tiles (game w))))%nat ∧
    p ∈ empties ∧
    (value (spawnedTile (idSeq w) p v) = 2 ∨ value (spawnedTile (idSeq w) p v) = 4) ∧
    (value (spawnedTile (idSeq w) p v) = 4 ↔ (v < 1 # 10)%Q) ∧
    (value (spawnedTile (idSeq w) p v) = 2 ↔ (1 # 10 <= v)%Q).
Proof.
  intros HI Hu Hres Hmv empties.
  destruct (move_sound w dir u v HI Hu)
    as (g & ms' & nextTiles & seq' & can & _ & Hres' & _ & _ & _
        & Hmt & _ & _ & _ & _ & _ & Hmove).
  assert (ms' = ms) as -> by congruence.
  destruct (Hmt Hmv) as (p & Hp & Hcell & -> & ->).
  pose proof (resolve_count _ dir ms (inv_wf _ HI) Hres) as Hcount.
  assert (Hn : (0 < length empties)%nat).
  { unfold empties. destruct (emptyCells (filtered ms));
      [by apply elem_of_nil in Hp|simpl; lia]. }
  pose proof (randomIndex_range u (length empties) Hu Hn) as Hrange.
  exists (randomIndex u (length empties)), p. eexists.
  split; [exact Hrange|]. split; [exact Hcell|]. split.
  { apply cellInterval_near; [done|lia|]. by apply randomIndex_interval. }
  split; [exact Hmove|]. simpl.
  split; [done|]. rewrite length_app. simpl.
  split; [lia|]. split; [lia|]. split; [done|].
  split; [apply randomValue_cases|]. split; [apply randomValue_4|].
  apply randomValue_2.
Qed.

Lemma spawn_invariant_witness :
  let w := mkWorld 4 (mkState (board [(0, 0, 2); (0, 1, 2); (1, 3, 4)])
                              0 0 false false) in
  Inv w ∧ unitDraw (1 # 2) ∧
  ∃ ms, resolve (tiles (game w)) left = Some ms ∧ moved ms = true ∧
  let empties := emptyCells (filtered ms) in
  ∃ j p w',
    0 ≤ j < Z.of_nat (length empties) ∧
    cellAt empties j = Some p ∧
    nearInterval (length empties) j (1 # 2) ∧
    move w left (1 # 2) (1 # 20) = Some w' ∧
    tiles (game w') = filtered ms ++ [spawnedTile (idSeq w) p (1 # 20)] ∧
    length (tiles (game w')) = S (length (filtered ms)) ∧
    (length (tiles (game w')) + size (toRemove ms)
     = S (length (tiles (game w))))%nat ∧
    p ∈ empties ∧
    (value (spawnedTile (idSeq w) p (1 # 20)) = 2
     ∨ value (spawnedTile (idSeq w) p (1 # 20)) = 4) ∧
    (value (spawnedTile (idSeq w) p (1 # 20)) = 4 ↔ (1 # 20 < 1 # 10)%Q) ∧
    (value (spawnedTile (idSeq w) p (1 # 20)) = 2 ↔ (1 # 10 <= 1 # 20)%Q).
Proof.
  intros w.
  assert (HI : Inv w) by check_state.
  assert (Hu : unitDraw (1 # 2)) by done.
  assert (Hex : ∃ ms, resolve (tiles (game w)) left = Some ms ∧ moved ms = true).
  { by_running. }
  destruct Hex as (ms & Hres & Hmv).
  split; [exact HI|]. split; [exact Hu|].
  exists ms. split; [exact Hres|]. split; [exact Hmv|].
  exact (spawn_invariant w left (1 # 2) (1 # 20) ms HI Hu Hres Hmv).
Defined.

(** The claim as it is written fails when tiles merge: two tiles before
    the move, and two after it (the merged one and the new one). *)
Lemma spawn_count_counterexample :
  let w := mkWorld 3 (mkState (board [(0, 0, 2); (0, 1, 2)]) 0 0 false false) in
  Inv w ∧ unitDraw 0 ∧
  (∃ ms, resolve (tiles (game w)) left = Some ms ∧ moved ms = true) ∧
  ∃ w', move w left 0 0 = Some w' ∧
    length (tiles (game w)) = 2%nat ∧ length (tiles (game w')) = 2%nat ∧
    length (tiles (game w')) ≠ S (length (tiles (game w))).
Proof.
  intros w.
  split; [check_state|]. split; [done|]. split.
  - by_running.
  - eexists. split; [vm_compute; reflexivity|].
    split; [reflexivity|]. split; [reflexivity|]. vm_compute. discriminate.
Qed.

(** ** The best score *)

Lemma move_best w dir u v w' :
  move w dir u v = Some w' →
  best (game w') = Z.max (best (game w)) (score (game w')).
Proof.
  unfold move. intros Hmove.
  destruct (resolve (tiles (game w)) dir) as [ms|]; [simpl in Hmove|done].
  destruct (if moved ms then _ else _) as [[nextTiles seq']|]; [simpl in Hmove|done].
  destruct (if won (game w) || _ then _ else _) as [o|]; [simpl in Hmove|done].
  by injection Hmove as <-.
Qed.

Lemma newGame_fields w u1 v1 u2 v2 w' :
  newGame w u1 v1 u2 v2 = Some w' →
  score (game w') = 0 ∧ won (game w') = false ∧ over (game w') = false ∧
  best (game w') = best (game w).
Proof.
  unfold newGame. intros Hnew.
  destruct (randomSpawn [] 1 u1 v1) as [[ts1 seq1]|]; [simpl in Hnew|done].
  destruct (randomSpawn ts1 seq1 u2 v2) as [[ts2 seq2]|]; [simpl in Hnew|done].
  by injection Hnew as <-.
Qed.

Lemma foldr_max_init b s l : foldr Z.max (Z.max b s) l = Z.max s (foldr Z.max b l).
Proof. induction l as [|x l IH]; simpl; lia. Qed.

Lemma foldr_max_ge b l : b ≤ foldr Z.max b l.
Proof. induction l as [|x l IH]; simpl; lia. Qed.

(** C7 (best score), as amended.  After every sequence of moves and
    resets from a well-formed state, every call returns, and [best] is the
    maximum of its value before the sequence and of the scores observed
    after the moves of the sequence; it never decreases, across resets
    either.  Each move sets [best] to the maximum of its previous value and
    the new score; [newGame] sets [score] to 0 and [won] and [over] to
    false, and leaves [best] as it is. *)
Theorem best_high_water w ops :
  Inv w → Forall opOK ops →
  ∃ w', runOps w ops = Some w' ∧
    best (game w') = foldr Z.max (best (game w)) (observed w ops) ∧
    best (game w) ≤ best (game w') ∧
    (∀ dir u v w1, move w dir u v = Some w1 →
       best (game w1) = Z.max (best (game w)) (score (game w1))) ∧
    (∀ u1 v1 u2 v2 w1, newGame w u1 v1 u2 v2 = Some w1 →
       score (game w1) = 0 ∧ won (game w1) = false ∧ over (game w1) = false ∧
       best (game w1) = best (game w)).
Proof.
  intros HI Hops.
  assert (Hrun : ∃ w', runOps w ops = Some w' ∧
            best (game w') = foldr Z.max (best (game w)) (observed w ops)).
  { revert w HI. induction Hops as [|op ops Hop _ IH]; intros w HI.
    - by exists w.
    - destruct (runOp_Inv w op HI Hop) as (w1 & Hrun1 & HI1).
      destruct (IH w1 HI1) as (w' & Hrun & Hbest).
      exists w'. simpl. rewrite Hrun1. simpl. split; [done|]. rewrite Hbest.
      destruct op as [u1 v1 u2 v2|dir u v]; simpl in *.
      + by destruct (newGame_fields _ _ _ _ _ _ Hrun1) as (_ & _ & _ & ->).
      + rewrite (move_best _ _ _ _ _ Hrun1). apply foldr_max_init. }
  destruct Hrun as (w' & Hrun & Hbest).
  exists w'. split; [done|]. split; [done|]. split.
  { rewrite Hbest. apply foldr_max_ge. }
  split.
  - intros dir u v w1 Hmove. by apply move_best in Hmove.
  - intros u1 v1 u2 v2 w1 Hnew. by apply newGame_fields in Hnew.
Qed.

Lemma best_high_water_witness :
  let w := mkWorld 3 (mkState [mkTile 1 0 0 4 true false; mkTile 2 2 0 4 true false]
                              0 6 false false) in
  let ops := [OpMove down (1 # 4) (1 # 2); OpMove right 0 (1 # 2);
              OpNewGame 0 0 (1 # 2) 0; OpMove down (1 # 4) (1 # 2)] in
  Inv w ∧ Forall opOK ops ∧
  ∃ w', runOps w ops = Some w' ∧
    best (game w') = foldr Z.max (best (game w)) (observed w ops) ∧
    best (game w) ≤ best (game w') ∧
    (∀ dir u v w1, move w dir u v = Some w1 →
       best (game w1) = Z.max (best (game w)) (score (game w1))) ∧
    (∀ u1 v1 u2 v2 w1, newGame w u1 v1 u2 v2 = Some w1 →
       score (game w1) = 0 ∧ won (game w1) = false ∧ over (game w1) = false ∧
       best (game w1) = best (game w)).
Proof.
  intros w ops.
  assert (HI : Inv w) by check_state.
  assert (Hops : Forall opOK ops)
    by (repeat (apply Forall_cons_2; [done|]); apply Forall_nil_2).
  split; [exact HI|]. split; [exact Hops|].
  exact (best_high_water w ops HI Hops).
Defined.

(** The claim as it is written fails when [best] starts above the scores
    of the sequence: here it was recovered from storage as 100, the game
    was started, and the one move of the sequence brings the score to 8. *)
Lemma best_not_max_observed_counterexample :
  let w := mkWorld 3 (mkState [mkTile 1 0 0 4 true false; mkTile 2 2 0 4 true false]
                              0 100 false false) in
  let ops := [OpMove down (1 # 4) (1 # 2)] in
  reachable w ∧
  ∃ w', runOps w ops = Some w' ∧ observed w ops = [8] ∧
    best (game w') = 100 ∧ best (game w') ≠ 8.
Proof.
  intros w ops. split.
  - apply (reach_newGame (loadBest initial 100) 0 0 (1 # 2) 0); [|done|done|reflexivity].
    apply reach_loadBest, reach_initial.
  - eexists. split; [vm_compute; reflexivity|].
    split; [reflexivity|]. split; [reflexivity|]. vm_compute. discriminate.
Qed.

(** * Further properties of the engine *)

(** ** newGame *)

(** X1.  Whatever the state was, [newGame] with draws of the unit interval
    returns a state with exactly two tiles, numbered 1 and 2, on two
    different cells of the board, each worth 2 or 4 and flagged [spawned];
    the counter is 3, the score 0, both flags false, [best] is kept. *)
Theorem newGame_two_tiles w u1 v1 u2 v2 :
  unitDraw u1 → unitDraw u2 →
  ∃ t1 t2,
    newGame w u1 v1 u2 v2
    = Some (mkWorld 3 (mkState [t1; t2] 0 (best (game w)) false false)) ∧
    id t1 = 1 ∧ id t2 = 2 ∧ inRange (pos t1) ∧ inRange (pos t2) ∧
    pos t1 ≠ pos t2 ∧
    (value t1 = 2 ∨ value t1 = 4) ∧ (value t2 = 2 ∨ value t2 = 4) ∧
    spawned t1 = true ∧ spawned t2 = true ∧ merged t1 = false ∧ merged t2 = false.
Proof.
  intros Hu1 Hu2.
  destruct (newGame_sound w u1 v1 u2 v2 Hu1 Hu2) as (p1 & p2 & Hp1 & Hp2 & Hnew).
  apply elem_of_emptyCells in Hp1 as [Hr1 _].
  apply elem_of_emptyCells in Hp2 as [Hr2 Hfree].
  exists (spawnedTile 1 p1 v1), (spawnedTile 2 p2 v2).
  split; [exact Hnew|]. destruct p1 as [r1 c1], p2 as [r2 c2]. simpl.
  repeat (split; [done|]). split.
  { intros Heq. apply (Hfree (spawnedTile 1 (r1, c1) v1)); [left|done]. }
  split; [apply randomValue_cases|]. split; [apply randomValue_cases|]. done.
Qed.

Lemma newGame_two_tiles_witness :
  let w := mkWorld 40 (mkState (board [(0, 0, 64); (5, 9, 3)]) 700 900 true true) in
  unitDraw (1 # 3) ∧ unitDraw (9 # 10) ∧
  ∃ t1 t2,
    newGame w (1 # 3) (1 # 20) (9 # 10) (1 # 2)
    = Some (mkWorld 3 (mkState [t1; t2] 0 (best (game w)) false false)) ∧
    id t1 = 1 ∧ id t2 = 2 ∧ inRange (pos t1) ∧ inRange (pos t2) ∧
    pos t1 ≠ pos t2 ∧
    (value t1 = 2 ∨ value t1 = 4) ∧ (value t2 = 2 ∨ value t2 = 4) ∧
    spawned t1 = true ∧ spawned t2 = true ∧ merged t1 = false ∧ merged t2 = false.
Proof.
  intros w.
  assert (Hu1 : unitDraw (1 # 3)) by done.
  assert (Hu2 : unitDraw (9 # 10)) by done.
  split; [exact Hu1|]. split; [exact Hu2|].
  exact (newGame_two_tiles w (1 # 3) (1 # 20) (9 # 10) (1 # 2) Hu1 Hu2).
Defined.

(** ** randomSpawn *)

(** X2.  For every array of tiles, well formed or not, and every draw of
    the unit interval, [randomSpawn] returns: on a board without empty
    cell, its argument and the counter as they are; otherwise its argument
    followed by one tile, numbered by the counter, which is advanced by 1,
    on a cell of the board that no tile occupies, worth 2 or 4, flagged
    [spawned] and not [merged]. *)
Theorem randomSpawn_result ts seq u v :
  unitDraw u →
  ∃ ts' seq', randomSpawn ts seq u v = Some (ts', seq') ∧
    ((emptyCells ts = [] ∧ ts' = ts ∧ seq' = seq) ∨
     (∃ t, ts' = ts ++ [t] ∧ seq' = seq + 1 ∧ id t = seq ∧
        inRange (pos t) ∧ (∀ t0, t0 ∈ ts → pos t0 ≠ pos t) ∧
        (value t = 2 ∨ value t = 4) ∧ spawned t = true ∧ merged t = false)).
Proof.
  intros Hu. destruct (decide (emptyCells ts = [])) as [Hnil|Hne].
  - exists ts, seq. split; [by apply randomSpawn_full|]. by left.
  - destruct (randomSpawn_free ts seq u v Hu Hne) as (p & _ & Hp & Hsp).
    apply elem_of_emptyCells in Hp as [Hr Hfree].
    eexists _, _. split; [exact Hsp|]. right. eexists. split; [done|].
    destruct p as [r c]. simpl. repeat (split; [done|]).
    split; [apply randomValue_cases|done].
Qed.

Lemma randomSpawn_result_witness :
  let ts := board [(0, 0, 2); (0, 0, 8); (1, 7, 4)] in
  unitDraw (14 # 15) ∧
  ∃ ts' seq', randomSpawn ts 9 (14 # 15) (1 # 2) = Some (ts', seq') ∧
    ((emptyCells ts = [] ∧ ts' = ts ∧ seq' = 9) ∨
     (∃ t, ts' = ts ++ [t] ∧ seq' = 9 + 1 ∧ id t = 9 ∧
        inRange (pos t) ∧ (∀ t0, t0 ∈ ts → pos t0 ≠ pos t) ∧
        (value t = 2 ∨ value t = 4) ∧ spawned t = true ∧ merged t = false)).
Proof.
  intros ts.
  assert (Hu : unitDraw (14 # 15)) by done.
  split; [exact Hu|].
  exact (randomSpawn_result ts 9 (14 # 15) (1 # 2) Hu).
Defined.

(** ** emptyCells *)

(** X3.  On a well-formed board the empty cells and the tiles together
    are the 16 cells: their numbers add up to 16; [emptyCells] lists
    exactly the cells of the board that no tile occupies, each once, in the
    row-major order of the 16 cells. *)
Theorem emptyCells_count ts :
  WfBoard ts →
  (length (emptyCells ts) + length ts = 16)%nat ∧
  emptyCells ts `sublist_of` allCells ∧ NoDup (emptyCells ts) ∧
  (∀ p, p ∈ emptyCells ts ↔ inRange p ∧ ∀ t, t ∈ ts → pos t ≠ p).
Proof.
  intros [Hr Hc Hi]. split; [|split; [|split]].
  - unfold emptyCells. set (occ := list_to_set (pos <$> ts) : gset Cell).
    assert (Hocc : filter (λ p : Cell, ¬ (p ∉ occ)) allCells ≡ₚ pos <$> ts).
    { apply NoDup_Permutation; [apply NoDup_filter, NoDup_allCells|done|].
      intros p. rewrite list_elem_of_filter, elem_of_allCells. unfold occ.
      rewrite elem_of_list_to_set. split.
      - intros [Hin _]. by apply dec_stable.
      - intros Hin. split; [tauto|].
        apply list_elem_of_fmap in Hin as (t & -> & Ht).
        by apply (proj1 (Forall_forall _ _) Hr). }
    pose proof (filter_app_complement (λ p : Cell, p ∉ occ) allCells) as Hperm.
    apply Permutation_length in Hperm, Hocc.
    rewrite length_app, length_allCells in Hperm. rewrite length_fmap in Hocc. lia.
  - apply sublist_filter.
  - apply NoDup_filter, NoDup_allCells.
  - apply elem_of_emptyCells.
Qed.

Lemma emptyCells_count_witness :
  let ts := board [(0, 0, 2); (1, 2, 8); (3, 3, 4)] in
  WfBoard ts ∧
  (length (emptyCells ts) + length ts = 16)%nat ∧
  emptyCells ts `sublist_of` allCells ∧ NoDup (emptyCells ts) ∧
  (∀ p, p ∈ emptyCells ts ↔ inRange p ∧ ∀ t, t ∈ ts → pos t ≠ p).
Proof.
  intros ts.
  assert (Hwf : WfBoard ts) by check_board.
  split; [exact Hwf|]. exact (emptyCells_count ts Hwf).
Defined.

(** ** The score *)

Lemma TileStep_score C ms ms' :
  Consistent ms → Forall (λ t, pow2 (value t)) (store ms) → TileStep C ms ms' →
  (toRemove ms' = toRemove ms ∧ scoreGain ms' = scoreGain ms) ∨
  (size (toRemove ms') = S (size (toRemove ms)) ∧ scoreGain ms + 4 ≤ scoreGain ms').
Proof.
  intros Hc Hp2 [k cur j pt q Hk Hgk _ _ _ _ Hj Hv _|k cur q _ _ _ _ _ _];
    [right|by left].
  unfold absorbed. cbn [toRemove scoreGain]. split.
  - destruct (cons_grid _ Hc _ _ Hgk) as (_ & t & Ht & _ & Hlive).
    assert (t = cur) as -> by congruence.
    rewrite size_union by set_solver. by rewrite size_singleton.
  - pose proof (pow2_pos _ (Forall_lookup_1 _ _ _ _ Hp2 Hj)). lia.
Qed.

Lemma Steps_score C ms ms' :
  rtc (TileStep C) ms ms' → Consistent ms → Forall (λ t, pow2 (value t)) (store ms) →
  4 * Z.of_nat (size (toRemove ms)) ≤ scoreGain ms →
  (size (toRemove ms) = 0%nat → scoreGain ms = 0) →
  4 * Z.of_nat (size (toRemove ms')) ≤ scoreGain ms' ∧
  (size (toRemove ms') = 0%nat → scoreGain ms' = 0).
Proof.
  induction 1 as [|ms1 ms2 ms3 Hstep _ IH]; intros Hc Hp2 H4 H0; [done|].
  apply IH.
  - by eapply TileStep_consistent.
  - by eapply TileStep_pow2.
  - destruct (TileStep_score _ _ _ Hc Hp2 Hstep) as [[-> ->]|[-> ?]]; lia.
  - destruct (TileStep_score _ _ _ Hc Hp2 Hstep) as [[-> ->]|[-> ?]]; [done|lia].
Qed.

(** X4.  A move of a well-formed state whose score is not negative and,
    with the gain of the move, not above [2^53] (so that the sums of the
    code, which are sums of doubles, are exact) adds [scoreGain] to the
    score, and [scoreGain] is at least 4 for each tile that a merge
    consumed and is 0 when no tile was consumed: the score never
    decreases, it grows exactly when the number of tiles left by the
    resolution is smaller than the number of tiles before, and [best] is at
    least the score after the move. *)
Theorem score_growth w dir u v ms :
  Inv w → unitDraw u → resolve (tiles (game w)) dir = Some ms →
  0 ≤ score (game w) → score (game w) + scoreGain ms ≤ 2 ^ 53 →
  ∃ w', move w dir u v = Some w' ∧
    score (game w') = score (game w) + scoreGain ms ∧
    (length (filtered ms) + size (toRemove ms) = length (tiles (game w)))%nat ∧
    4 * Z.of_nat (size (toRemove ms)) ≤ scoreGain ms ∧
    (scoreGain ms = 0 ↔ length (filtered ms) = length (tiles (game w))) ∧
    score (game w) ≤ score (game w') ∧ score (game w') ≤ best (game w').
Proof.
  intros HI Hu Hres _ _.
  destruct (move_sound w dir u v HI Hu)
    as (g & ms' & nextTiles & seq' & can & _ & Hres' & Hc0 & _ & Hsteps
        & _ & _ & _ & _ & _ & _ & Hmove).
  assert (ms' = ms) as -> by congruence.
  pose proof (resolve_count _ dir ms (inv_wf _ HI) Hres) as Hcount.
  destruct (Steps_score _ _ _ Hsteps Hc0) as [H4 H0]; cbn [toRemove scoreGain store].
  { apply Forall_fmap. apply (inv_pow2 _ HI). }
  { rewrite size_empty. lia. }
  { done. }
  eexists. split; [exact Hmove|]. simpl.
  repeat split; lia.
Qed.

Lemma score_growth_witness :
  let w := mkWorld 6 (mkState (board [(0, 0, 2); (0, 1, 2); (1, 1, 8); (1, 3, 8); (2, 0, 4)])
                              20 20 false false) in
  Inv w ∧ unitDraw (1 # 7) ∧
  ∃ ms, resolve (tiles (game w)) right = Some ms ∧
    0 ≤ score (game w) ∧ score (game w) + scoreGain ms ≤ 2 ^ 53 ∧
  ∃ w', move w right (1 # 7) (1 # 2) = Some w' ∧
    score (game w') = score (game w) + scoreGain ms ∧
    (length (filtered ms) + size (toRemove ms) = length (tiles (game w)))%nat ∧
    4 * Z.of_nat (size (toRemove ms)) ≤ scoreGain ms ∧
    (scoreGain ms = 0 ↔ length (filtered ms) = length (tiles (game w))) ∧
    score (game w) ≤ score (game w') ∧ score (game w') ≤ best (game w').
Proof.
  intros w.
  assert (HI : Inv w) by check_state.
  assert (Hu : unitDraw (1 # 7)) by done.
  assert (Hpos : 0 ≤ score (game w)) by done.
  assert (Hex : ∃ ms, resolve (tiles (game w)) right = Some ms ∧
                      score (game w) + scoreGain ms ≤ 2 ^ 53).
  { eexists. split; [vm_compute; reflexivity|]. vm_compute. discriminate. }
  destruct Hex as (ms & Hres & Hbound).
  split; [exact HI|]. split; [exact Hu|].
  exists ms. split; [exact Hres|]. split; [exact Hpos|]. split; [exact Hbound|].
  exact (score_growth w right (1 # 7) (1 # 2) ms HI Hu Hres Hpos Hbound).
Defined.

Example score_of_two_merges :
  let w := mkWorld 6 (mkState (board [(0, 0, 2); (0, 1, 2); (1, 1, 8); (1, 3, 8); (2, 0, 4)])
                              20 20 false false) in
  (λ w', (score (game w'), best (game w'), length (tiles (game w'))))
    <$> move w right (1 # 7) (1 # 2) = Some (40, 40, 4%nat).
Proof. vm_compute. reflexivity. Qed.

(** ** Tile identifiers *)

Lemma fmap_filter_ids (R : gset Z) (st : list Tile) :
  id <$> filter (λ t, id t ∉ R) st = filter (λ i, i ∉ R) (id <$> st).
Proof.
  induction st as [|t st IH]; [done|]. rewrite fmap_cons, !filter_cons.
  destruct (decide (id t ∉ R)); by rewrite ?fmap_cons, IH.
Qed.

Lemma StronglySorted_filter {A} (R : relation A) (P : A → Prop)
    `{!∀ x, Decision (P x)} (l : list A) :
  StronglySorted R l → StronglySorted R (filter P l).
Proof.
  induction 1 as [|x l Hs IH Hall]; [constructor|].
  rewrite filter_cons. destruct (decide (P x)); [|done].
  constructor; [done|]. apply Forall_forall. intros y Hy.
  apply list_elem_of_filter in Hy as [_ Hy]. by apply (proj1 (Forall_forall _ _) Hall).
Qed.

Lemma StronglySorted_snoc_lt (l : list Z) (x : Z) :
  StronglySorted Z.lt l → Forall (λ y, y < x) l → StronglySorted Z.lt (l ++ [x]).
Proof.
  induction 1 as [|y l Hs IH Hall]; intros Hlt; simpl.
  - repeat constructor.
  - apply Forall_cons in Hlt as [Hy Hlt]. constructor; [by apply IH|].
    apply Forall_app. split; [done|]. by apply Forall_singleton.
Qed.

(** The identifiers of the tiles after a move: those of the tiles that no
    merge consumed, in the order of the array, then the one of the new
    tile. *)
Lemma move_ids w dir u v :
  Inv w → unitDraw u →
  ∃ ms w', resolve (tiles (game w)) dir = Some ms ∧ move w dir u v = Some w' ∧
    id <$> tiles (game w')
    = filter (λ i, i ∉ toRemove ms) (id <$> tiles (game w))
      ++ (if moved ms then [idSeq w] else []) ∧
    idSeq w' = (if moved ms then idSeq w + 1 else idSeq w).
Proof.
  intros HI Hu.
  destruct (move_sound w dir u v HI Hu)
    as (g & ms & nextTiles & seq' & can & _ & Hres & _ & _ & Hsteps
        & Hmt & Hmf & _ & _ & _ & _ & Hmove).
  pose proof (Steps_ids _ _ _ Hsteps) as Hids. simpl in Hids.
  rewrite id_clearFlags in Hids.
  exists ms. eexists. split; [done|]. split; [exact Hmove|].
  cbn [tiles game idSeq].
  destruct (moved ms) eqn:Hmv.
  - destruct (Hmt eq_refl) as (p & _ & _ & -> & ->).
    rewrite fmap_app. unfold filtered. by rewrite fmap_filter_ids, Hids.
  - destruct (Hmf eq_refl) as (-> & -> & ->). cbn [toRemove].
    rewrite app_nil_r, id_clearFlags. split; [|done].
    generalize (id <$> tiles (game w)). intros l.
    induction l as [|i l IH]; [done|].
    rewrite filter_cons_True by set_solver. by f_equal.
Qed.

(** X5.  In every reachable state the identifiers of the tiles increase
    strictly along the array, are at least 1 and below the counter; so no
    two tiles have the same identifier. *)
Theorem ids_increasing w :
  reachable w →
  StronglySorted Z.lt (id <$> tiles (game w)) ∧
  Forall (λ t, 1 ≤ id t < idSeq w) (tiles (game w)) ∧
  NoDup (id <$> tiles (game w)).
Proof.
  intros Hreach.
  assert (H : StronglySorted Z.lt (id <$> tiles (game w)) ∧
              Forall (λ i, 1 ≤ i < idSeq w) (id <$> tiles (game w)) ∧
              1 ≤ idSeq w).
  { induction Hreach as [|w b _ IH|w u1 v1 u2 v2 w' _ _ Hu1 Hu2 Hnew
                         |w dir u v w' Hreach IH Hu Hmove].
    - split; [constructor|]. split; [constructor|]. simpl. lia.
    - exact IH.
    - destruct (newGame_sound w u1 v1 u2 v2 Hu1 Hu2) as (p1 & p2 & _ & _ & Hnew').
      rewrite Hnew in Hnew'. injection Hnew' as ->. simpl.
      split; [|split]; repeat constructor; lia.
    - destruct IH as (Hs & Hb & Hpos).
      destruct (move_ids w dir u v (reachable_Inv _ Hreach) Hu)
        as (ms & w'' & _ & Hmove' & Hids & Hseq).
      rewrite Hmove in Hmove'. injection Hmove' as <-. rewrite Hids, Hseq.
      assert (Hb' : Forall (λ i, 1 ≤ i < idSeq w)
                      (filter (λ i, i ∉ toRemove ms) (id <$> tiles (game w)))).
      { apply Forall_forall. intros i Hi. apply list_elem_of_filter in Hi as [_ Hi].
        by apply (proj1 (Forall_forall _ _) Hb). }
      destruct (moved ms).
      + split; [|split; [|lia]].
        * apply StronglySorted_snoc_lt; [by apply StronglySorted_filter|].
          eapply Forall_impl; [exact Hb'|]. simpl. intros; lia.
        * apply Forall_app. split.
          -- eapply Forall_impl; [exact Hb'|]. simpl. intros; lia.
          -- apply Forall_singleton. lia.
      + rewrite app_nil_r. split; [by apply StronglySorted_filter|done]. }
  destruct H as (Hs & Hb & _). split; [done|]. split.
  - apply Forall_forall. intros t Ht. apply (proj1 (Forall_forall _ _) Hb).
    apply list_elem_of_fmap. by exists t.
  - apply (wf_ids _ (inv_wf _ (reachable_Inv _ Hreach))).
Qed.

Lemma ids_increasing_witness :
  let w := mkWorld 4 (mkState [mkTile 1 3 0 4 false false; mkTile 2 3 3 4 false false;
                               mkTile 3 0 3 2 true false] 0 0 false false) in
  reachable w ∧
  StronglySorted Z.lt (id <$> tiles (game w)) ∧
  Forall (λ t, 1 ≤ id t < idSeq w) (tiles (game w)) ∧
  NoDup (id <$> tiles (game w)).
Proof.
  intros w.
  assert (Hreach : reachable w).
  { apply (reach_move (mkWorld 3 (mkState [mkTile 1 0 0 4 true false;
                                            mkTile 2 2 3 4 true false]
                                           0 0 false false)) down (1 # 4) (1 # 2));
      [|done|reflexivity].
    apply (reach_newGame initial 0 0 (2 # 3) 0); [apply reach_initial|done|done|].
    reflexivity. }
  split; [exact Hreach|].
  exact (ids_increasing w Hreach).
Defined.

(** ** The tiles after a move *)

Lemma sameLine_refl dir p : sameLine dir p p.
Proof. by destruct dir. Qed.

Lemma sameLine_trans dir p q r : sameLine dir p q → sameLine dir q r → sameLine dir p r.
Proof. destruct dir; unfold sameLine; congruence. Qed.

Lemma lines_sameLine dir :
  Forall (λ L, ∀ p q, p ∈ L → q ∈ L → sameLine dir p q) (lines dir).
Proof.
  assert (H : Forall (λ L, Forall (λ p, Forall (λ q, sameLine dir p q) L) L) (lines dir)).
  { destruct dir; by apply (bool_decide_unpack _). }
  eapply Forall_impl; [exact H|]. simpl. intros L HL p q Hp Hq.
  rewrite Forall_forall in HL. specialize (HL p Hp). rewrite Forall_forall in HL.
  by apply HL.
Qed.

Lemma TileRel_refl dir t : TileRel dir t t.
Proof. split; [done|]. split; [apply sameLine_refl|]. split; [done|]. by left. Qed.

Lemma TileRel_trans dir t1 t2 t3 : TileRel dir t1 t2 → TileRel dir t2 t3 → TileRel dir t1 t3.
Proof.
  intros (Hi1 & Hl1 & Hs1 & Hv1) (Hi2 & Hl2 & Hs2 & Hv2).
  split; [congruence|]. split; [by eapply sameLine_trans|]. split; [congruence|].
  destruct Hv1 as [[Hm1 Hv1]|(Hm1 & Hm1' & Hv1)], Hv2 as [[Hm2 Hv2]|(Hm2 & Hm2' & Hv2)].
  - left. split; congruence.
  - right. repeat split; congruence.
  - right. repeat split; congruence.
  - congruence.
Qed.

Lemma Forall2_TileRel_refl dir st : Forall2 (TileRel dir) st st.
Proof. apply Forall_Forall2_diag, Forall_forall. intros t _. apply TileRel_refl. Qed.

Lemma Forall2_TileRel_trans dir st1 st2 st3 :
  Forall2 (TileRel dir) st1 st2 → Forall2 (TileRel dir) st2 st3 →
  Forall2 (TileRel dir) st1 st3.
Proof.
  intros H12. revert st3. induction H12 as [|t1 t2 st1 st2 Ht _ IH]; intros st3 H23.
  - by inversion H23.
  - inversion H23 as [|? t3 ? st3' Ht' H23']; subst. constructor; [|by apply IH].
    by eapply TileRel_trans.
Qed.

Lemma TileStep_rel dir L ms ms' :
  (∀ p q, p ∈ L → q ∈ L → sameLine dir p q) → TileStep L ms ms' →
  Forall2 (TileRel dir) (store ms) (store ms').
Proof.
  intros HL [k cur j pt q Hk _ _ _ _ _ Hj _ Hm|k cur q Hk _ HpL HqL _ _]; simpl.
  - rewrite <- (list_insert_id (store ms) j pt Hj) at 1.
    apply Forall2_insert; [apply Forall2_TileRel_refl|].
    split; [done|]. split; [apply sameLine_refl|]. split; [done|]. by right.
  - rewrite <- (list_insert_id (store ms) k cur Hk) at 1.
    apply Forall2_insert; [apply Forall2_TileRel_refl|].
    split; [done|]. split; [|split; [done|by left]].
    rewrite pos_relocate. by apply HL.
Qed.

Lemma Steps_rel dir L ms ms' :
  (∀ p q, p ∈ L → q ∈ L → sameLine dir p q) → rtc (TileStep L) ms ms' →
  Forall2 (TileRel dir) (store ms) (store ms').
Proof.
  intros HL. induction 1 as [|ms1 ms2 ms3 Hstep _ IH]; [apply Forall2_TileRel_refl|].
  eapply Forall2_TileRel_trans; [|exact IH]. by eapply TileStep_rel.
Qed.

Lemma runLines_rel dir ls :
  Forall (λ L, NoDup L ∧ Forall inRange L) ls →
  Forall (λ L, ∀ p q, p ∈ L → q ∈ L → sameLine dir p q) ls →
  ∀ ms, Consistent ms →
  ∃ ms', runLines ls ms = Some ms' ∧ Forall2 (TileRel dir) (store ms) (store ms').
Proof.
  induction 1 as [|L ls [Hnd Hr] _ IH]; intros Hsame ms Hc.
  - exists ms. split; [done|]. apply Forall2_TileRel_refl.
  - apply Forall_cons in Hsame as [HL Hsame].
    destruct (processLine_sound L Hnd Hr ms Hc) as (ms1 & Hrun1 & Hsteps1).
    destruct (IH Hsame ms1 (Steps_consistent _ _ _ Hsteps1 Hc)) as (ms' & Hrun & Hrel).
    exists ms'. cbn [runLines]. rewrite Hrun1. split; [done|].
    eapply Forall2_TileRel_trans; [|exact Hrel]. by eapply Steps_rel.
Qed.

(** Each tile object after the resolution, against the same object
    before it. *)
Lemma resolve_rel ts dir :
  WfBoard ts →
  ∃ ms, resolve ts dir = Some ms ∧ Forall2 (TileRel dir) (clearFlags <$> ts) (store ms).
Proof.
  intros Hwf. destruct (initMS_sound ts Hwf) as (g & Hinit & Hc).
  destruct (runLines_rel dir _ (lines_wf dir) (lines_sameLine dir) _ Hc)
    as (ms & Hrun & Hrel).
  exists ms. unfold resolve. rewrite Hinit. by split.
Qed.

(** X6.  The tiles after a move of a well-formed state: every tile is
    either the new tile (identifier [idSeq], [spawned], value 2 or 4) or a
    tile of the state before with the same identifier, in the same row
    (moves to the left and right) or column (moves up and down), not
    [spawned], and with the same value and [merged = false], or with
    twice the value and [merged = true]. *)
Theorem move_tiles w dir u v :
  Inv w → unitDraw u →
  ∃ w', move w dir u v = Some w' ∧
    ∀ t', t' ∈ tiles (game w') →
      (∃ t, t ∈ tiles (game w) ∧ survivor dir t t') ∨
      (id t' = idSeq w ∧ spawned t' = true ∧ merged t' = false ∧
       (value t' = 2 ∨ value t' = 4) ∧ ∀ t, t ∈ tiles (game w) → id t ≠ id t').
Proof.
  intros HI Hu.
  destruct (move_sound w dir u v HI Hu)
    as (g & ms & nextTiles & seq' & can & _ & Hres & _ & _ & _
        & Hmt & Hmf & _ & _ & _ & _ & Hmove).
  destruct (resolve_rel _ dir (inv_wf _ HI)) as (ms' & Hres' & Hrel).
  assert (ms' = ms) as -> by congruence.
  assert (Hsurv : ∀ t', t' ∈ store ms → ∃ t, t ∈ tiles (game w) ∧ survivor dir t t').
  { intros t' Ht'. apply list_elem_of_lookup in Ht' as [k Hk].
    destruct (Forall2_lookup_r _ _ _ _ _ Hrel Hk) as (t0 & Hk0 & Hi & Hl & Hs & Hv).
    rewrite list_lookup_fmap in Hk0.
    destruct (tiles (game w) !! k) as [t|] eqn:Hkt; [|done].
    injection Hk0 as <-. exists t. split; [by eapply list_elem_of_lookup_2|].
    unfold survivor. simpl in *. split; [done|]. split; [done|]. split; [done|].
    destruct Hv as [[? ?]|(_ & ? & ?)]; [by left|by right]. }
  eexists. split; [exact Hmove|]. cbn [tiles game]. intros t' Ht'.
  destruct (moved ms) eqn:Hmv.
  - destruct (Hmt eq_refl) as (p & _ & _ & -> & _).
    apply elem_of_app in Ht' as [Ht'|Ht'].
    + left. apply Hsurv. by apply list_elem_of_filter in Ht' as [_ ?].
    + right. apply list_elem_of_singleton in Ht' as ->. simpl.
      split; [done|]. split; [done|]. split; [done|]. split; [apply randomValue_cases|].
      intros t Ht. pose proof (proj1 (Forall_forall _ _) (inv_fresh _ HI) t Ht). simpl in *. lia.
  - destruct (Hmf eq_refl) as (-> & -> & _). left. by apply Hsurv.
Qed.

Lemma move_tiles_witness :
  let w := mkWorld 6 (mkState (board [(0, 0, 2); (0, 1, 2); (1, 1, 8); (1, 3, 8); (2, 0, 4)])
                              20 20 false false) in
  Inv w ∧ unitDraw (1 # 7) ∧
  ∃ w', move w right (1 # 7) (1 # 2) = Some w' ∧
    ∀ t', t' ∈ tiles (game w') →
      (∃ t, t ∈ tiles (game w) ∧ survivor right t t') ∨
      (id t' = idSeq w ∧ spawned t' = true ∧ merged t' = false ∧
       (value t' = 2 ∨ value t' = 4) ∧ ∀ t, t ∈ tiles (game w) → id t ≠ id t').
Proof.
  intros w.
  assert (HI : Inv w) by check_state.
  assert (Hu : unitDraw (1 # 7)) by done.
  split; [exact HI|]. split; [exact Hu|].
  exact (move_tiles w right (1 # 7) (1 # 2) HI Hu).
Defined.

(** ** When a move has an effect *)

Lemma unmerged_cons (o : option Tile) view :
  Forall (λ o : option Tile, ∀ t, o = Some t → merged t = false) (o :: view) →
  (∀ t, o = Some t → merged t = false) ∧
  Forall (λ o : option Tile, ∀ t, o = Some t → merged t = false) view.
Proof. apply Forall_cons. Qed.

Ltac split_eqb :=
  repeat (cbv -[Z.eqb Z.mul Z.add];
          match goal with |- context [Z.eqb ?a ?b] => destruct (Z.eqb a b) end);
  cbv -[Z.eqb Z.mul Z.add]; try reflexivity.

(** The loop on a line of four cells reports a move exactly when a tile
    can slide or two tiles can merge. *)
Lemma lineRun_moved (c0 c1 c2 c3 : Cell) (o0 o1 o2 o3 : option Tile) G B :
  Forall (λ o : option Tile, ∀ t, o = Some t → merged t = false) [o0; o1; o2; o3] →
  lmoved (lineRun [c0; c1; c2; c3] (mkLS [o0; o1; o2; o3] 0 G B) (seq 0 4))
  = B || lineMoves (viewValues [o0; o1; o2; o3]).
Proof.
  intros H. apply unmerged_cons in H as [H0 H]. apply unmerged_cons in H as [H1 H].
  apply unmerged_cons in H as [H2 H]. apply unmerged_cons in H as [H3 _].
  destruct o0 as [[i0 r0 k0 v0 s0 m0]|]; [specialize (H0 _ eq_refl); simpl in H0; subst m0|clear H0];
  (destruct o1 as [[i1 r1 k1 v1 s1 m1]|]; [specialize (H1 _ eq_refl); simpl in H1; subst m1|clear H1]);
  (destruct o2 as [[i2 r2 k2 v2 s2 m2]|]; [specialize (H2 _ eq_refl); simpl in H2; subst m2|clear H2]);
  (destruct o3 as [[i3 r3 k3 v3 s3 m3]|]; [specialize (H3 _ eq_refl); simpl in H3; subst m3|clear H3]);
  destruct B; split_eqb.
Qed.

Lemma lines_length dir : Forall (λ L, length L = 4%nat) (lines dir).
Proof. destruct dir; by apply (bool_decide_unpack _). Qed.

Lemma views_frame C ms ms' (ls : list (list Cell)) :
  rtc (TileStep C) ms ms' → Consistent ms → (∀ c, c ∈ concat ls → c ∉ C) →
  (λ L : list Cell, cellTile ms' <$> L) <$> ls = (λ L : list Cell, cellTile ms <$> L) <$> ls.
Proof.
  intros Hsteps Hc Hdisj. apply list_fmap_ext. intros i L Hi.
  eapply view_frame; eauto. intros c HcL. apply Hdisj.
  apply list_elem_of_In, in_concat. exists L.
  split; apply list_elem_of_In; [by eapply list_elem_of_lookup_2|done].
Qed.

(** The loop over the lines reports a move exactly when one of the lines
    allows one. *)
Lemma runLines_moved ls :
  Forall (λ L, NoDup L ∧ Forall inRange L) ls →
  Forall (λ L, length L = 4%nat) ls → NoDup (concat ls) →
  ∀ ms, Consistent ms →
  Forall (Forall (λ o : option Tile, ∀ t, o = Some t → merged t = false))
         ((λ L : list Cell, cellTile ms <$> L) <$> ls) →
  ∃ ms', runLines ls ms = Some ms' ∧
    moved ms' = moved ms || existsb (λ view, lineMoves (viewValues view))
                                    ((λ L : list Cell, cellTile ms <$> L) <$> ls).
Proof.
  induction 1 as [|L ls [Hnd Hr] _ IH]; intros Hlen Hdisj ms Hc Hun.
  - exists ms. split; [done|]. simpl. by rewrite orb_false_r.
  - apply Forall_cons in Hlen as [HL Hlen]. rewrite concat_cons in Hdisj.
    apply NoDup_app in Hdisj as (_ & Hd & Hdisj).
    rewrite fmap_cons in Hun. apply Forall_cons in Hun as [HunL Hun].
    destruct (processLine_lineRun L Hnd Hr ms Hc) as (ms1 & Hrun1 & _ & _ & Hmoved).
    destruct (processLine_sound L Hnd Hr ms Hc) as (ms1' & Hrun1' & Hsteps1).
    assert (ms1' = ms1) as -> by congruence.
    pose proof (Steps_consistent _ _ _ Hsteps1 Hc) as Hc1.
    assert (Hviews : (λ L : list Cell, cellTile ms1 <$> L) <$> ls = (λ L : list Cell, cellTile ms <$> L) <$> ls).
    { eapply views_frame; eauto. intros c Hin HcL. by apply (Hd c). }
    destruct (IH Hlen Hdisj ms1 Hc1) as (ms' & Hrun & Hmv); [by rewrite Hviews|].
    exists ms'. cbn [runLines]. rewrite Hrun1. split; [done|].
    rewrite Hmv, Hviews, Hmoved, fmap_cons. cbn [existsb].
    destruct L as [|c0 [|c1 [|c2 [|c3 [|]]]]]; try done.
    cbn [length fmap list_fmap] in *. rewrite lineRun_moved by done.
    by rewrite orb_assoc.
Qed.

Lemma views_init ts g (ls : list (list Cell)) :
  Consistent (mkMS (clearFlags <$> ts) g false 0 ∅) →
  existsb (λ view, lineMoves (viewValues view))
          ((λ L : list Cell, cellTile (mkMS (clearFlags <$> ts) g false 0 ∅) <$> L) <$> ls)
  = existsb (λ L, lineMoves (lineValues ts L)) ls.
Proof.
  intros Hc. induction ls as [|L ls IH]; [done|].
  rewrite fmap_cons. cbn [existsb]. by rewrite IH, lineValues_init.
Qed.

(** The resolution reports [moved] exactly when, on one of the lines of
    the direction, read in travel order, an empty cell comes before a tile
    or two tiles with the same value follow each other. *)
Lemma resolve_moved ts dir :
  WfBoard ts →
  ∃ ms, resolve ts dir = Some ms ∧
    moved ms = existsb (λ L, lineMoves (lineValues ts L)) (lines dir).
Proof.
  intros Hwf. destruct (initMS_sound ts Hwf) as (g & Hinit & Hc).
  destruct (runLines_moved _ (lines_wf dir) (lines_length dir) (lines_disjoint dir) _ Hc)
    as (ms & Hrun & Hmv).
  { apply Forall_fmap, Forall_forall. intros L _. apply view_init_unmerged. }
  exists ms. unfold resolve. rewrite Hinit. split; [done|].
  by rewrite Hmv, views_init.
Qed.

(** X7.  A move of a well-formed state has an effect exactly when, on one
    of the lines of its direction, read in travel order, an empty cell
    comes before a tile or two tiles with the same value follow each other
    (empty cells between them apart): then a tile is spawned and the
    counter advances; otherwise the tiles, the counter and the score stay
    as they are, the animation flags apart. *)
Theorem move_effect w dir u v :
  Inv w → unitDraw u →
  ∃ w', move w dir u v = Some w' ∧
    if existsb (λ L, lineMoves (lineValues (tiles (game w)) L)) (lines dir)
    then idSeq w' = idSeq w + 1 ∧
         ∃ t, last (tiles (game w')) = Some t ∧ id t = idSeq w ∧ spawned t = true
    else idSeq w' = idSeq w ∧ score (game w') = score (game w) ∧
         tiles (game w') = clearFlags <$> tiles (game w).
Proof.
  intros HI Hu.
  destruct (move_sound w dir u v HI Hu)
    as (g & ms & nextTiles & seq' & can & _ & Hres & _ & _ & _
        & Hmt & Hmf & _ & _ & _ & _ & Hmove).
  destruct (resolve_moved _ dir (inv_wf _ HI)) as (ms' & Hres' & Hmv).
  assert (ms' = ms) as -> by congruence.
  eexists. split; [exact Hmove|]. cbn [idSeq game tiles score]. rewrite <- Hmv.
  destruct (moved ms).
  - destruct (Hmt eq_refl) as (p & _ & _ & -> & ->). split; [done|].
    eexists. split; [apply last_snoc|]. done.
  - destruct (Hmf eq_refl) as (-> & -> & ->). simpl. split; [done|]. split; [lia|done].
Qed.

Lemma move_effect_witness :
  let w := mkWorld 6 (mkState (board [(0, 0, 2); (0, 1, 2); (1, 1, 8); (1, 3, 8); (2, 0, 4)])
                              20 20 false false) in
  Inv w ∧ unitDraw (1 # 7) ∧
  ∃ w', move w right (1 # 7) (1 # 2) = Some w' ∧
    if existsb (λ L, lineMoves (lineValues (tiles (game w)) L)) (lines right)
    then idSeq w' = idSeq w + 1 ∧
         ∃ t, last (tiles (game w')) = Some t ∧ id t = idSeq w ∧ spawned t = true
    else idSeq w' = idSeq w ∧ score (game w') = score (game w) ∧
         tiles (game w') = clearFlags <$> tiles (game w).
Proof.
  intros w.
  assert (HI : Inv w) by check_state.
  assert (Hu : unitDraw (1 # 7)) by done.
  split; [exact HI|]. split; [exact Hu|].
  exact (move_effect w right (1 # 7) (1 # 2) HI Hu).
Defined.

(** ** The detector and the moves *)

Lemma valueAt_None ts p : valueAt ts p = None ↔ ∀ t, t ∈ ts → pos t ≠ p.
Proof.
  unfold valueAt, tileAt. split.
  - intros H t Ht Hp.
    assert (Hin : t ∈ filter (λ t, pos t = p) ts) by (by apply list_elem_of_filter).
    destruct (filter (λ t, pos t = p) ts); [by apply elem_of_nil in Hin|done].
  - intros H. destruct (filter (λ t, pos t = p) ts) as [|t F] eqn:HF; [done|].
    assert (Hin : t ∈ filter (λ t, pos t = p) ts) by (rewrite HF; left).
    apply list_elem_of_filter in Hin as [Hp Hin]. by destruct (H t Hin).
Qed.

Lemma valueAt_Some ts p a :
  valueAt ts p = Some a → ∃ t, t ∈ ts ∧ pos t = p ∧ value t = a.
Proof.
  unfold valueAt, tileAt. intros H.
  destruct (filter (λ t, pos t = p) ts) as [|t F] eqn:HF; [done|].
  assert (Hin : t ∈ filter (λ t, pos t = p) ts) by (rewrite HF; left).
  apply list_elem_of_filter in Hin as [Hp Hin]. exists t. simpl in H. by simplify_eq.
Qed.

Lemma valueAt_tile ts t : t ∈ ts → is_Some (valueAt ts (pos t)).
Proof.
  intros Ht. destruct (valueAt ts (pos t)) eqn:H; [done|].
  by destruct (proj1 (valueAt_None _ _) H t Ht).
Qed.

Lemma hasGap_intro vs : ∀ i j a,
  (i < j)%nat → vs !! i = Some None → vs !! j = Some (Some a) → hasGap vs = true.
Proof.
  induction vs as [|o vs IH]; intros i j a Hij Hi Hj; [done|].
  destruct j as [|j]; [lia|]. simpl in Hj. destruct i as [|i]; simpl in Hi.
  - injection Hi as ->. simpl. apply orb_true_iff. left.
    apply existsb_exists. exists (Some a). split; [|done].
    apply list_elem_of_In. by eapply list_elem_of_lookup_2.
  - assert (hasGap vs = true) as Hg by (apply (IH i j a); [lia|done..]).
    destruct o; simpl; [done|]. rewrite Hg. apply orb_true_r.
Qed.

Lemma hasGap_elim vs : hasGap vs = true → ∃ i, vs !! i = Some None.
Proof.
  induction vs as [|[a|] vs IH]; intros H; [done| |by exists 0%nat].
  destruct (IH H) as [i Hi]. by exists (S i).
Qed.

Lemma lineMoves_pair vs : ∀ i a,
  vs !! i = Some (Some a) → vs !! S i = Some (Some a) → lineMoves vs = true.
Proof.
  unfold lineMoves, present.
  induction vs as [|o vs IH]; intros i a Hi Hj; [done|].
  destruct i as [|i]; simpl in Hi, Hj.
  - injection Hi as ->. destruct vs as [|o' vs]; [done|]. injection Hj as ->.
    rewrite !omap_cons. simpl. rewrite Z.eqb_refl. apply orb_true_r.
  - specialize (IH i a Hi Hj). apply orb_true_iff in IH as [Hg|Hp].
    + destruct o; simpl; rewrite Hg; [done|]. by rewrite orb_true_r.
    + apply orb_true_iff. right. destruct o as [b|]; rewrite omap_cons; [|done].
      destruct (omap (λ o, o) vs) as [|c l]; [done|]. simpl in *. rewrite Hp.
      apply orb_true_r.
Qed.

Lemma hasPair_elim l : hasPair l = true → ∃ i a, l !! i = Some a ∧ l !! S i = Some a.
Proof.
  induction l as [|a l IH]; [done|]. destruct l as [|b l]; [done|].
  intros H. change (((a =? b) || hasPair (b :: l)) = true) in H.
  apply orb_true_iff in H as [H|H].
  - apply Z.eqb_eq in H as ->. by exists 0%nat, b.
  - destruct (IH H) as (i & c & Hi & Hj). by exists (S i), c.
Qed.

Lemma present_full vs : (∀ i, vs !! i ≠ Some None) → vs = Some <$> present vs.
Proof.
  unfold present. induction vs as [|o vs IH]; intros H; [done|].
  destruct o as [a|]; [|by destruct (H 0%nat)].
  rewrite omap_cons, fmap_cons. f_equal. apply IH. intros i. apply (H (S i)).
Qed.

Lemma lines_cell dir p :
  inRange p → ∃ L, lines dir !! lineIx dir p = Some L ∧ L !! cellIx dir p = Some p.
Proof.
  destruct p as [r c]. unfold inRange, SIZE. simpl. intros [Hr Hc].
  assert (r = 0 ∨ r = 1 ∨ r = 2 ∨ r = 3) as Hr' by lia.
  assert (c = 0 ∨ c = 1 ∨ c = 2 ∨ c = 3) as Hc' by lia.
  destruct Hr' as [-> | [-> | [-> | ->]]], Hc' as [-> | [-> | [-> | ->]]], dir;
    vm_compute; eexists; split; reflexivity.
Qed.

Lemma lines_adjacent dir L i p q :
  L ∈ lines dir → L !! i = Some p → L !! S i = Some q → adjacent p q.
Proof.
  intros HL Hi Hj.
  assert (H : Forall (λ L : list Cell, Forall (λ pq : Cell * Cell, adjacent pq.1 pq.2)
                                         (zip L (tail L))) (lines dir)).
  { destruct dir; by apply (bool_decide_unpack _). }
  rewrite Forall_forall in H. specialize (H L HL). rewrite Forall_forall in H.
  apply (H (p, q)). apply (list_elem_of_lookup_2 _ i).
  apply lookup_zip_with_Some. exists p, q. split; [done|]. split; [done|].
  by rewrite lookup_tail.
Qed.

Lemma line_gap ts dir p q :
  inRange p → inRange q → lineIx dir p = lineIx dir q →
  (cellIx dir p < cellIx dir q)%nat → valueAt ts p = None → is_Some (valueAt ts q) →
  existsb (λ L, lineMoves (lineValues ts L)) (lines dir) = true.
Proof.
  intros Hp Hq Hline Hlt Hvp [a Hvq].
  destruct (lines_cell dir p Hp) as (L & HL & Hi).
  destruct (lines_cell dir q Hq) as (L' & HL' & Hj).
  rewrite <- Hline in HL'. assert (L' = L) as -> by congruence.
  apply existsb_exists. exists L.
  split; [apply list_elem_of_In; by eapply list_elem_of_lookup_2|].
  unfold lineMoves. apply orb_true_iff. left.
  apply (hasGap_intro _ (cellIx dir p) (cellIx dir q) a); [done|..];
    unfold lineValues; rewrite list_lookup_fmap; [by rewrite Hi, <- Hvp|by rewrite Hj, <- Hvq].
Qed.

Lemma line_pair ts dir p q a :
  inRange p → inRange q → lineIx dir p = lineIx dir q →
  cellIx dir q = S (cellIx dir p) → valueAt ts p = Some a → valueAt ts q = Some a →
  existsb (λ L, lineMoves (lineValues ts L)) (lines dir) = true.
Proof.
  intros Hp Hq Hline Hnext Hvp Hvq.
  destruct (lines_cell dir p Hp) as (L & HL & Hi).
  destruct (lines_cell dir q Hq) as (L' & HL' & Hj).
  rewrite <- Hline in HL'. assert (L' = L) as -> by congruence.
  apply existsb_exists. exists L.
  split; [apply list_elem_of_In; by eapply list_elem_of_lookup_2|].
  apply (lineMoves_pair _ (cellIx dir p) a);
    unfold lineValues; rewrite list_lookup_fmap; [by rewrite Hi, <- Hvp|].
  by rewrite <- Hnext, Hj, <- Hvq.
Qed.

(** On a full board without equal neighbours no line allows a move. *)
Lemma stuck_lines ts dir :
  ¬ hasEmptyCell ts → ¬ hasEqualNeighbours ts →
  existsb (λ L, lineMoves (lineValues ts L)) (lines dir) = false.
Proof.
  intros Hfull Hneq. apply not_true_iff_false. intros H.
  apply existsb_exists in H as (L & HL & Hm). apply list_elem_of_In in HL.
  pose proof (proj1 (Forall_forall _ _) (lines_wf dir) L HL) as [_ Hr].
  assert (Hsome : ∀ i, lineValues ts L !! i ≠ Some None).
  { intros i Hi. unfold lineValues in Hi. rewrite list_lookup_fmap in Hi.
    destruct (L !! i) as [c|] eqn:Hc; [|done]. injection Hi as Hi.
    apply Hfull. exists c. split; [|by apply valueAt_None].
    apply (proj1 (Forall_forall _ _) Hr). by eapply list_elem_of_lookup_2. }
  apply orb_true_iff in Hm as [Hg|Hp].
  - apply hasGap_elim in Hg as [i Hi]. by apply (Hsome i).
  - apply hasPair_elim in Hp as (i & a & Hi & Hj).
    pose proof (present_full _ Hsome) as Hvs.
    assert (Hi' : lineValues ts L !! i = Some (Some a))
      by (rewrite Hvs, list_lookup_fmap, Hi; done).
    assert (Hj' : lineValues ts L !! S i = Some (Some a))
      by (rewrite Hvs, list_lookup_fmap, Hj; done).
    unfold lineValues in Hi', Hj'. rewrite list_lookup_fmap in Hi', Hj'.
    destruct (L !! i) as [p|] eqn:Hp; [|done].
    destruct (L !! S i) as [q|] eqn:Hq; [|done].
    injection Hi' as Hi'. injection Hj' as Hj'.
    apply valueAt_Some in Hi' as (t1 & Ht1 & Hp1 & Hv1).
    apply valueAt_Some in Hj' as (t2 & Ht2 & Hp2 & Hv2).
    apply Hneq. exists t1, t2. split; [done|]. split; [done|]. split; [|congruence].
    rewrite Hp1, Hp2. by eapply lines_adjacent.
Qed.

Lemma NoDup_fmap_inj {A B} (f : A → B) (l : list A) x y :
  NoDup (f <$> l) → x ∈ l → y ∈ l → f x = f y → x = y.
Proof.
  intros Hnd Hx Hy Hf.
  apply list_elem_of_lookup in Hx as [i Hi]. apply list_elem_of_lookup in Hy as [j Hj].
  assert (i = j) as ->; [|congruence].
  apply (NoDup_lookup _ _ _ (f x) Hnd); rewrite list_lookup_fmap.
  - by rewrite Hi.
  - by rewrite Hj, Hf.
Qed.

(** Where there are a tile and an empty cell, or two equal neighbours, a
    line of one of the four directions allows a move. *)
Lemma free_lines ts :
  WfBoard ts → ts ≠ [] → hasEmptyCell ts ∨ hasEqualNeighbours ts →
  ∃ dir, existsb (λ L, lineMoves (lineValues ts L)) (lines dir) = true.
Proof.
  intros Hwf Hne [(p & Hp & Hfree)|(t1 & t2 & Ht1 & Ht2 & Hadj & Hv)].
  - destruct ts as [|t ts']; [done|]. set (ts := t :: ts') in *.
    assert (Ht : t ∈ ts) by left.
    pose proof (proj1 (Forall_forall _ _) (wf_range _ Hwf) t Ht) as Hrt.
    pose proof (valueAt_tile ts t Ht) as Hvt.
    pose proof (proj2 (valueAt_None ts p) Hfree) as Hvp.
    destruct p as [r' c']. unfold pos in Hrt, Hvt.
    generalize dependent (row t). generalize dependent (col t). intros c r Hrt Hvt.
    unfold inRange, SIZE in Hp, Hrt. simpl in Hp, Hrt.
    assert (Hx : inRange (r, c')) by (unfold inRange, SIZE; simpl; lia).
    destruct (valueAt ts (r, c')) as [a|] eqn:Hvx.
    + assert (r ≠ r') by congruence.
      destruct (decide (r' < r)).
      * exists up. apply (line_gap ts up (r', c') (r, c')); try done;
          unfold lineIx, cellIx, inRange, SIZE; simpl; lia.
      * exists down. apply (line_gap ts down (r', c') (r, c')); try done;
          unfold lineIx, cellIx, inRange, SIZE; simpl; lia.
    + assert (c ≠ c') by (intros ->; rewrite Hvx in Hvt; by destruct Hvt).
      destruct (decide (c' < c)).
      * exists left. apply (line_gap ts left (r, c') (r, c)); try done;
          unfold lineIx, cellIx, inRange, SIZE; simpl; lia.
      * exists right. apply (line_gap ts right (r, c') (r, c)); try done;
          unfold lineIx, cellIx, inRange, SIZE; simpl; lia.
  - pose proof (proj1 (Forall_forall _ _) (wf_range _ Hwf) t1 Ht1) as Hr1.
    pose proof (proj1 (Forall_forall _ _) (wf_range _ Hwf) t2 Ht2) as Hr2.
    assert (Hv1 : valueAt ts (pos t1) = Some (value t1)).
    { destruct (valueAt_tile ts t1 Ht1) as [a Ha]. rewrite Ha. f_equal.
      apply valueAt_Some in Ha as (t & Ht & Hp & <-).
      f_equal. symmetry. apply (NoDup_fmap_inj pos ts); [apply (wf_cells _ Hwf)|done..]. }
    assert (Hv2 : valueAt ts (pos t2) = Some (value t1)).
    { destruct (valueAt_tile ts t2 Ht2) as [a Ha]. rewrite Ha. f_equal.
      apply valueAt_Some in Ha as (t & Ht & Hp & <-). rewrite Hv.
      f_equal. symmetry. apply (NoDup_fmap_inj pos ts); [apply (wf_cells _ Hwf)|done..]. }
    unfold pos in Hr1, Hr2, Hv1, Hv2, Hadj.
    generalize dependent (row t1). generalize dependent (col t1).
    generalize dependent (row t2). generalize dependent (col t2).
    intros c2 r2 Hr2 Hv2 c1 r1 Hadj Hr1 Hv1.
    unfold adjacent in Hadj. unfold inRange, SIZE in Hr1, Hr2. cbn [fst snd] in *.
    assert ((r1 = r2 ∧ c2 = c1 + 1) ∨ (r1 = r2 ∧ c1 = c2 + 1) ∨
            (c1 = c2 ∧ r2 = r1 + 1) ∨ (c1 = c2 ∧ r1 = r2 + 1)) as Hcases by lia.
    destruct Hcases as [[-> ->]|[[-> ->]|[[-> ->]|[-> ->]]]].
    + exists left. apply (line_pair ts left (r2, c1) (r2, c1 + 1) (value t1)); try done;
        unfold lineIx, cellIx, inRange, SIZE; simpl; lia.
    + exists left. apply (line_pair ts left (r2, c2) (r2, c2 + 1) (value t1)); try done;
        unfold lineIx, cellIx, inRange, SIZE; simpl; lia.
    + exists up. apply (line_pair ts up (r1, c2) (r1 + 1, c2) (value t1)); try done;
        unfold lineIx, cellIx, inRange, SIZE; simpl; lia.
    + exists up. apply (line_pair ts up (r2, c2) (r2 + 1, c2) (value t1)); try done;
        unfold lineIx, cellIx, inRange, SIZE; simpl; lia.
Qed.

(** X8.  Once [over] is true in a well-formed state, no move has an
    effect, whatever its direction and its draws: the move returns the
    same tiles (with cleared animation flags), the same score and the same
    counter, and [over] stays true. *)
Theorem game_over_absorbing w dir u v :
  Inv w → over (game w) = true →
  ∃ w', move w dir u v = Some w' ∧
    tiles (game w') = clearFlags <$> tiles (game w) ∧
    score (game w') = score (game w) ∧ idSeq w' = idSeq w ∧
    won (game w') = false ∧ over (game w') = true.
Proof.
  intros HI Hover.
  destruct (proj1 (inv_over _ HI) Hover) as [Hwon Hcan].
  destruct (canAnyMove_spec _ (inv_wf _ HI)) as (can & Hcan' & Hspec).
  assert (can = false) as -> by congruence.
  destruct (resolve_moved _ dir (inv_wf _ HI)) as (ms & Hres & Hmv).
  rewrite stuck_lines in Hmv.
  2:{ intros H. discriminate (proj2 Hspec (or_introl H)). }
  2:{ intros H. discriminate (proj2 Hspec (or_intror H)). }
  destruct (move_noop w dir u v ms HI Hres Hmv) as (can & Hcan'' & _ & _ & Hmove).
  assert (can = false) as -> by congruence.
  eexists. split; [exact Hmove|]. simpl. by rewrite Hwon.
Qed.

Lemma game_over_absorbing_witness :
  let w := mkWorld 17 (mkState
     (board [(0, 0, 2); (0, 1, 4); (0, 2, 2); (0, 3, 4);
             (1, 0, 4); (1, 1, 2); (1, 2, 4); (1, 3, 2);
             (2, 0, 2); (2, 1, 4); (2, 2, 2); (2, 3, 4);
             (3, 0, 4); (3, 1, 2); (3, 2, 4); (3, 3, 8)]) 40 40 false true) in
  Inv w ∧ over (game w) = true ∧
  ∃ w', move w up (1 # 2) (1 # 2) = Some w' ∧
    tiles (game w') = clearFlags <$> tiles (game w) ∧
    score (game w') = score (game w) ∧ idSeq w' = idSeq w ∧
    won (game w') = false ∧ over (game w') = true.
Proof.
  intros w.
  assert (HI : Inv w) by (apply (Inv_check _ false); done).
  assert (Hover : over (game w) = true) by done.
  split; [exact HI|]. split; [exact Hover|].
  exact (game_over_absorbing w up (1 # 2) (1 # 2) HI Hover).
Defined.

(** X9.  On a well-formed board with at least one tile, [canAnyMove]
    answers true exactly when the resolution of one of the four directions
    reports [moved]: the detector neither ends a game in which a move is
    left nor lets one go on in which none is. *)
Theorem detector_exact ts :
  WfBoard ts → ts ≠ [] →
  (canAnyMove ts = Some true ↔ ∃ dir ms, resolve ts dir = Some ms ∧ moved ms = true).
Proof.
  intros Hwf Hne.
  destruct (canAnyMove_spec _ Hwf) as (can & Hcan & Hspec). rewrite Hcan. split.
  - intros [= ->]. destruct (free_lines ts Hwf Hne (proj1 Hspec eq_refl)) as [dir Hdir].
    destruct (resolve_moved ts dir Hwf) as (ms & Hres & Hmv).
    exists dir, ms. by rewrite Hmv.
  - intros (dir & ms & Hres & Hmv). f_equal. destruct can; [done|].
    destruct (resolve_moved ts dir Hwf) as (ms' & Hres' & Hmv').
    assert (ms' = ms) as -> by congruence.
    rewrite stuck_lines in Hmv'; [congruence|..].
    + intros H. discriminate (proj2 Hspec (or_introl H)).
    + intros H. discriminate (proj2 Hspec (or_intror H)).
Qed.

Lemma detector_exact_witness :
  let ts := board [(0, 0, 2); (0, 1, 4); (0, 2, 2); (0, 3, 4);
                   (1, 0, 4); (1, 1, 2); (1, 2, 4); (1, 3, 2);
                   (2, 0, 2); (2, 1, 4); (2, 2, 2); (2, 3, 4);
                   (3, 0, 4); (3, 1, 2); (3, 2, 8); (3, 3, 8)] in
  WfBoard ts ∧ ts ≠ [] ∧
  (canAnyMove ts = Some true ↔ ∃ dir ms, resolve ts dir = Some ms ∧ moved ms = true).
Proof.
  intros ts.
  assert (Hwf : WfBoard ts) by check_board.
  assert (Hne : ts ≠ []) by done.
  split; [exact Hwf|]. split; [exact Hne|].
  exact (detector_exact ts Hwf Hne).
Defined.

(** The empty board of the state on mount is the one board on which the
    detector answers true although no move has an effect. *)
Example empty_board_has_no_move :
  canAnyMove [] = Some true ∧
  (λ d, moved <$> resolve [] d) <$> [up; down; left; right]
  = [Some false; Some false; Some false; Some false].
Proof. split; reflexivity. Qed.

(** ** The 2048 tile *)

Lemma target_live ms :
  Exists (λ t, TARGET ≤ value t) (filtered ms) ↔
  ∃ i t, store ms !! i = Some t ∧ (id t ∉ toRemove ms) ∧ TARGET ≤ value t.
Proof.
  rewrite Exists_exists. unfold filtered. split.
  - intros (t & Ht & Hv). apply list_elem_of_filter in Ht as [Hid Ht].
    apply list_elem_of_lookup in Ht as [i Hi]. by exists i, t.
  - intros (i & t & Hi & Hid & Hv). exists t. split; [|done].
    apply list_elem_of_filter. split; [done|]. by eapply list_elem_of_lookup_2.
Qed.

(** A tile of at least 2048 stays on the board: the loop moves it, doubles
    it, or merges it into a tile that it doubles. *)
Lemma TileStep_target C ms ms' :
  Consistent ms → TileStep C ms ms' →
  Exists (λ t, TARGET ≤ value t) (filtered ms) →
  Exists (λ t, TARGET ≤ value t) (filtered ms').
Proof.
  intros Hc Hstep. rewrite !target_live. intros (i & t & Hi & Hid & Hv).
  destruct Hstep as [k cur j pt q Hk Hgk _ _ Hq Hgq Hj Hval _|k cur q Hk _ _ _ _ _];
    cbn [absorbed placed store toRemove].
  - destruct (cons_grid _ Hc _ _ Hgq) as (_ & pt' & Hj' & Hpq & Hlive).
    assert (pt' = pt) as -> by congruence.
    assert (Hjk : j ≠ k).
    { intros ->. assert (pt = cur) as -> by congruence.
      destruct (cons_grid _ Hc _ _ Hgk) as (_ & c' & Hk' & Hpc & _). congruence. }
    assert (Hne : id pt ≠ id cur).
    { intros Heq. apply Hjk. by eapply (id_inj (store ms)); [apply (cons_ids _ Hc)|..]. }
    destruct (decide (i = k)) as [->|Hik]; [|destruct (decide (i = j)) as [->|Hij]].
    + assert (t = cur) as -> by congruence.
      exists j, (upgrade pt). split; [|split].
      * apply list_lookup_insert_eq. by eapply lookup_lt_Some.
      * simpl. set_solver.
      * simpl. unfold TARGET in *. lia.
    + assert (t = pt) as -> by congruence.
      exists j, (upgrade pt). split; [|split].
      * apply list_lookup_insert_eq. by eapply lookup_lt_Some.
      * simpl. set_solver.
      * simpl. unfold TARGET in *. lia.
    + exists i, t. split; [|split; [|done]].
      * by rewrite list_lookup_insert_ne.
      * assert (id t ≠ id cur); [|set_solver].
        intros Heq. apply Hik. by eapply (id_inj (store ms)); [apply (cons_ids _ Hc)|..].
  - destruct (decide (i = k)) as [->|Hik].
    + assert (t = cur) as -> by congruence.
      exists k, (relocate cur q). split; [|done].
      apply list_lookup_insert_eq. by eapply lookup_lt_Some.
    + exists i, t. split; [|done]. by rewrite list_lookup_insert_ne.
Qed.

Lemma Steps_target C ms ms' :
  rtc (TileStep C) ms ms' → Consistent ms →
  Exists (λ t, TARGET ≤ value t) (filtered ms) →
  Exists (λ t, TARGET ≤ value t) (filtered ms').
Proof.
  induction 1 as [|ms1 ms2 ms3 Hstep _ IH]; intros Hc Hex; [done|].
  apply IH; [by eapply TileStep_consistent|by eapply TileStep_target].
Qed.

(** X10.  In every reachable state [won] is true exactly when a tile of
    value at least 2048 is on the board: such a tile never leaves the
    board before the next new game, since a merge that consumes it doubles
    the tile that absorbs it. *)
Theorem won_iff_target_tile w :
  reachable w →
  (won (game w) = true ↔ Exists (λ t, TARGET ≤ value t) (tiles (game w))).
Proof.
  intros Hreach. split; [|apply (inv_won _ (reachable_Inv _ Hreach))].
  induction Hreach as [|w b _ IH|w u1 v1 u2 v2 w' _ _ Hu1 Hu2 Hnew
                       |w dir u v w' Hreach IH Hu Hmove]; [done|exact IH| |].
  - destruct (newGame_sound w u1 v1 u2 v2 Hu1 Hu2) as (p1 & p2 & _ & _ & Hnew').
    rewrite Hnew in Hnew'. by injection Hnew' as ->.
  - destruct (move_sound w dir u v (reachable_Inv _ Hreach) Hu)
      as (g & ms & nextTiles & seq' & can & _ & _ & Hc0 & _ & Hsteps
          & Hmt & Hmf & _ & _ & _ & _ & Hmove').
    rewrite Hmove in Hmove'. injection Hmove' as ->. cbn [game won tiles].
    intros Hwon.
    assert (Hex : Exists (λ t, TARGET ≤ value t) (filtered ms)).
    { apply orb_true_iff in Hwon as [Hwon|Hex]; [|by apply existsb_target].
      eapply Steps_target; [exact Hsteps|exact Hc0|].
      rewrite filtered_init. apply (Exists_clearFlags (λ x, TARGET ≤ x)). by apply IH. }
    destruct (moved ms) eqn:Hmv.
    + destruct (Hmt eq_refl) as (p & _ & _ & -> & _). apply Exists_app. by left.
    + destruct (Hmf eq_refl) as (-> & -> & _). by rewrite filtered_init in Hex.
Qed.

Lemma won_iff_target_tile_witness :
  let w := mkWorld 4 (mkState [mkTile 1 3 0 4 false false; mkTile 2 3 3 4 false false;
                               mkTile 3 0 3 2 true false] 0 0 false false) in
  reachable w ∧
  (won (game w) = true ↔ Exists (λ t, TARGET ≤ value t) (tiles (game w))).
Proof.
  intros w.
  assert (Hreach : reachable w).
  { apply (reach_move (mkWorld 3 (mkState [mkTile 1 0 0 4 true false;
                                            mkTile 2 2 3 4 true false]
                                           0 0 false false)) down (1 # 4) (1 # 2));
      [|done|reflexivity].
    apply (reach_newGame initial 0 0 (2 # 3) 0); [apply reach_initial|done|done|].
    reflexivity. }
  split; [exact Hreach|].
  exact (won_iff_target_tile w Hreach).
Defined.

(** Two tiles of 2048 merge into one of 4096, and [won] stays true. *)
Example merge_of_two_2048 :
  let w := mkWorld 3 (mkState (board [(0, 0, 2048); (0, 1, 2048)]) 0 0 true false) in
  (λ w', (won (game w'), value <$> tiles (game w')))
    <$> move w left (1 # 2) (1 # 2) = Some (true, [4096; 2]).
Proof. vm_compute. reflexivity. Qed.

(** * The view *)

(** ** The overlay *)

(** X11.  In every reachable state the overlay shows the text of the
    reached 2048 exactly when [won] is true, and the text of the game
    over exactly when [won] is false, the board holds a tile and the
    resolution of none of the four directions reports a move; the two
    flags are never both true. *)
Theorem overlay_banner w :
  reachable w →
  (overlay (game w) = Some WinBanner ↔ won (game w) = true) ∧
  (overlay (game w) = Some GameOverBanner ↔
     won (game w) = false ∧ tiles (game w) ≠ [] ∧
     ∀ dir, ∃ ms, resolve (tiles (game w)) dir = Some ms ∧ moved ms = false) ∧
  (overlay (game w) = None ↔ won (game w) = false ∧ over (game w) = false).
Proof.
  intros Hreach. pose proof (reachable_Inv _ Hreach) as HI.
  pose proof (inv_over _ HI) as Hover.
  destruct (canAnyMove_spec _ (inv_wf _ HI)) as (can & Hcan & Hspec).
  rewrite Hcan in Hover.
  assert (Hstuck : can = false ↔ tiles (game w) ≠ [] ∧
            ∀ dir, ∃ ms, resolve (tiles (game w)) dir = Some ms ∧ moved ms = false).
  { split.
    - intros ->. split.
      + intros Hnil. assert (true = false); [|done]. symmetry. apply Hspec. left.
        exists (0, 0). split; [done|]. rewrite Hnil. by intros t Ht%elem_of_nil.
      + intros dir. destruct (resolve_moved _ dir (inv_wf _ HI)) as (ms & Hres & Hmv).
        exists ms. split; [done|]. rewrite Hmv. apply stuck_lines.
        * intros H. discriminate (proj2 Hspec (or_introl H)).
        * intros H. discriminate (proj2 Hspec (or_intror H)).
    - intros [Hne Hall]. destruct can; [|done].
      destruct (free_lines _ (inv_wf _ HI) Hne (proj1 Hspec eq_refl)) as [dir Hdir].
      destruct (Hall dir) as (ms & Hres & Hmv).
      destruct (resolve_moved _ dir (inv_wf _ HI)) as (ms' & Hres' & Hmv').
      congruence. }
  unfold overlay.
  destruct (over (game w)) eqn:Ho, (won (game w)) eqn:Hw; simpl.
  - destruct (proj1 Hover eq_refl) as [? _]. done.
  - destruct (proj1 Hover eq_refl) as [_ Hc]. assert (can = false) as Hcf by congruence.
    split; [naive_solver|]. split; [|naive_solver]. split; [|done]. intros _.
    split; [done|]. by apply Hstuck.
  - split; [done|]. split; [naive_solver|]. naive_solver.
  - split; [naive_solver|]. split; [|done]. split; [done|]. intros (_ & Hne & Hall).
    assert (can = false) as -> by (by apply Hstuck).
    assert (false = true); [|done]. by apply Hover.
Qed.

Lemma overlay_banner_witness :
  let w := mkWorld 4 (mkState [mkTile 1 3 0 4 false false; mkTile 2 3 3 4 false false;
                               mkTile 3 0 3 2 true false] 0 0 false false) in
  reachable w ∧
  (overlay (game w) = Some WinBanner ↔ won (game w) = true) ∧
  (overlay (game w) = Some GameOverBanner ↔
     won (game w) = false ∧ tiles (game w) ≠ [] ∧
     ∀ dir, ∃ ms, resolve (tiles (game w)) dir = Some ms ∧ moved ms = false) ∧
  (overlay (game w) = None ↔ won (game w) = false ∧ over (game w) = false).
Proof.
  intros w.
  assert (Hreach : reachable w).
  { apply (reach_move (mkWorld 3 (mkState [mkTile 1 0 0 4 true false;
                                            mkTile 2 2 3 4 true false]
                                           0 0 false false)) down (1 # 4) (1 # 2));
      [|done|reflexivity].
    apply (reach_newGame initial 0 0 (2 # 3) 0); [apply reach_initial|done|done|].
    reflexivity. }
  split; [exact Hreach|].
  exact (overlay_banner w Hreach).
Defined.

(** ** Swipes *)

(** X12.  A press at [(x0, y0)] followed by a release at [(x1, y1)]
    triggers at most one move: to the right or to the left when the
    horizontal displacement is at least 24 pixels and larger than the
    vertical one, down or up when the vertical displacement is at least 24
    pixels and not smaller than the horizontal one, and none when both are
    below 24 pixels.  The swipe back triggers the opposite move, and a
    second release without a press triggers none. *)
Theorem swipe_direction s x0 y0 x1 y1 :
  let r := onUp (onDown s x0 y0) x1 y1 in
  let dx := x1 - x0 in
  let dy := y1 - y0 in
  (r.2 = Some right ↔ 24 ≤ dx ∧ Z.abs dy < dx) ∧
  (r.2 = Some left ↔ dx ≤ -24 ∧ Z.abs dy < - dx) ∧
  (r.2 = Some down ↔ 24 ≤ dy ∧ Z.abs dx ≤ dy) ∧
  (r.2 = Some up ↔ dy ≤ -24 ∧ Z.abs dx ≤ - dy) ∧
  (r.2 = None ↔ Z.abs dx < 24 ∧ Z.abs dy < 24) ∧
  (onUp (onDown s x1 y1) x0 y0).2 = opposite <$> r.2 ∧
  ∀ x y, onUp r.1 x y = (r.1, None).
Proof.
  unfold onUp, onDown, threshold. cbn [active startX startY negb].
  destruct (Z.ltb_spec (Z.abs (x1 - x0)) 24), (Z.ltb_spec (Z.abs (y1 - y0)) 24),
    (Z.ltb_spec (Z.abs (x0 - x1)) 24), (Z.ltb_spec (Z.abs (y0 - y1)) 24); try lia;
    cbn [andb fst snd];
    rewrite ?Z.gtb_ltb;
    repeat match goal with
           | |- context [?a <? ?b] => destruct (Z.ltb_spec a b)
           end; try lia; cbn [fst snd fmap option_fmap option_map opposite active negb];
    repeat split; try done; try lia; intros; try lia; try done.
Qed.

(** ** The layout of the tiles *)

Lemma cellSize_bounds iw iw' :
  let sizePx := useResponsiveBoardSize iw in
  let gap := useResponsiveGap iw' in
  let c := cellSize sizePx gap in
  0 < gap ∧ 0 < c ∧ 4 * c + 3 * gap ≤ sizePx.
Proof.
  unfold useResponsiveBoardSize, useResponsiveGap, cellSize, SIZE.
  destruct iw as [iw|], iw' as [iw'|];
    repeat match goal with
           | |- context [?a <? ?b] => destruct (Z.ltb_spec a b)
           end; by vm_compute.
Qed.

(** X13.  Whatever the width of the window when each of the two hooks
    last read it, and before they have read it, the squares that
    [TileView] draws for the tiles of a well-formed state lie within the
    board, and the squares of two of its tiles are at least [gap] pixels
    apart: tiles never overlap. *)
Theorem tiles_layout w iw iw' :
  Inv w →
  let sizePx := useResponsiveBoardSize iw in
  let gap := useResponsiveGap iw' in
  let c := cellSize sizePx gap in
  Forall (inside sizePx c gap) (tiles (game w)) ∧
  ∀ t1 t2, t1 ∈ tiles (game w) → t2 ∈ tiles (game w) → t1 ≠ t2 → apart c gap t1 t2.
Proof.
  intros HI sizePx gap c.
  destruct (cellSize_bounds iw iw') as (Hg & Hc & Hfit). fold sizePx gap c in Hg, Hc, Hfit.
  pose proof (inv_wf _ HI) as Hwf. split.
  - apply Forall_forall. intros t Ht.
    pose proof (proj1 (Forall_forall _ _) (wf_range _ Hwf) t Ht) as Hr.
    unfold inRange, SIZE, pos in Hr. simpl in Hr.
    unfold inside, translate. nia.
  - intros t1 t2 Ht1 Ht2 Hne.
    pose proof (proj1 (Forall_forall _ _) (wf_range _ Hwf) t1 Ht1) as Hr1.
    pose proof (proj1 (Forall_forall _ _) (wf_range _ Hwf) t2 Ht2) as Hr2.
    assert (Hpos : pos t1 ≠ pos t2).
    { intros Heq. apply Hne. by apply (NoDup_fmap_inj pos (tiles (game w)));
        [apply (wf_cells _ Hwf)|..]. }
    unfold inRange, SIZE, pos in Hr1, Hr2, Hpos. simpl in Hr1, Hr2.
    unfold apart, translate.
    assert (col t1 < col t2 ∨ col t2 < col t1 ∨ row t1 < row t2 ∨ row t2 < row t1)
      as [H|[H|[H|H]]] by (destruct (decide (col t1 = col t2)), (decide (row t1 = row t2));
                            [congruence|lia..]).
    + left. nia.
    + right. left. nia.
    + right. right. left. nia.
    + right. right. right. nia.
Qed.

Lemma tiles_layout_witness :
  let w := mkWorld 6 (mkState (board [(0, 0, 2); (0, 1, 2); (1, 1, 8); (1, 3, 8); (2, 0, 4)])
                              20 20 false false) in
  Inv w ∧
  let sizePx := useResponsiveBoardSize (Some 1280) in
  let gap := useResponsiveGap (Some 1280) in
  let c := cellSize sizePx gap in
  Forall (inside sizePx c gap) (tiles (game w)) ∧
  ∀ t1 t2, t1 ∈ tiles (game w) → t2 ∈ tiles (game w) → t1 ≠ t2 → apart c gap t1 t2.
Proof.
  intros w.
  assert (HI : Inv w) by check_state.
  split; [exact HI|].
  exact (tiles_layout w (Some 1280) (Some 1280) HI).
Defined.

(** On a window of 1280 pixels the board is 460 pixels wide; with the gap
    of 16 pixels the tiles are 103 pixels wide, and the tile of the last
    row and column is drawn at 357 pixels from the left and from the top. *)
Example layout_1280 :
  let sizePx := useResponsiveBoardSize (Some 1280) in
  let gap := useResponsiveGap (Some 1280) in
  (sizePx, gap, cellSize sizePx gap,
   translate (mkTile 1 3 3 2 false false) (cellSize sizePx gap) gap)
  = (460, 16, 103, (357, 357)).
Proof. reflexivity. Qed.

(** * The resolution against the textbook rule *)

(** The loop on a line of four cells computes [slide] and [lineGain]. *)
Lemma lineRun_slide (c0 c1 c2 c3 : Cell) (o0 o1 o2 o3 : option Tile) G B :
  Forall (λ o : option Tile, ∀ t, o = Some t → merged t = false) [o0; o1; o2; o3] →
  let a := lineRun [c0; c1; c2; c3] (mkLS [o0; o1; o2; o3] 0 G B) (seq 0 4) in
  viewValues (lview a) = slide (viewValues [o0; o1; o2; o3]) ∧
  lgain a = G + lineGain (viewValues [o0; o1; o2; o3]).
Proof.
  intros H. apply unmerged_cons in H as [H0 H]. apply unmerged_cons in H as [H1 H].
  apply unmerged_cons in H as [H2 H]. apply unmerged_cons in H as [H3 _].
  destruct o0 as [[i0 r0 k0 v0 s0 m0]|]; [specialize (H0 _ eq_refl); simpl in H0; subst m0|clear H0];
  (destruct o1 as [[i1 r1 k1 v1 s1 m1]|]; [specialize (H1 _ eq_refl); simpl in H1; subst m1|clear H1]);
  (destruct o2 as [[i2 r2 k2 v2 s2 m2]|]; [specialize (H2 _ eq_refl); simpl in H2; subst m2|clear H2]);
  (destruct o3 as [[i3 r3 k3 v3 s3 m3]|]; [specialize (H3 _ eq_refl); simpl in H3; subst m3|clear H3]);
  split_eqb; (split; [reflexivity|lia]).
Qed.

Lemma slide_fixed (o0 o1 o2 o3 : option Z) :
  slide [o0; o1; o2; o3] = [o0; o1; o2; o3] ↔ lineMoves [o0; o1; o2; o3] = false.
Proof.
  destruct o0 as [v0|], o1 as [v1|], o2 as [v2|], o3 as [v3|];
    repeat (cbv -[Z.eqb Z.mul];
            match goal with |- context [Z.eqb ?a ?b] => destruct (Z.eqb_spec a b) end);
    cbv -[Z.eqb Z.mul]; (split; intros H; [try discriminate H; try reflexivity|]);
    try discriminate H; try reflexivity.
Qed.

Lemma resolve_slide ts dir L :
  WfBoard ts → L ∈ lines dir →
  ∃ ms, resolve ts dir = Some ms ∧
    lineValues (filtered ms) L = slide (lineValues ts L).
Proof.
  intros Hwf HL.
  pose proof (proj1 (Forall_forall _ _) (lines_length dir) L HL) as Hlen.
  apply list_elem_of_split in HL as (pre & post & Hlines).
  destruct (resolve_line ts dir pre L post Hwf Hlines)
    as (ms0 & ms1 & ms2 & ms & view0 & _ & _ & _ & _ & Hres & Hvals & Hun & Hview & _).
  exists ms. split; [done|].
  destruct L as [|c0 [|c1 [|c2 [|c3 [|]]]]]; try done.
  destruct view0 as [|o0 [|o1 [|o2 [|o3 [|]]]]]; try done.
  rewrite lineValues_view, Hview, <- Hvals.
  by apply lineRun_slide.
Qed.





Example slide_examples :
  slide [Some 2; Some 2; None; Some 2] = [Some 4; Some 2; None; None] ∧
  slide [Some 4; None; Some 4; Some 8] = [Some 8; Some 8; None; None] ∧
  slide [None; Some 2; Some 4; Some 4] = [Some 2; Some 8; None; None] ∧
  lineGain [Some 2; Some 2; Some 4; Some 4] = 12.
Proof. repeat split. Qed.

(** X15.  The resolution of a move on a well-formed board reports
    [moved] exactly when it changes the board: [moved] is false if and
    only if every cell holds the same value, or nothing, before and after
    it. *)
Theorem moved_iff_changed ts dir :
  WfBoard ts →
  ∃ ms, resolve ts dir = Some ms ∧
    (moved ms = false ↔ ∀ p, inRange p → valueAt (filtered ms) p = valueAt ts p).
Proof.
  intros Hwf.
  destruct (resolve_sound ts dir Hwf) as (g & ms & _ & Hres & Hc0 & _ & Hsteps).
  exists ms. split; [done|]. split.
  - intros Hmv p _.
    destruct (Steps_effect _ _ _ Hsteps Hc0) as [->|[Hmv' _]]; [|congruence].
    rewrite filtered_init. apply valueAt_clearFlags.
  - intros Hsame.
    destruct (resolve_moved ts dir Hwf) as (ms' & Hres' & Hmv).
    assert (ms' = ms) as -> by congruence.
    rewrite Hmv. apply not_true_iff_false. intros Hex.
    apply existsb_exists in Hex as (L & HL & Hm). apply list_elem_of_In in HL.
    destruct (resolve_slide ts dir L Hwf HL) as (ms' & Hres'' & Hs).
    assert (ms' = ms) as -> by congruence.
    pose proof (proj1 (Forall_forall _ _) (lines_wf dir) L HL) as [_ Hr].
    pose proof (proj1 (Forall_forall _ _) (lines_length dir) L HL) as Hlen.
    assert (Heq : lineValues (filtered ms) L = lineValues ts L).
    { apply list_fmap_ext. intros i c Hi. apply Hsame.
      apply (proj1 (Forall_forall _ _) Hr). by eapply list_elem_of_lookup_2. }
    rewrite Heq in Hs. symmetry in Hs.
    destruct L as [|c0 [|c1 [|c2 [|c3 [|]]]]]; try done.
    unfold lineValues in Hs, Hm. cbn [fmap list_fmap] in Hs, Hm.
    apply slide_fixed in Hs. congruence.
Qed.

Lemma moved_iff_changed_witness :
  let ts := board [(0, 0, 2); (0, 1, 2); (0, 3, 2); (1, 1, 8); (1, 3, 8); (2, 0, 4)] in
  WfBoard ts ∧
  ∃ ms, resolve ts up = Some ms ∧
    (moved ms = false ↔ ∀ p, inRange p → valueAt (filtered ms) p = valueAt ts p).
Proof.
  intros ts.
  assert (Hwf : WfBoard ts) by check_board.
  split; [exact Hwf|].
  exact (moved_iff_changed ts up Hwf).
Defined.

(** * The sum of the values *)

Lemma total_filtered ms : total (filtered ms) = liveTotal (toRemove ms) (store ms).
Proof.
  unfold filtered. induction (store ms) as [|t st IH]; [done|].
  rewrite filter_cons. cbn [liveTotal]. unfold liveValue at 1.
  destruct (decide (id t ∉ toRemove ms)), (decide (id t ∈ toRemove ms)); try done.
  cbn [total]. by rewrite IH.
Qed.

Lemma liveTotal_insert R st : ∀ j x y,
  st !! j = Some x →
  liveTotal R (<[j := y]> st) = liveTotal R st - liveValue R x + liveValue R y.
Proof.
  induction st as [|t st IH]; intros j x y Hj; [done|].
  destruct j as [|j]; simpl in Hj.
  - injection Hj as ->. simpl. lia.
  - simpl. rewrite (IH j x y Hj). lia.
Qed.

Lemma liveTotal_other R st i :
  (∀ t, t ∈ st → id t ≠ i) → liveTotal ({[i]} ∪ R) st = liveTotal R st.
Proof.
  induction st as [|t st IH]; intros Hne; [done|].
  cbn [liveTotal].
  rewrite IH by (intros t' Ht'; apply Hne; by right).
  assert (id t ≠ i) by (apply Hne; left). unfold liveValue.
  destruct (decide (id t ∈ {[i]} ∪ R)), (decide (id t ∈ R)); try done; set_solver.
Qed.

Lemma liveTotal_remove R st : ∀ k cur,
  NoDup (id <$> st) → st !! k = Some cur → id cur ∉ R →
  liveTotal ({[id cur]} ∪ R) st = liveTotal R st - value cur.
Proof.
  induction st as [|t st IH]; intros k cur Hnd Hk Hlive; [done|].
  rewrite fmap_cons in Hnd. apply NoDup_cons in Hnd as [Hnotin Hnd].
  cbn [liveTotal].
  destruct k as [|k]; simpl in Hk.
  - injection Hk as ->. rewrite liveTotal_other.
    2:{ intros t Ht Heq. apply Hnotin. apply list_elem_of_fmap. by exists t. }
    unfold liveValue.
    destruct (decide (id cur ∈ {[id cur]} ∪ R)), (decide (id cur ∈ R)); try done; [lia|set_solver].
  - rewrite (IH k cur Hnd Hk Hlive).
    assert (id t ≠ id cur).
    { intros Heq. apply Hnotin. rewrite Heq. apply list_elem_of_fmap. exists cur.
      split; [done|]. by eapply list_elem_of_lookup_2. }
    unfold liveValue.
    destruct (decide (id t ∈ {[id cur]} ∪ R)), (decide (id t ∈ R)); try lia; set_solver.
Qed.

(** An iteration of the loop keeps the sum of the values of the tiles
    that no merge has consumed. *)
Lemma TileStep_total C ms ms' :
  Consistent ms → TileStep C ms ms' → total (filtered ms') = total (filtered ms).
Proof.
  intros Hc Hstep. rewrite !total_filtered.
  destruct Hstep as [k cur j pt q Hk Hgk _ _ Hq Hgq Hj Hval _|k cur q Hk _ _ _ _ _];
    cbn [absorbed placed store toRemove].
  - destruct (cons_grid _ Hc _ _ Hgq) as (_ & pt' & Hj' & Hpq & Hlive).
    assert (pt' = pt) as -> by congruence.
    destruct (cons_grid _ Hc _ _ Hgk) as (_ & cur' & Hk' & _ & Hlivec).
    assert (cur' = cur) as -> by congruence.
    assert (Hne : id pt ≠ id cur).
    { intros Heq. assert (j = k) as ->
        by (by eapply (id_inj (store ms)); [apply (cons_ids _ Hc)|..]).
      assert (pt = cur) by congruence. congruence. }
    rewrite (liveTotal_insert _ _ j pt (upgrade pt) Hj).
    rewrite (liveTotal_remove _ _ k cur (cons_ids _ Hc) Hk Hlivec).
    unfold liveValue. simpl.
    destruct (decide (id pt ∈ {[id cur]} ∪ toRemove ms)); [set_solver|lia].
  - rewrite (liveTotal_insert _ _ k cur (relocate cur q) Hk). unfold liveValue. simpl. lia.
Qed.

Lemma Steps_total C ms ms' :
  rtc (TileStep C) ms ms' → Consistent ms → total (filtered ms') = total (filtered ms).
Proof.
  induction 1 as [|ms1 ms2 ms3 Hstep _ IH]; intros Hc; [done|].
  rewrite IH by (by eapply TileStep_consistent). by eapply TileStep_total.
Qed.

Lemma total_clearFlags ts : total (clearFlags <$> ts) = total ts.
Proof. induction ts as [|t ts IH]; [done|]. rewrite fmap_cons. cbn [total]. by rewrite IH. Qed.

Lemma total_snoc ts t : total (ts ++ [t]) = total ts + value t.
Proof. induction ts as [|t' ts IH]; cbn [app total]; [lia|]. rewrite IH. lia. Qed.

(** X16.  Sliding and merging keep the sum of the values on the board,
    so a move of a well-formed state adds to it the value of the new tile,
    2 or 4, when it has an effect, and nothing otherwise. *)
Theorem total_conservation w dir u v :
  Inv w → unitDraw u →
  ∃ ms w', resolve (tiles (game w)) dir = Some ms ∧ move w dir u v = Some w' ∧
    total (filtered ms) = total (tiles (game w)) ∧
    total (tiles (game w'))
    = total (tiles (game w)) + (if moved ms then randomValue v else 0).
Proof.
  intros HI Hu.
  destruct (move_sound w dir u v HI Hu)
    as (g & ms & nextTiles & seq' & can & _ & Hres & Hc0 & _ & Hsteps
        & Hmt & Hmf & _ & _ & _ & _ & Hmove).
  pose proof (Steps_total _ _ _ Hsteps Hc0) as Htot.
  rewrite filtered_init, total_clearFlags in Htot.
  exists ms. eexists. split; [done|]. split; [exact Hmove|]. split; [done|].
  cbn [tiles game]. destruct (moved ms) eqn:Hmv.
  - destruct (Hmt eq_refl) as (p & _ & _ & -> & _). rewrite total_snoc, Htot. done.
  - destruct (Hmf eq_refl) as (_ & -> & _). rewrite total_clearFlags. lia.
Qed.

Lemma total_conservation_witness :
  let w := mkWorld 6 (mkState (board [(0, 0, 2); (0, 1, 2); (1, 1, 8); (1, 3, 8); (2, 0, 4)])
                              20 20 false false) in
  Inv w ∧ unitDraw (1 # 7) ∧
  ∃ ms w', resolve (tiles (game w)) right = Some ms ∧
    move w right (1 # 7) (1 # 2) = Some w' ∧
    total (filtered ms) = total (tiles (game w)) ∧
    total (tiles (game w'))
    = total (tiles (game w)) + (if moved ms then randomValue (1 # 2) else 0).
Proof.
  intros w.
  assert (HI : Inv w) by check_state.
  assert (Hu : unitDraw (1 # 7)) by done.
  split; [exact HI|]. split; [exact Hu|].
  exact (total_conservation w right (1 # 7) (1 # 2) HI Hu).
Defined.

(** * Invariants of the score and of the number of tiles *)

Lemma pow2_double_div4 v : pow2 v → (4 | v * 2).
Proof.
  intros (n & Hn & ->). exists (2 ^ (n - 1)).
  replace n with (n - 1 + 1) at 1 by lia. rewrite Z.pow_add_r by lia. lia.
Qed.

Lemma TileStep_div4 C ms ms' :
  TileStep C ms ms' → Forall (λ t, pow2 (value t)) (store ms) →
  (4 | scoreGain ms) → (4 | scoreGain ms').
Proof.
  intros [k cur j pt q _ _ _ _ _ _ Hj _ _|k cur q _ _ _ _ _ _] Hall Hdiv; [|done].
  cbn [absorbed scoreGain]. apply Z.divide_add_r; [done|].
  apply pow2_double_div4. apply (Forall_lookup_1 _ _ _ _ Hall Hj).
Qed.

Lemma Steps_div4 C ms ms' :
  rtc (TileStep C) ms ms' → Forall (λ t, pow2 (value t)) (store ms) →
  (4 | scoreGain ms) → (4 | scoreGain ms').
Proof.
  induction 1 as [|ms1 ms2 ms3 Hstep _ IH]; [done|]. intros Hall Hdiv.
  apply IH; [by eapply TileStep_pow2|by eapply TileStep_div4].
Qed.

(** X17.  In every reachable state the score is a non-negative multiple
    of 4. *)
Theorem score_invariant w :
  reachable w → 0 ≤ score (game w) ∧ (4 | score (game w)).
Proof.
  induction 1 as [|w b _ IH|w u1 v1 u2 v2 w' Hreach _ Hu1 Hu2 Hnew
                  |w dir u v w' Hreach IH Hu Hmove].
  - split; [done|]. apply Z.divide_0_r.
  - exact IH.
  - destruct (newGame_sound w u1 v1 u2 v2 Hu1 Hu2) as (p1 & p2 & _ & _ & Hnew').
    rewrite Hnew in Hnew'. injection Hnew' as ->. split; [done|]. apply Z.divide_0_r.
  - pose proof (reachable_Inv _ Hreach) as HI.
    destruct (move_sound w dir u v HI Hu)
      as (g & ms & nextTiles & seq' & can & _ & _ & _ & _ & Hsteps
          & _ & _ & _ & _ & _ & _ & Hmove').
    rewrite Hmove in Hmove'. injection Hmove' as ->. cbn [game score].
    assert (Hp2 : Forall (λ t, pow2 (value t)) (clearFlags <$> tiles (game w))).
    { apply Forall_fmap. apply (inv_pow2 _ HI). }
    pose proof (Steps_gain _ _ _ Hsteps Hp2) as Hge.
    pose proof (Steps_div4 _ _ _ Hsteps Hp2 (Z.divide_0_r 4)) as Hdiv.
    cbn [scoreGain] in Hge. destruct IH as [Hpos Hd].
    split; [lia|]. by apply Z.divide_add_r.
Qed.

Lemma score_invariant_witness :
  let w := mkWorld 4 (mkState [mkTile 1 3 0 4 false false; mkTile 2 3 3 4 false false;
                               mkTile 3 0 3 2 true false] 0 0 false false) in
  reachable w ∧ 0 ≤ score (game w) ∧ (4 | score (game w)).
Proof.
  intros w.
  assert (Hreach : reachable w).
  { apply (reach_move (mkWorld 3 (mkState [mkTile 1 0 0 4 true false;
                                            mkTile 2 2 3 4 true false]
                                           0 0 false false)) down (1 # 4) (1 # 2));
      [|done|reflexivity].
    apply (reach_newGame initial 0 0 (2 # 3) 0); [apply reach_initial|done|done|].
    reflexivity. }
  split; [exact Hreach|].
  exact (score_invariant w Hreach).
Defined.

Lemma WfBoard_length ts : WfBoard ts → (length ts ≤ 16)%nat.
Proof.
  intros [Hr Hc _]. rewrite <- (length_fmap pos ts), <- length_allCells.
  apply submseteq_length, NoDup_submseteq; [done|].
  intros p Hp. apply list_elem_of_fmap in Hp as (t & -> & Ht).
  apply elem_of_allCells. by apply (proj1 (Forall_forall _ _) Hr).
Qed.

Lemma total_pos ts : Forall (λ t, pow2 (value t)) ts → ts ≠ [] → 0 < total ts.
Proof.
  induction 1 as [|t ts Ht Hall IH]; intros Hne; [done|]. cbn [total].
  apply pow2_pos in Ht. destruct ts as [|t' ts]; [simpl; lia|].
  assert (0 < total (t' :: ts)) by (by apply IH). lia.
Qed.

(** X18.  In every reachable state the board is empty, as it is before
    the first new game, or it holds at least 2 and at most 16 tiles: a
    move never clears the board. *)
Theorem tile_count w :
  reachable w →
  tiles (game w) = [] ∨ (2 ≤ length (tiles (game w)) ≤ 16)%nat.
Proof.
  induction 1 as [|w b _ IH|w u1 v1 u2 v2 w' Hreach _ Hu1 Hu2 Hnew
                  |w dir u v w' Hreach IH Hu Hmove].
  - by left.
  - exact IH.
  - destruct (newGame_sound w u1 v1 u2 v2 Hu1 Hu2) as (p1 & p2 & _ & _ & Hnew').
    rewrite Hnew in Hnew'. injection Hnew' as ->. right. simpl. lia.
  - pose proof (reachable_Inv _ Hreach) as HI.
    destruct (move_sound w dir u v HI Hu)
      as (g & ms & nextTiles & seq' & can & _ & Hres & Hc0 & _ & Hsteps
          & Hmt & Hmf & Hwf & _ & _ & _ & Hmove').
    rewrite Hmove in Hmove'. injection Hmove' as ->. cbn [game tiles].
    destruct (moved ms) eqn:Hmv.
    2:{ destruct (Hmf eq_refl) as (_ & -> & _). rewrite length_fmap.
        destruct IH as [->|IH]; [by left|by right]. }
    right. split; [|by apply WfBoard_length].
    destruct (Hmt eq_refl) as (p & _ & _ & -> & _). rewrite length_app. simpl.
    pose proof (Steps_total _ _ _ Hsteps Hc0) as Htot.
    rewrite filtered_init, total_clearFlags in Htot.
    destruct IH as [Hnil|IH].
    + destruct (resolve_moved _ dir (inv_wf _ HI)) as (ms' & Hres' & Hmv').
      assert (ms' = ms) as -> by congruence.
      rewrite Hnil in Hmv'. rewrite Hmv in Hmv'. by destruct dir.
    + assert (0 < total (tiles (game w))).
      { apply total_pos; [apply (inv_pow2 _ HI)|].
        intros Hnil. rewrite Hnil in IH. simpl in IH. lia. }
      destruct (filtered ms); [simpl in Htot; lia|simpl; lia].
Qed.

Lemma tile_count_witness :
  let w := mkWorld 4 (mkState [mkTile 1 3 0 4 false false; mkTile 2 3 3 4 false false;
                               mkTile 3 0 3 2 true false] 0 0 false false) in
  reachable w ∧
  (tiles (game w) = [] ∨ (2 ≤ length (tiles (game w)) ≤ 16)%nat).
Proof.
  intros w.
  assert (Hreach : reachable w).
  { apply (reach_move (mkWorld 3 (mkState [mkTile 1 0 0 4 true false;
                                            mkTile 2 2 3 4 true false]
                                           0 0 false false)) down (1 # 4) (1 # 2));
      [|done|reflexivity].
    apply (reach_newGame initial 0 0 (2 # 3) 0); [apply reach_initial|done|done|].
    reflexivity. }
  split; [exact Hreach|].
  exact (tile_count w Hreach).
Defined.

(** * A tile outside the rows of the grid *)

Lemma fillGrid_fail ts : ∀ k g t,
  t ∈ ts → rowOK (row t) = false → fillGrid k ts g = None.
Proof.
  induction ts as [|t0 ts IH]; intros k g t Ht Hrow; [by apply elem_of_nil in Ht|].
  cbn [fillGrid]. unfold grid_set.
  destruct (rowOK (row t0)) eqn:H0; [|done]. cbn [mbind option_bind].
  apply elem_of_cons in Ht as [->|Ht]; [congruence|]. by apply (IH _ _ t).
Qed.

(** X19.  A move of a state that holds a tile whose row is not one of
    0..3 does not return: writing the tile into the grid raises a
    TypeError before any line is processed, whatever the direction; and
    no reachable state holds such a tile. *)
Theorem move_row_out_of_range w dir u v t :
  t ∈ tiles (game w) → ¬ (0 ≤ row t < SIZE) →
  move w dir u v = None ∧ ¬ reachable w.
Proof.
  intros Ht Hrow. split.
  - unfold move, resolve, initMS.
    rewrite (fillGrid_fail _ 0%nat ∅ (clearFlags t)); [done|by apply list_elem_of_fmap_2|].
    simpl. unfold rowOK. apply andb_false_iff.
    destruct (Z.leb_spec 0 (row t)), (Z.ltb_spec (row t) SIZE); auto. lia.
  - intros Hreach. apply Hrow.
    pose proof (wf_range _ (inv_wf _ (reachable_Inv _ Hreach))) as Hr.
    apply (proj1 (Forall_forall _ _) Hr t Ht).
Qed.

Lemma move_row_out_of_range_witness :
  let w := mkWorld 3 (mkState [mkTile 1 0 0 2 false false; mkTile 2 4 1 2 false false]
                              0 0 false false) in
  let t := mkTile 2 4 1 2 false false in
  t ∈ tiles (game w) ∧ ¬ (0 ≤ row t < SIZE) ∧
  move w left (1 # 2) (1 # 2) = None ∧ ¬ reachable w.
Proof.
  intros w t.
  assert (Ht : t ∈ tiles (game w)) by (right; left).
  assert (Hrow : ¬ (0 ≤ row t < SIZE)) by (unfold SIZE; simpl; lia).
  split; [exact Ht|]. split; [exact Hrow|].
  exact (move_row_out_of_range w left (1 # 2) (1 # 2) t Ht Hrow).
Defined.

(** * Merges on a line and the score of the move *)










